(** * A shallow embedding of [snli/CPP/attentive_rnn.h]

    The header defines an embedding table ([LookupLayer]) and a plain
    recurrent classifier ([RNN]) trained by back-propagation through time.
    Eigen's [double] tensors are modelled over the real numbers; a dense
    matrix is kept column by column, as Eigen stores it.  Indexed accesses
    ([col(t)], [v[i]]) are checked, so that a run of the program either
    completes or stops at the first access outside a tensor.

    The real numbers leave rounding, overflow and underflow out.  Where
    the order of the floating-point operations is the matter, as in the
    repeated updates of one embedding column, the code is also given over
    IEEE 754 binary64 numbers ([Module Double]). *)

From Stdlib Require Import String.
From Stdlib Require Import Floats.PrimFloat.
From Stdlib Require Import Reals Lra Lia List ZArith Bool.
Import ListNotations.

Set Implicit Arguments.

Local Open Scope R_scope.

(** ** Outcomes of a run *)

Inductive fault : Type :=
| AssertionFailed   (* an [assert] written in the header fired *)
| IndexOutOfRange.  (* an Eigen accessor was given an index outside the tensor *)

Inductive result (A : Type) : Type :=
| Done (a : A)
| Abort (f : fault).

Arguments Done {A} a.
Arguments Abort {A} f.

Definition bind {A B : Type} (m : result A) (k : A -> result B) : result B :=
  match m with
  | Done a => k a
  | Abort f => Abort f
  end.

Notation "x <- m ;; k" := (bind m (fun x => k))
  (at level 61, m at next level, right associativity).

Definition assert (b : bool) : result unit :=
  if b then Done tt else Abort AssertionFailed.

(** ** Vectors *)

(** The entries are real numbers: an equation between computed values
    holds of the code's [double]s when both sides perform the same
    operations in the same order, and up to rounding otherwise. *)
Definition Vector : Type := list R.

Definition vzero (n : nat) : Vector := repeat 0 n.

(** Eigen requires the operands of a coefficient-wise operation to have
    one size and stops on its size check otherwise; [vzip] stops at the
    shorter operand.  The two agree on operands of equal length, which
    the shape conditions ([mshape], [well_shaped]) provide. *)
Fixpoint vzip (f : R -> R -> R) (a b : Vector) : Vector :=
  match a, b with
  | x :: a', y :: b' => f x y :: vzip f a' b'
  | _, _ => []
  end.

Definition vadd : Vector -> Vector -> Vector := vzip Rplus.
Definition vsub : Vector -> Vector -> Vector := vzip Rminus.
Definition vmul : Vector -> Vector -> Vector := vzip Rmult.
Definition vscale (c : R) (v : Vector) : Vector := map (Rmult c) v.

Definition rsum (l : list R) : R := fold_right Rplus 0 l.
Definition dot (a b : Vector) : R := rsum (vmul a b).

(** [v[i]] for an [int] index. *)
Definition vget (v : Vector) (i : Z) : result R :=
  if ((0 <=? i)%Z && (i <? Z.of_nat (length v))%Z)%bool
  then Done (nth (Z.to_nat i) v 0)
  else Abort IndexOutOfRange.

Fixpoint replace_nth {A : Type} (n : nat) (l : list A) (a : A) : list A :=
  match l, n with
  | [], _ => []
  | _ :: l', O => a :: l'
  | x :: l', S n' => x :: replace_nth n' l' a
  end.

(** [v[i] -= d] for an [int] index. *)
Definition vdec_at (v : Vector) (i : Z) (d : R) : result Vector :=
  x <- vget v i ;;
  Done (replace_nth (Z.to_nat i) v (x - d)).

(** ** Matrices, column major *)

Record Matrix : Type := mkMatrix {
  mrows : nat;
  mdata : list Vector
}.

Definition mcols (M : Matrix) : nat := length (mdata M).

(** [Matrix::Zero(r, c)] *)
Definition mzero (r c : nat) : Matrix := mkMatrix r (repeat (vzero r) c).

(** [M.col(t)] read for an [int] index. *)
Definition col (M : Matrix) (t : Z) : result Vector :=
  if ((0 <=? t)%Z && (t <? Z.of_nat (mcols M))%Z)%bool
  then Done (nth (Z.to_nat t) (mdata M) [])
  else Abort IndexOutOfRange.

(** [M.col(t) = v] *)
Definition set_col (M : Matrix) (t : Z) (v : Vector) : result Matrix :=
  if ((0 <=? t)%Z && (t <? Z.of_nat (mcols M))%Z)%bool
  then Done (mkMatrix (mrows M) (replace_nth (Z.to_nat t) (mdata M) v))
  else Abort IndexOutOfRange.

Definition mrow (M : Matrix) (i : nat) : Vector :=
  map (fun c => nth i c 0) (mdata M).

(** [M * v] *)
Definition mat_vec (M : Matrix) (v : Vector) : Vector :=
  map (fun i => dot (mrow M i) v) (seq 0 (mrows M)).

(** [M.transpose() * v] *)
Definition mat_tvec (M : Matrix) (v : Vector) : Vector :=
  map (fun c => dot c v) (mdata M).

(** [u * v.transpose()] *)
Definition outer (u v : Vector) : Matrix :=
  mkMatrix (length u) (map (fun vj => vscale vj u) v).

Fixpoint czip (f : Vector -> Vector -> Vector) (a b : list Vector)
  : list Vector :=
  match a, b with
  | x :: a', y :: b' => f x y :: czip f a' b'
  | _, _ => []
  end.

Definition madd (A B : Matrix) : Matrix :=
  mkMatrix (mrows A) (czip vadd (mdata A) (mdata B)).
Definition msub (A B : Matrix) : Matrix :=
  mkMatrix (mrows A) (czip vsub (mdata A) (mdata B)).
Definition mscale (c : R) (A : Matrix) : Matrix :=
  mkMatrix (mrows A) (map (vscale c) (mdata A)).

(** Every column of a well-shaped matrix has [mrows] entries. *)
Definition mshape (r c : nat) (M : Matrix) : Prop :=
  mrows M = r /\ mcols M = c /\ Forall (fun v => length v = r) (mdata M).

(** ** The embedding table *)

(** A token of the input sequence; only its word id is read here. *)
Record Input : Type := mkInput { wid : Z }.

Record Dictionary : Type := mkDictionary { GetNumWords : nat }.

Record LookupLayer : Type := mkLookupLayer {
  embedding_dimension_ : nat;
  dictionary_ : Dictionary;
  E_ : Matrix
}.

Module Lookup.

Definition CollectAllParameters (L : LookupLayer) : LookupLayer :=
  mkLookupLayer (embedding_dimension_ L) (dictionary_ L)
    (mzero (embedding_dimension_ L) (GetNumWords (dictionary_ L) + 1)).

(** The loop of [RunForwardLookupLayer], from position [t] on. *)
Fixpoint forward_loop (E : Matrix) (rest : list Input) (t : Z) (x : Matrix)
  : result Matrix :=
  match rest with
  | [] => Done x
  | inp :: rest' =>
      let w := (1 + wid inp)%Z in
      _ <- assert ((0 <=? w)%Z && (w <? Z.of_nat (mcols E))%Z) ;;
      c <- col E w ;;
      x' <- set_col x t c ;;
      forward_loop E rest' (t + 1)%Z x'
  end.

Definition RunForwardLookupLayer (L : LookupLayer)
  (input_sequence : list Input) : result Matrix :=
  forward_loop (E_ L) input_sequence 0%Z
    (mzero (embedding_dimension_ L) (length input_sequence)).

(** [E_.col(w) -= v] *)
Definition col_sub_assign (E : Matrix) (w : Z) (v : Vector) : result Matrix :=
  c <- col E w ;;
  set_col E w (vsub c v).

(** The loop of [RunBackwardLookupLayer], from position [t] on. *)
Fixpoint backward_loop (rest : list Input) (t : Z) (dX : Matrix)
  (learning_rate : R) (E : Matrix) : result Matrix :=
  match rest with
  | [] => Done E
  | inp :: rest' =>
      let w := (1 + wid inp)%Z in
      d <- col dX t ;;
      E' <- col_sub_assign E w (vscale learning_rate d) ;;
      backward_loop rest' (t + 1)%Z dX learning_rate E'
  end.

Definition RunBackwardLookupLayer (L : LookupLayer)
  (input_sequence : list Input) (dX : Matrix) (learning_rate : R)
  : result LookupLayer :=
  E' <- backward_loop input_sequence 0%Z dX learning_rate (E_ L) ;;
  Done (mkLookupLayer (embedding_dimension_ L) (dictionary_ L) E').

End Lookup.

(** ** The plain recurrent cell *)

(** The class also keeps the dictionary pointer it hands to its lookup
    layer; nothing else reads it, so the state below leaves it to
    [lookup_layer_]. *)
Record RNN : Type := mkRNN {
  activation_function_ : Z;
  lookup_layer_ : LookupLayer;
  hidden_size_ : nat;
  output_size_ : nat;
  use_hidden_start_ : bool;
  Wxh_ : Matrix;
  Whh_ : Matrix;
  Why_ : Matrix;
  bh_ : Vector;
  by_ : Vector;
  h0_ : Vector;
  x_ : Matrix;
  h_ : Matrix;
  y_ : Vector;
  p_ : Vector
}.

Definition GetInputSize (s : RNN) : nat :=
  embedding_dimension_ (lookup_layer_ s).

(** Assignment to the per-example buffers [x_], [h_], [y_], [p_]. *)
Definition set_trace (s : RNN) (x h : Matrix) (y p : Vector) : RNN :=
  mkRNN (activation_function_ s) (lookup_layer_ s) (hidden_size_ s)
    (output_size_ s) (use_hidden_start_ s)
    (Wxh_ s) (Whh_ s) (Why_ s) (bh_ s) (by_ s) (h0_ s) x h y p.

(** Assignment to the parameter tensors. *)
Definition set_params (s : RNN) (L : LookupLayer) (Wxh Whh Why : Matrix)
  (bh by0 h0 : Vector) : RNN :=
  mkRNN (activation_function_ s) L (hidden_size_ s)
    (output_size_ s) (use_hidden_start_ s)
    Wxh Whh Why bh by0 h0 (x_ s) (h_ s) (y_ s) (p_ s).

(** The tensors that [CollectAllParameters] registers by pointer. *)
Inductive weight_ref : Type := Ref_E | Ref_Wxh | Ref_Whh | Ref_Why.
Inductive bias_ref : Type := Ref_bh | Ref_by | Ref_h0.

Definition get_weight (s : RNN) (r : weight_ref) : Matrix :=
  match r with
  | Ref_E => E_ (lookup_layer_ s)
  | Ref_Wxh => Wxh_ s
  | Ref_Whh => Whh_ s
  | Ref_Why => Why_ s
  end.

Definition set_weight (s : RNN) (r : weight_ref) (M : Matrix) : RNN :=
  let L := lookup_layer_ s in
  match r with
  | Ref_E =>
      set_params s (mkLookupLayer (embedding_dimension_ L) (dictionary_ L) M)
        (Wxh_ s) (Whh_ s) (Why_ s) (bh_ s) (by_ s) (h0_ s)
  | Ref_Wxh => set_params s L M (Whh_ s) (Why_ s) (bh_ s) (by_ s) (h0_ s)
  | Ref_Whh => set_params s L (Wxh_ s) M (Why_ s) (bh_ s) (by_ s) (h0_ s)
  | Ref_Why => set_params s L (Wxh_ s) (Whh_ s) M (bh_ s) (by_ s) (h0_ s)
  end.

Definition get_bias (s : RNN) (r : bias_ref) : Vector :=
  match r with
  | Ref_bh => bh_ s
  | Ref_by => by_ s
  | Ref_h0 => h0_ s
  end.

Definition set_bias (s : RNN) (r : bias_ref) (v : Vector) : RNN :=
  let L := lookup_layer_ s in
  match r with
  | Ref_bh => set_params s L (Wxh_ s) (Whh_ s) (Why_ s) v (by_ s) (h0_ s)
  | Ref_by => set_params s L (Wxh_ s) (Whh_ s) (Why_ s) (bh_ s) v (h0_ s)
  | Ref_h0 => set_params s L (Wxh_ s) (Whh_ s) (Why_ s) (bh_ s) (by_ s) v
  end.

(** [M(i, j) = v] *)
Definition mset (M : Matrix) (i j : nat) (v : R) : result Matrix :=
  if ((i <? mrows M)%nat && (j <? mcols M)%nat)%bool
  then Done (mkMatrix (mrows M)
               (replace_nth j (mdata M) (replace_nth i (nth j (mdata M) []) v)))
  else Abort IndexOutOfRange.

(** [M(i, j)] read, for indices known to be inside. *)
Definition mget (M : Matrix) (i j : nat) : R :=
  nth i (nth j (mdata M) []) 0.

Definition vmax (y : Vector) : R :=
  match y with
  | [] => 0
  | a :: l => fold_left Rmax l a
  end.

(** Modelled from the spec: [LogSumExp] is declared in [nn_utils.h], which
    is not part of the sources at hand; the spec gives it as
    [logsum = log(sum_i exp(y_i - max(y))) + max(y)]. *)
Definition LogSumExp (y : Vector) : R :=
  ln (rsum (map (fun yi => exp (yi - vmax y)) y)) + vmax y.

(** [v.maxCoeff(&index)]: the first position of the largest entry. *)
Fixpoint argmax_from (l : Vector) (i : Z) (best : R) (bi : Z) : Z :=
  match l with
  | [] => bi
  | v :: l' =>
      if Rlt_dec best v then argmax_from l' (i + 1)%Z v i
      else argmax_from l' (i + 1)%Z best bi
  end.

Definition maxCoeff (v : Vector) : result Z :=
  match v with
  | [] => Abort IndexOutOfRange
  | a :: l => Done (argmax_from l 1%Z a 0%Z)
  end.

(** ** Operations of the cell

    [nn_utils.h] (activation evaluation and derivative, the [LOGISTIC]
    tag, the parameter loaders) and the C library's generator ([srand],
    [rand], [RAND_MAX]) are outside the header; the operations take them
    as parameters. *)

Section Cell.

Variable EvaluateActivation : Z -> Vector -> Vector.
Variable DerivateActivation : Z -> Vector -> Vector.
Variable LOGISTIC : Z.
Variable LoadVectorParameter : String.string -> Vector -> Vector.
Variable LoadMatrixParameter : String.string -> Matrix -> Matrix.

Variable rand_state : Type.
Variable srand : Z -> rand_state.
Variable rand : rand_state -> Z * rand_state.
Variable RAND_MAX : Z.

(** What [CollectAllParameters] hands back besides the reset cell: the
    registered tensors and their names. *)
Record registry : Type := mkRegistry {
  weights : list weight_ref;
  biases : list bias_ref;
  weight_names : list String.string;
  bias_names : list String.string
}.

Definition CollectAllParameters (s : RNN) : RNN * registry :=
  let Wxh := mzero (hidden_size_ s) (GetInputSize s) in
  let Whh := mzero (hidden_size_ s) (hidden_size_ s) in
  let Why := mzero (output_size_ s) (hidden_size_ s) in
  let bh := vzero (hidden_size_ s) in
  let by0 := vzero (output_size_ s) in
  let h0 := if use_hidden_start_ s then vzero (hidden_size_ s) else h0_ s in
  let L := Lookup.CollectAllParameters (lookup_layer_ s) in
  let ws := [Ref_E] ++ [Ref_Wxh; Ref_Whh; Ref_Why] in
  let bs := [Ref_bh; Ref_by]
            ++ (if use_hidden_start_ s then [Ref_h0] else []) in
  let wn := ["embeddings"%string]
            ++ ["Wxh"%string; "Whh"%string; "Why"%string] in
  let bn := ["bh"%string; "by"%string]
            ++ (if use_hidden_start_ s then ["h0"%string] else []) in
  (set_params s L Wxh Whh Why bh by0 h0, mkRegistry ws bs wn bn).

(** The inner loop over [j < W->cols()], which stores one scaled draw in
    entry [(i, j)]; [n] columns are still to fill. *)
Fixpoint fill_row (W : Matrix) (max : R) (i : nat) (n j : nat)
  (g : rand_state) : result (Matrix * rand_state) :=
  match n with
  | O => Done (W, g)
  | S n' =>
      let (r, g') := rand g in
      let t := max * (2 * IZR r / IZR RAND_MAX - 1) in
      W' <- mset W i j t ;;
      fill_row W' max i n' (S j) g'
  end.

(** The outer loop over [i < W->rows()]; [n] rows are still to fill. *)
Fixpoint fill_rows (W : Matrix) (max : R) (n i : nat) (g : rand_state)
  : result (Matrix * rand_state) :=
  match n with
  | O => Done (W, g)
  | S n' =>
      Wg <- fill_row W max i (mcols W) 0 g ;;
      fill_rows (fst Wg) max n' (S i) (snd Wg)
  end.

Definition init_coeff (s : RNN) : R :=
  if (activation_function_ s =? LOGISTIC)%Z then 4 else 1.

Definition init_max (s : RNN) (W : Matrix) : R :=
  let num_outputs := mrows W in
  let num_inputs := mcols W in
  init_coeff s * sqrt (6 / INR (num_inputs + num_outputs)).

(** The value stored for one call of [rand()]. *)
Definition scaled_draw (max : R) (r : Z) : R :=
  max * (2 * IZR r / IZR RAND_MAX - 1).

(** [v] is what the fill loops store for some call of [rand()]. *)
Definition drawn (max v : R) : Prop :=
  exists g : rand_state, v = scaled_draw max (fst (rand g)).

(** [for (auto W : weights) ...] *)
Fixpoint init_weights (ws : list weight_ref) (s : RNN) (g : rand_state)
  : result (RNN * rand_state) :=
  match ws with
  | [] => Done (s, g)
  | r :: ws' =>
      let W := get_weight s r in
      Wg <- fill_rows W (init_max s W) (mrows W) 0 g ;;
      init_weights ws' (set_weight s r (fst Wg)) (snd Wg)
  end.

(** [for (auto b : biases) b->setZero()] *)
Fixpoint zero_biases (bs : list bias_ref) (s : RNN) : RNN :=
  match bs with
  | [] => s
  | r :: bs' =>
      zero_biases bs' (set_bias s r (vzero (length (get_bias s r))))
  end.

Fixpoint load_biases (bs : list bias_ref) (ns : list String.string)
  (s : RNN) : RNN :=
  match bs, ns with
  | r :: bs', n :: ns' =>
      load_biases bs' ns' (set_bias s r (LoadVectorParameter n (get_bias s r)))
  | _, _ => s
  end.

Fixpoint load_weights (ws : list weight_ref) (ns : list String.string)
  (s : RNN) : RNN :=
  match ws, ns with
  | r :: ws', n :: ns' =>
      load_weights ws' ns'
        (set_weight s r (LoadMatrixParameter n (get_weight s r)))
  | _, _ => s
  end.

(** The generator is process-wide state: it is threaded through, although
    the first statement reseeds it. *)
Definition InitializeParameters (s : RNN) (g : rand_state)
  : result (RNN * rand_state) :=
  let g := srand 1234 in
  let (s, reg) := CollectAllParameters s in
  let read_from_file := false in
  if read_from_file then
    let s := load_biases (biases reg) (bias_names reg) s in
    let s := load_weights (weights reg) (weight_names reg) s in
    Done (s, g)
  else
    let s := zero_biases (biases reg) s in
    init_weights (weights reg) s g.

(** The recurrence loop of [RunForwardPass], from step [t] on, with [n]
    steps to go. *)
Fixpoint forward_loop (s : RNN) (n : nat) (t : Z) (x h : Matrix)
  (hprev : Vector) : result (Matrix * Vector) :=
  match n with
  | O => Done (h, hprev)
  | S n' =>
      xt <- col x t ;;
      let res :=
        EvaluateActivation (activation_function_ s)
          (vadd (vadd (mat_vec (Wxh_ s) xt) (bh_ s))
                (mat_vec (Whh_ s) hprev)) in
      h' <- set_col h t res ;;
      hprev' <- col h' t ;;
      forward_loop s n' (t + 1)%Z x h' hprev'
  end.

Definition RunForwardPass (s : RNN) (input_sequence : list Input)
  : result RNN :=
  x <- Lookup.RunForwardLookupLayer (lookup_layer_ s) input_sequence ;;
  let hidden_size := mrows (Whh_ s) in
  let h := mzero hidden_size (length input_sequence) in
  let hprev := vzero (mrows h) in
  let hprev := if use_hidden_start_ s then h0_ s else hprev in
  hh <- forward_loop s (length input_sequence) 0%Z x h hprev ;;
  let h := fst hh in
  let t := (Z.of_nat (length input_sequence) - 1)%Z in
  ht <- col h t ;;
  let y := vadd (mat_vec (Why_ s) ht) (by_ s) in
  let logsum := LogSumExp y in
  let p := map (fun yi => exp (yi - logsum)) y in
  Done (set_trace s x h y p).

Definition Run (s : RNN) (input_sequence : list Input) : result (RNN * Z) :=
  s' <- RunForwardPass s input_sequence ;;
  prediction <- maxCoeff (p_ s') ;;
  Done (s', prediction).

(** The accumulators that the loop of [RunBackwardPass] carries. *)
Record grads : Type := mkGrads {
  dWxh : Matrix;
  dbh : Vector;
  dWhh : Matrix;
  dhnext : Vector;
  dx : Matrix
}.

(** [for (t = n - 1; t >= 0; --t)] *)
Fixpoint backward_loop (s : RNN) (n : nat) (a : grads) : result grads :=
  match n with
  | O => Done a
  | S n' =>
      let t := Z.of_nat n' in
      let dh := dhnext a in
      ht <- col (h_ s) t ;;
      let dhraw := DerivateActivation (activation_function_ s) ht in
      let dhraw := vmul dhraw dh in
      xt <- col (x_ s) t ;;
      let dWxh' := madd (dWxh a) (outer dhraw xt) in
      let dbh' := vadd (dbh a) dhraw in
      dWhh' <- (if (0 <? t)%Z
                then hp <- col (h_ s) (t - 1)%Z ;;
                     Done (madd (dWhh a) (outer dhraw hp))
                else Done (dWhh a)) ;;
      let dhnext' := mat_tvec (Whh_ s) dhraw in
      dx' <- set_col (dx a) t (mat_tvec (Wxh_ s) dhraw) ;;
      backward_loop s n' (mkGrads dWxh' dbh' dWhh' dhnext' dx')
  end.

(** The gradient tensors as they stand when the loop has finished, before
    any parameter is touched. *)
Record gradients : Type := mkGradients {
  g_dWhy : Matrix;
  g_dby : Vector;
  g_loop : grads
}.

Definition backward_gradients (s : RNN) (input_sequence : list Input)
  (output_label : Z) : result gradients :=
  let dWhy := mzero (mrows (Why_ s)) (mcols (Why_ s)) in
  let dWhh0 := mzero (mrows (Whh_ s)) (mcols (Whh_ s)) in
  let dWxh0 := mzero (mrows (Wxh_ s)) (mcols (Wxh_ s)) in
  let dby := vzero (mrows (Why_ s)) in
  let dbh0 := vzero (mrows (Whh_ s)) in
  let dhnext0 := vzero (mrows (Whh_ s)) in
  let dx0 := mzero (GetInputSize s) (length input_sequence) in
  let dy := p_ s in
  let t := (Z.of_nat (length input_sequence) - 1)%Z in
  dy <- vdec_at dy output_label 1 ;;
  ht <- col (h_ s) t ;;
  let dWhy := madd dWhy (outer dy ht) in
  let dby := vadd dby dy in
  let dhnext0 := vadd dhnext0 (mat_tvec (Why_ s) dy) in
  a <- backward_loop s (length input_sequence)
         (mkGrads dWxh0 dbh0 dWhh0 dhnext0 dx0) ;;
  Done (mkGradients dWhy dby a).

Definition RunBackwardPass (s : RNN) (input_sequence : list Input)
  (output_label : Z) (learning_rate : R) : result RNN :=
  g <- backward_gradients s input_sequence output_label ;;
  let a := g_loop g in
  let Why := msub (Why_ s) (mscale learning_rate (g_dWhy g)) in
  let by0 := vsub (by_ s) (vscale learning_rate (g_dby g)) in
  let Wxh := msub (Wxh_ s) (mscale learning_rate (dWxh a)) in
  let bh := vsub (bh_ s) (vscale learning_rate (dbh a)) in
  let Whh := msub (Whh_ s) (mscale learning_rate (dWhh a)) in
  let h0 := if use_hidden_start_ s
            then vsub (h0_ s) (vscale learning_rate (dhnext a))
            else h0_ s in
  L <- Lookup.RunBackwardLookupLayer (lookup_layer_ s) input_sequence
         (dx a) learning_rate ;;
  Done (set_params s L Wxh Whh Why bh by0 h0).

(** [double loss = -log(p_(output_label))], as [TrainEpoch] computes it
    after a forward pass. *)
Definition loss (s : RNN) (input_sequence : list Input) (output_label : Z)
  : result R :=
  s' <- RunForwardPass s input_sequence ;;
  pl <- vget (p_ s') output_label ;;
  Done (- ln pl).

(** ** The recurrences as the specification words them *)

(** The state that precedes the first step: [h0] when the learned initial
    state is enabled, the zero vector otherwise. *)
Definition h_start (s : RNN) : Vector :=
  if use_hidden_start_ s then h0_ s else vzero (mrows (Whh_ s)).

(** [h[:,t] = Activate(Wxh X[:,t] + bh + Whh h_prev)], [h_prev] being the
    previous column. *)
Fixpoint hidden_spec (s : RNN) (X : Matrix) (t : nat) : Vector :=
  let h_prev :=
    match t with
    | O => h_start s
    | S t' => hidden_spec s X t'
    end in
  EvaluateActivation (activation_function_ s)
    (vadd (vadd (mat_vec (Wxh_ s) (nth t (mdata X) [])) (bh_ s))
          (mat_vec (Whh_ s) h_prev)).

(** The state that precedes step [t]. *)
Definition state_before (s : RNN) (X : Matrix) (t : nat) : Vector :=
  match t with
  | O => h_start s
  | S t' => hidden_spec s X t'
  end.

(** The hidden-state matrix: one column of the recurrence per step. *)
Definition hidden_matrix_spec (s : RNN) (X : Matrix) (T : nat) : Matrix :=
  mkMatrix (mrows (Whh_ s)) (map (hidden_spec s X) (seq 0 T)).

(** [y = Why h[:,T-1] + by] *)
Definition logits_spec (s : RNN) (X : Matrix) (T : nat) : Vector :=
  vadd (mat_vec (Why_ s) (hidden_spec s X (T - 1))) (by_ s).

(** [p_i = exp(y_i - logsum)] *)
Definition probabilities_spec (y : Vector) : Vector :=
  map (fun yi => exp (yi - LogSumExp y)) y.

Section BPTT.

(** The cell as the forward pass left it, the length [T] of the sequence
    and the true label. *)
Variable s : RNN.
Variable T : nat.
Variable label : Z.

Definition h_col (t : nat) : Vector := nth t (mdata (h_ s)) [].
Definition x_col (t : nat) : Vector := nth t (mdata (x_ s)) [].

(** [dy = p; dy[label] -= 1] *)
Definition dy_spec : Vector :=
  replace_nth (Z.to_nat label) (p_ s) (nth (Z.to_nat label) (p_ s) 0 - 1).

(** The hidden gradient that enters step [T - 1 - k]: [Why^T dy] at the
    last step, and [Whh^T draw] of the step after it before that. *)
Fixpoint dh_back (k : nat) : Vector :=
  match k with
  | O => mat_tvec (Why_ s) dy_spec
  | S k' =>
      mat_tvec (Whh_ s)
        (vmul (DerivateActivation (activation_function_ s)
                 (h_col (T - 1 - k')))
              (dh_back k'))
  end.

(** [draw = Derivative(h[:,t]) (.) dh] *)
Definition draw_spec (t : nat) : Vector :=
  vmul (DerivateActivation (activation_function_ s) (h_col t))
       (dh_back (T - 1 - t)).

(** The steps in the order the recurrence visits them, [T-1] down to [0]. *)
Definition steps_down : list nat := rev (seq 0 T).

Definition dWhy_spec : Matrix :=
  madd (mzero (mrows (Why_ s)) (mcols (Why_ s)))
       (outer dy_spec (h_col (T - 1))).

Definition dby_spec : Vector := vadd (vzero (mrows (Why_ s))) dy_spec.

Definition dWxh_spec : Matrix :=
  fold_left (fun acc t => madd acc (outer (draw_spec t) (x_col t)))
    steps_down (mzero (mrows (Wxh_ s)) (mcols (Wxh_ s))).

Definition dbh_spec : Vector :=
  fold_left (fun acc t => vadd acc (draw_spec t))
    steps_down (vzero (mrows (Whh_ s))).

Definition dWhh_spec : Matrix :=
  fold_left (fun acc t => madd acc (outer (draw_spec t) (h_col (t - 1))))
    (filter (fun t => (0 <? t)%nat) steps_down)
    (mzero (mrows (Whh_ s)) (mcols (Whh_ s))).

(** [dX[:,t] = Wxh^T draw] *)
Definition dX_spec : Matrix :=
  mkMatrix (GetInputSize s)
    (map (fun t => mat_tvec (Wxh_ s) (draw_spec t)) (seq 0 T)).

(** The gradient into [h0]: [dh_next] as the step [t = 0] leaves it. *)
Definition dh0_spec : Vector := mat_tvec (Whh_ s) (draw_spec 0).

(** The gradient tensors of the recurrence, gathered. *)
Definition gradients_spec : gradients :=
  mkGradients dWhy_spec dby_spec
    (mkGrads dWxh_spec dbh_spec dWhh_spec dh0_spec dX_spec).

(** Plain SGD on every parameter but the embeddings, which the lookup
    layer [L] updates itself. *)
Definition sgd_spec (learning_rate : R) (L : LookupLayer) : RNN :=
  set_params s L
    (msub (Wxh_ s) (mscale learning_rate dWxh_spec))
    (msub (Whh_ s) (mscale learning_rate dWhh_spec))
    (msub (Why_ s) (mscale learning_rate dWhy_spec))
    (vsub (bh_ s) (vscale learning_rate dbh_spec))
    (vsub (by_ s) (vscale learning_rate dby_spec))
    (if use_hidden_start_ s
     then vsub (h0_ s) (vscale learning_rate dh0_spec)
     else h0_ s).

End BPTT.

End Cell.

(** ** Shapes and preconditions *)

(** The ids the dictionary hands out: [0 <= id < V]. *)
Definition valid_ids (L : LookupLayer) (input_sequence : list Input) : Prop :=
  Forall (fun inp =>
            (0 <= wid inp < Z.of_nat (GetNumWords (dictionary_ L)))%Z)
         input_sequence.

(** The embedding matrix as [CollectAllParameters] allocates it. *)
Definition lookup_shaped (L : LookupLayer) : Prop :=
  mshape (embedding_dimension_ L) (GetNumWords (dictionary_ L) + 1) (E_ L).

(** The parameter shapes as [CollectAllParameters] allocates them. *)
Definition well_shaped (s : RNN) : Prop :=
  lookup_shaped (lookup_layer_ s) /\
  mshape (hidden_size_ s) (GetInputSize s) (Wxh_ s) /\
  mshape (hidden_size_ s) (hidden_size_ s) (Whh_ s) /\
  mshape (output_size_ s) (hidden_size_ s) (Why_ s) /\
  length (bh_ s) = hidden_size_ s /\
  length (by_ s) = output_size_ s /\
  (use_hidden_start_ s = true -> length (h0_ s) = hidden_size_ s).

(** The positions, counted from [t], whose token addresses column [c]. *)
Fixpoint positions_of (c : Z) (rest : list Input) (t : nat) : list nat :=
  match rest with
  | [] => []
  | inp :: rest' =>
      if (1 + wid inp =? c)%Z
      then t :: positions_of c rest' (S t)
      else positions_of c rest' (S t)
  end.

(** The sum of a list of [n]-vectors. *)
Definition vsum (n : nat) (l : list Vector) : Vector :=
  fold_right vadd (vzero n) l.

(** The column that the lookup copies for a token. *)
Definition looked_up (E : Matrix) (inp : Input) : Vector :=
  nth (Z.to_nat (1 + wid inp)) (mdata E) [].

(** The token's column index passes the assertion of the lookup. *)
Definition id_in_table (E : Matrix) (inp : Input) : Prop :=
  (0 <= 1 + wid inp < Z.of_nat (mcols E))%Z.

(** ** The logistic activation *)

(** Modelled from the spec: the activation collaborator lives in
    [nn_utils.h], which is not part of the sources at hand.  The spec
    describes its logistic kind: [Evaluate] applies the sigmoid to every
    entry of the raw vector, and [Derivative] is evaluated at the
    activated value, [a (1 - a)]. *)
Definition logistic (x : R) : R := 1 / (1 + exp (- x)).

Definition logistic_derivative (a : R) : R := a * (1 - a).

Definition Evaluate_logistic (kind : Z) (raw : Vector) : Vector :=
  map logistic raw.

Definition Derivate_logistic (kind : Z) (activated : Vector) : Vector :=
  map logistic_derivative activated.

(** ** A small table and a small cell, to run the operations on *)

Module Example.

(** Two-dimensional embeddings for a vocabulary of two words. *)
Definition table : LookupLayer :=
  mkLookupLayer 2 (mkDictionary 2) (mkMatrix 2 [[0; 0]; [1; 2]; [3; 4]]).

Definition sentence : list Input := [mkInput 0; mkInput 1; mkInput 0].

(** One gradient column per token of [sentence]. *)
Definition dX : Matrix := mkMatrix 2 [[1; 1]; [2; 2]; [3; 3]].

(** A cell with two hidden units and two classes over [table]; its
    buffers are as a default-constructed Eigen tensor leaves them. *)
Definition cell : RNN :=
  mkRNN 1 table 2 2 true
    (mkMatrix 2 [[1; 0]; [0; 1]])
    (mkMatrix 2 [[1; 1]; [0; 1]])
    (mkMatrix 2 [[1; 0]; [1; 1]])
    [0; 0] [0; 0] [1; 1]
    (mkMatrix 0 []) (mkMatrix 0 []) [] [].

(** A linear congruential generator in the place of the C library's. *)
Definition lcg_srand (seed : Z) : Z := seed.

Definition lcg_rand (g : Z) : Z * Z :=
  let g' := ((1103515245 * g + 12345) mod 2147483648)%Z in (g', g').

Definition lcg_RAND_MAX : Z := 2147483647.

(** Loaders that leave the tensor as it is. *)
Definition keep_vector (name : string) (v : Vector) : Vector := v.

Definition keep_matrix (name : string) (M : Matrix) : Matrix := M.

End Example.

(** ** A one-unit cell whose recurrent weight is left open *)

Module Probe.

(** One hidden unit, one embedding dimension, two classes, a vocabulary
    of one word; the learned initial state is [1] and the only entry of
    [Whh] is [theta]. *)
Definition cell (theta : R) : RNN :=
  mkRNN 1
    (mkLookupLayer 1 (mkDictionary 1) (mkMatrix 1 [[0]; [0]]))
    1 2 true
    (mkMatrix 1 [[0]])
    (mkMatrix 1 [[theta]])
    (mkMatrix 2 [[1; 0]])
    [0] [0; 0] [1]
    (mkMatrix 0 []) (mkMatrix 0 []) [] [].

Definition sentence : list Input := [mkInput 0].

(** The loss of the one-token sentence with label [0], as a function of
    the entry of [Whh]. *)
Definition loss_of (theta : R) : R :=
  match loss Evaluate_logistic (cell theta) sentence 0 with
  | Done v => v
  | Abort _ => 0
  end.

End Probe.

(** The cell after [CollectAllParameters], with the four weight matrices
    filled in. *)
Definition initialized (s : RNN) (E Wxh Whh Why : Matrix) : RNN :=
  set_params s
    (mkLookupLayer (embedding_dimension_ (lookup_layer_ s))
       (dictionary_ (lookup_layer_ s)) E)
    Wxh Whh Why (vzero (hidden_size_ s)) (vzero (output_size_ s))
    (if use_hidden_start_ s then vzero (hidden_size_ s) else h0_ s).

(** ** The loss along a direction of the parameters *)

(** [F] is a vector of [n] functions of one real variable, each
    differentiable at [0], with the derivatives listed in [L]. *)
Definition vderiv (n : nat) (F : R -> Vector) (L : Vector) : Prop :=
  (forall theta, length (F theta) = n) /\
  length L = n /\
  forall i, (i < n)%nat ->
    derivable_pt_lim (fun theta => nth i (F theta) 0) 0 (nth i L 0).

(** The entrywise inner product of two matrices. *)
Fixpoint cinner (a b : list Vector) : R :=
  match a, b with
  | x :: a', y :: b' => dot x y + cinner a' b'
  | _, _ => 0
  end.

Definition minner (A B : Matrix) : R := cinner (mdata A) (mdata B).

(** An activation applied entry by entry, whatever the kind tag. *)
Definition elementwise (f : R -> R) (kind : Z) (v : Vector) : Vector :=
  map f v.

(** A direction in parameter space: one tensor per parameter of the
    cell, the embeddings apart. *)
Record directions : Type := mkDirections {
  d_Wxh : Matrix;
  d_Whh : Matrix;
  d_Why : Matrix;
  d_bh : Vector;
  d_by : Vector;
  d_h0 : Vector
}.

Definition directions_shaped (s : RNN) (D : directions) : Prop :=
  mshape (hidden_size_ s) (GetInputSize s) (d_Wxh D) /\
  mshape (hidden_size_ s) (hidden_size_ s) (d_Whh D) /\
  mshape (output_size_ s) (hidden_size_ s) (d_Why D) /\
  length (d_bh D) = hidden_size_ s /\
  length (d_by D) = output_size_ s /\
  length (d_h0 D) = hidden_size_ s.

(** The cell with every parameter moved by [theta] along the direction;
    [h0] moves only when it is in use. *)
Definition perturb (s : RNN) (D : directions) (theta : R) : RNN :=
  set_params s (lookup_layer_ s)
    (madd (Wxh_ s) (mscale theta (d_Wxh D)))
    (madd (Whh_ s) (mscale theta (d_Whh D)))
    (madd (Why_ s) (mscale theta (d_Why D)))
    (vadd (bh_ s) (vscale theta (d_bh D)))
    (vadd (by_ s) (vscale theta (d_by D)))
    (if use_hidden_start_ s
     then vadd (h0_ s) (vscale theta (d_h0 D))
     else h0_ s).

(** The derivative of the initial state along the direction. *)
Definition start_tangent (s : RNN) (D : directions) : Vector :=
  if use_hidden_start_ s then d_h0 D else vzero (mrows (Whh_ s)).

(** The derivative of the hidden state of step [t] along the direction,
    by the chain rule through the recurrence. *)
Fixpoint hidden_tangent (act dact : R -> R) (s : RNN) (D : directions)
  (X : Matrix) (t : nat) : Vector :=
  let J_prev :=
    match t with
    | O => start_tangent s D
    | S t' => hidden_tangent act dact s D X t'
    end in
  vmul (map dact (hidden_spec (elementwise act) s X t))
       (vadd (vadd (mat_vec (d_Wxh D) (nth t (mdata X) [])) (d_bh D))
             (vadd (mat_vec (d_Whh D)
                      (state_before (elementwise act) s X t))
                   (mat_vec (Whh_ s) J_prev))).

(** The same, for the state that precedes step [t]. *)
Definition tangent_before (act dact : R -> R) (s : RNN) (D : directions)
  (X : Matrix) (t : nat) : Vector :=
  match t with
  | O => start_tangent s D
  | S t' => hidden_tangent act dact s D X t'
  end.

(** The derivative of the logits along the direction. *)
Definition logits_tangent (act dact : R -> R) (s : RNN) (D : directions)
  (X : Matrix) (T : nat) : Vector :=
  vadd (vadd (mat_vec (d_Why D) (hidden_spec (elementwise act) s X (T - 1)))
             (mat_vec (Why_ s) (hidden_tangent act dact s D X (T - 1))))
       (d_by D).

(** The number a loss computation yields. *)
Definition loss_value (r : result R) : R :=
  match r with
  | Done v => v
  | Abort _ => 0
  end.

(** The matrix that the lookup returns on in-range ids. *)
Definition embedded (s : RNN) (input_sequence : list Input) : Matrix :=
  mkMatrix (GetInputSize s)
    (map (looked_up (E_ (lookup_layer_ s))) input_sequence).

(** The cell as the forward pass leaves it, under an entrywise
    activation. *)
Definition forward_state (act : R -> R) (s : RNN)
  (input_sequence : list Input) : RNN :=
  let X := embedded s input_sequence in
  let T := length input_sequence in
  let y := logits_spec (elementwise act) s X T in
  set_trace s X (hidden_matrix_spec (elementwise act) s X T) y
    (probabilities_spec y).

(** What step [t] of the backward recurrence contributes to the
    derivative along a direction. *)
Definition step_terms (act dact : R -> R) (s : RNN) (D : directions)
  (input_sequence : list Input) (label : Z) (t : nat) : R :=
  let s1 := forward_state act s input_sequence in
  let X := embedded s input_sequence in
  let draw :=
    draw_spec (elementwise dact) s1 (length input_sequence) label t in
  minner (outer draw (nth t (mdata X) [])) (d_Wxh D)
  + dot draw (d_bh D)
  + minner (outer draw (state_before (elementwise act) s X t)) (d_Whh D).

(** The gradient tensors paired with a direction: the directional
    derivative that the tensors stand for. *)
Definition gradient_along (s : RNN) (g : gradients) (D : directions) : R :=
  minner (dWxh (g_loop g)) (d_Wxh D)
  + dot (dbh (g_loop g)) (d_bh D)
  + minner (dWhh (g_loop g)) (d_Whh D)
  + minner (g_dWhy g) (d_Why D)
  + dot (g_dby g) (d_by D)
  + dot (dhnext (g_loop g)) (start_tangent s D).

(** The [i]-th unit vector of length [n], and the matrix unit. *)
Definition vunit (n i : nat) : Vector :=
  map (fun k => if (k =? i)%nat then 1 else 0) (seq 0 n).

Definition munit (r c i j : nat) : Matrix :=
  mkMatrix r
    (map (fun k => if (k =? j)%nat then vunit r i else vzero r) (seq 0 c)).

(** The directions that move one entry of one tensor. *)
Definition still (s : RNN) : directions :=
  mkDirections
    (mzero (hidden_size_ s) (GetInputSize s))
    (mzero (hidden_size_ s) (hidden_size_ s))
    (mzero (output_size_ s) (hidden_size_ s))
    (vzero (hidden_size_ s)) (vzero (output_size_ s))
    (vzero (hidden_size_ s)).

Definition along_Wxh (s : RNN) (i j : nat) : directions :=
  mkDirections (munit (hidden_size_ s) (GetInputSize s) i j)
    (d_Whh (still s)) (d_Why (still s)) (d_bh (still s)) (d_by (still s))
    (d_h0 (still s)).

Definition along_Whh (s : RNN) (i j : nat) : directions :=
  mkDirections (d_Wxh (still s))
    (munit (hidden_size_ s) (hidden_size_ s) i j)
    (d_Why (still s)) (d_bh (still s)) (d_by (still s)) (d_h0 (still s)).

Definition along_Why (s : RNN) (i j : nat) : directions :=
  mkDirections (d_Wxh (still s)) (d_Whh (still s))
    (munit (output_size_ s) (hidden_size_ s) i j)
    (d_bh (still s)) (d_by (still s)) (d_h0 (still s)).

Definition along_bh (s : RNN) (i : nat) : directions :=
  mkDirections (d_Wxh (still s)) (d_Whh (still s)) (d_Why (still s))
    (vunit (hidden_size_ s) i) (d_by (still s)) (d_h0 (still s)).

Definition along_by (s : RNN) (i : nat) : directions :=
  mkDirections (d_Wxh (still s)) (d_Whh (still s)) (d_Why (still s))
    (d_bh (still s)) (vunit (output_size_ s) i) (d_h0 (still s)).

Definition along_h0 (s : RNN) (i : nat) : directions :=
  mkDirections (d_Wxh (still s)) (d_Whh (still s)) (d_Why (still s))
    (d_bh (still s)) (d_by (still s)) (vunit (hidden_size_ s) i).

(** The loss of a sequence as a function of the offset [theta] added to
    the entry that the direction selects. *)
Definition loss_along (act : R -> R) (s : RNN) (D : directions)
  (input_sequence : list Input) (label : Z) (theta : R) : R :=
  loss_value (loss (elementwise act) (perturb s D theta)
                input_sequence label).

(** ** Construction *)

(** [LookupLayer(dictionary, embedding_dimension)]: the constructor stores
    its two arguments; the table [E_] stays as Eigen default-constructs a
    dynamic matrix, without any entry. *)
Definition new_LookupLayer (dictionary : Dictionary)
  (embedding_dimension : nat) : LookupLayer :=
  mkLookupLayer embedding_dimension dictionary (mkMatrix 0 []).

(** [RNN(dictionary, embedding_dimension, hidden_size, output_size)]: the
    logistic activation, a fresh lookup layer, the two sizes, and the
    learned initial state switched on; every tensor is left empty. *)
Definition new_RNN (LOGISTIC : Z) (dictionary : Dictionary)
  (embedding_dimension hidden_size output_size : nat) : RNN :=
  mkRNN LOGISTIC (new_LookupLayer dictionary embedding_dimension)
    hidden_size output_size true
    (mkMatrix 0 []) (mkMatrix 0 []) (mkMatrix 0 [])
    [] [] []
    (mkMatrix 0 []) (mkMatrix 0 []) [] [].

(** ** Training

    [Train] and [TrainEpoch] print their figures on the standard output;
    the lines are returned here, in the order they are printed.  The wall
    clock time that closes an epoch's line is not part of the model, and
    neither is the accuracy of an empty set, which the program computes
    as [0.0 / 0]: the accuracies are read for non-empty sets only. *)

Record epoch_line : Type := mkEpochLine {
  line_epoch : Z;
  line_total_loss : R;
  line_accuracy : R;
  line_accuracy_dev : R;
  line_accuracy_test : R
}.

Inductive output_line : Type :=
| InitialAccuracyDev (accuracy_dev : R)
| Epoch (l : epoch_line).

Section Trainer.

Variable EvaluateActivation : Z -> Vector -> Vector.
Variable DerivateActivation : Z -> Vector -> Vector.

(** [output_labels[i]], read like the tensor accesses: a position past
    the end of the vector stops the run. *)
Definition label_at (output_labels : list Z) (i : nat) : result Z :=
  match nth_error output_labels i with
  | Some l => Done l
  | None => Abort IndexOutOfRange
  end.

(** The loop that scores a held-out set, from sentence [i] on: [Run] on
    the sentence, then one more correct answer when the label agrees. *)
Fixpoint evaluate_loop (rest : list (list Input)) (output_labels : list Z)
  (i : nat) (s : RNN) (accuracy : R) : result (RNN * R) :=
  match rest with
  | [] => Done (s, accuracy)
  | input_sequence :: rest' =>
      sp <- Run EvaluateActivation s input_sequence ;;
      l <- label_at output_labels i ;;
      let accuracy :=
        if (l =? snd sp)%Z then accuracy + 1 else accuracy in
      evaluate_loop rest' output_labels (S i) (fst sp) accuracy
  end.

(** [accuracy = 0.0; for (...) {...}; accuracy /= num_sentences], the
    block that [Train] runs on the development set and [TrainEpoch] on
    the development and test sets. *)
Definition evaluate (s : RNN) (input_sequences : list (list Input))
  (output_labels : list Z) : result (RNN * R) :=
  let num_sentences := length input_sequences in
  sa <- evaluate_loop input_sequences output_labels 0 s 0 ;;
  Done (fst sa, snd sa / INR num_sentences).

(** The loop of [TrainEpoch] over the training set, from sentence [i]
    on: forward pass, loss and prediction of the sentence, backward
    pass. *)
Fixpoint train_loop (rest : list (list Input)) (output_labels : list Z)
  (i : nat) (learning_rate : R) (s : RNN) (total_loss accuracy : R)
  : result (RNN * (R * R)) :=
  match rest with
  | [] => Done (s, (total_loss, accuracy))
  | input_sequence :: rest' =>
      s1 <- RunForwardPass EvaluateActivation s input_sequence ;;
      l <- label_at output_labels i ;;
      pl <- vget (p_ s1) l ;;
      let loss_i := - ln pl in
      prediction <- maxCoeff (p_ s1) ;;
      let accuracy :=
        if (prediction =? l)%Z then accuracy + 1 else accuracy in
      let total_loss := total_loss + loss_i in
      s2 <- RunBackwardPass DerivateActivation s1 input_sequence l
              learning_rate ;;
      train_loop rest' output_labels (S i) learning_rate s2
        total_loss accuracy
  end.

Definition TrainEpoch (input_sequences : list (list Input))
  (output_labels : list Z)
  (input_sequences_dev : list (list Input)) (output_labels_dev : list Z)
  (input_sequences_test : list (list Input)) (output_labels_test : list Z)
  (epoch : Z) (learning_rate : R) (s : RNN) : result (RNN * epoch_line) :=
  let num_sentences := length input_sequences in
  st <- train_loop input_sequences output_labels 0 learning_rate s 0 0 ;;
  let total_loss := fst (snd st) in
  let accuracy := snd (snd st) / INR num_sentences in
  sd <- evaluate (fst st) input_sequences_dev output_labels_dev ;;
  se <- evaluate (fst sd) input_sequences_test output_labels_test ;;
  Done (fst se,
        mkEpochLine (epoch + 1) total_loss accuracy (snd sd) (snd se)).

(** [for (epoch = 0; epoch < num_epochs; ++epoch) TrainEpoch(...)], with
    [n] epochs to go. *)
Fixpoint epochs_loop (input_sequences : list (list Input))
  (output_labels : list Z)
  (input_sequences_dev : list (list Input)) (output_labels_dev : list Z)
  (input_sequences_test : list (list Input)) (output_labels_test : list Z)
  (learning_rate : R) (n : nat) (epoch : Z) (s : RNN)
  (printed : list output_line) : result (RNN * list output_line) :=
  match n with
  | O => Done (s, printed)
  | S n' =>
      sl <- TrainEpoch input_sequences output_labels
              input_sequences_dev output_labels_dev
              input_sequences_test output_labels_test
              epoch learning_rate s ;;
      epochs_loop input_sequences output_labels
        input_sequences_dev output_labels_dev
        input_sequences_test output_labels_test
        learning_rate n' (epoch + 1)%Z (fst sl)
        (printed ++ [Epoch (snd sl)])
  end.

Definition Train (input_sequences : list (list Input))
  (output_labels : list Z)
  (input_sequences_dev : list (list Input)) (output_labels_dev : list Z)
  (input_sequences_test : list (list Input)) (output_labels_test : list Z)
  (num_epochs : Z) (learning_rate : R) (s : RNN)
  : result (RNN * list output_line) :=
  sa <- evaluate s input_sequences_dev output_labels_dev ;;
  epochs_loop input_sequences output_labels
    input_sequences_dev output_labels_dev
    input_sequences_test output_labels_test
    learning_rate (Z.to_nat num_epochs) 0%Z (fst sa)
    [InitialAccuracyDev (snd sa)].

End Trainer.

(** ** What a run leaves of a cell *)

(** The seven parameter tensors, the embedding table inside its layer. *)
Definition parameters (s : RNN)
  : LookupLayer * (Matrix * Matrix * Matrix) * (Vector * Vector * Vector) :=
  (lookup_layer_ s, (Wxh_ s, Whh_ s, Why_ s), (bh_ s, by_ s, h0_ s)).

(** What the constructor fixes: the activation, the sizes, the
    dictionary and the switch for the learned initial state. *)
Definition configuration (s : RNN)
  : Z * (nat * Dictionary) * (nat * nat) * bool :=
  (activation_function_ s,
   (embedding_dimension_ (lookup_layer_ s), dictionary_ (lookup_layer_ s)),
   (hidden_size_ s, output_size_ s), use_hidden_start_ s).

(** A data set that the loops can run through: a label for every
    sentence, and every sentence non-empty, with ids of the dictionary. *)
Definition scorable (s : RNN) (input_sequences : list (list Input))
  (output_labels : list Z) : Prop :=
  (length input_sequences <= length output_labels)%nat /\
  Forall (fun input_sequence =>
            input_sequence <> [] /\
            valid_ids (lookup_layer_ s) input_sequence)
         input_sequences.

(** A training set: scorable, with the labels of the sentences among the
    classes. *)
Definition trainable (s : RNN) (input_sequences : list (list Input))
  (output_labels : list Z) : Prop :=
  scorable s input_sequences output_labels /\
  Forall (fun l => (0 <= l < Z.of_nat (output_size_ s))%Z)
         (firstn (length input_sequences) output_labels).

(** The cell as the forward pass leaves it on a sequence of ids of the
    table. *)
Definition forward_trace (EvaluateActivation : Z -> Vector -> Vector)
  (s : RNN) (input_sequence : list Input) : RNN :=
  let X := embedded s input_sequence in
  let T := length input_sequence in
  let y := logits_spec EvaluateActivation s X T in
  set_trace s X (hidden_matrix_spec EvaluateActivation s X T) y
    (probabilities_spec y).

(** What a printed line says of the training set: nothing for the
    initial line, and the epoch, total loss and training accuracy of an
    epoch's line. *)
Definition training_figures (l : output_line) : option (Z * R * R) :=
  match l with
  | InitialAccuracyDev _ => None
  | Epoch e => Some (line_epoch e, line_total_loss e, line_accuracy e)
  end.

(** The generator after [k] calls of [rand()], and the number that the
    call after these returns. *)
Fixpoint generator_after {rand_state : Type}
  (rand : rand_state -> Z * rand_state) (g : rand_state) (k : nat)
  : rand_state :=
  match k with
  | O => g
  | S k' => generator_after rand (snd (rand g)) k'
  end.

Definition draw_number {rand_state : Type}
  (rand : rand_state -> Z * rand_state) (g : rand_state) (k : nat) : Z :=
  fst (rand (generator_after rand g k)).

(** ** The embedding update in double precision *)

(** [LookupLayer::RunBackwardLookupLayer] once more, over IEEE 754
    binary64 numbers (the code's [double]; every operation rounds to the
    nearest number, ties to even), with the same checked accesses. *)
Module Double.

Definition Vector : Type := list float.

Definition vzero (n : nat) : Vector := repeat 0%float n.

Fixpoint vzip (f : float -> float -> float) (a b : Vector) : Vector :=
  match a, b with
  | x :: a', y :: b' => f x y :: vzip f a' b'
  | _, _ => []
  end.

Definition vadd : Vector -> Vector -> Vector := vzip PrimFloat.add.
Definition vsub : Vector -> Vector -> Vector := vzip PrimFloat.sub.
Definition vscale (c : float) (v : Vector) : Vector :=
  map (PrimFloat.mul c) v.

(** The sum of a list of [n]-vectors. *)
Definition vsum (n : nat) (l : list Vector) : Vector :=
  fold_right vadd (vzero n) l.

Record Matrix : Type := mkMatrix {
  mrows : nat;
  mdata : list Vector
}.

Definition mcols (M : Matrix) : nat := length (mdata M).

(** [M.col(t)] read for an [int] index. *)
Definition col (M : Matrix) (t : Z) : result Vector :=
  if ((0 <=? t)%Z && (t <? Z.of_nat (mcols M))%Z)%bool
  then Done (nth (Z.to_nat t) (mdata M) [])
  else Abort IndexOutOfRange.

(** [M.col(t) = v] *)
Definition set_col (M : Matrix) (t : Z) (v : Vector) : result Matrix :=
  if ((0 <=? t)%Z && (t <? Z.of_nat (mcols M))%Z)%bool
  then Done (mkMatrix (mrows M) (replace_nth (Z.to_nat t) (mdata M) v))
  else Abort IndexOutOfRange.

Record LookupLayer : Type := mkLookupLayer {
  embedding_dimension_ : nat;
  dictionary_ : Dictionary;
  E_ : Matrix
}.

(** [E_.col(w) -= v] *)
Definition col_sub_assign (E : Matrix) (w : Z) (v : Vector) : result Matrix :=
  c <- col E w ;;
  set_col E w (vsub c v).

(** The loop of [RunBackwardLookupLayer], from position [t] on. *)
Fixpoint backward_loop (rest : list Input) (t : Z) (dX : Matrix)
  (learning_rate : float) (E : Matrix) : result Matrix :=
  match rest with
  | [] => Done E
  | inp :: rest' =>
      let w := (1 + wid inp)%Z in
      d <- col dX t ;;
      E' <- col_sub_assign E w (vscale learning_rate d) ;;
      backward_loop rest' (t + 1)%Z dX learning_rate E'
  end.

Definition RunBackwardLookupLayer (L : LookupLayer)
  (input_sequence : list Input) (dX : Matrix) (learning_rate : float)
  : result LookupLayer :=
  E' <- backward_loop input_sequence 0%Z dX learning_rate (E_ L) ;;
  Done (mkLookupLayer (embedding_dimension_ L) (dictionary_ L) E').

(** One-dimensional embeddings for a vocabulary of one word, whose entry
    is [1e16]; between [2^53] and [2^54] the binary64 numbers are the
    even integers. *)
Definition table : LookupLayer :=
  mkLookupLayer 1 (mkDictionary 1)
    (mkMatrix 1 [[0%float]; [1e16%float]]).

(** The word, twice. *)
Definition sentence : list Input := [mkInput 0; mkInput 0].

(** One gradient column per token of [sentence]. *)
Definition dX : Matrix := mkMatrix 1 [[1%float]; [1%float]].

End Double.

(** * Properties *)

(** ** The outcome monad *)

Lemma bind_Done {A B : Type} (m : result A) (k : A -> result B) (b : B) :
  bind m k = Done b -> exists a, m = Done a /\ k a = Done b.
Proof.
  destruct m as [a|f]; simpl; intros H; [eauto | discriminate].
Qed.

Lemma assert_true (b : bool) : b = true -> assert b = Done tt.
Proof. intros ->; reflexivity. Qed.

Lemma assert_false (b : bool) : b = false -> assert b = Abort AssertionFailed.
Proof. intros ->; reflexivity. Qed.

(** ** Lists and indices *)

Lemma replace_nth_length {A : Type} (n : nat) (l : list A) (a : A) :
  length (replace_nth n l a) = length l.
Proof.
  revert n; induction l as [|x l IH]; intros [|n]; simpl; auto.
Qed.

Lemma nth_replace_nth_same {A : Type} (n : nat) (l : list A) (a d : A) :
  (n < length l)%nat -> nth n (replace_nth n l a) d = a.
Proof.
  revert n; induction l as [|x l IH]; intros [|n]; simpl; intros H;
    try lia; auto.
  apply IH; lia.
Qed.

Lemma nth_replace_nth_other {A : Type} (n m : nat) (l : list A) (a d : A) :
  n <> m -> nth m (replace_nth n l a) d = nth m l d.
Proof.
  revert n m; induction l as [|x l IH]; intros [|n] [|m]; simpl; intros H;
    try congruence; auto.
Qed.

Lemma replace_nth_app_head {A : Type} (pre : list A) (x : A) (post : list A)
  (a : A) :
  replace_nth (length pre) (pre ++ x :: post) a = pre ++ a :: post.
Proof.
  induction pre as [|y pre IH]; simpl; [reflexivity | now rewrite IH].
Qed.

Lemma Forall_replace_nth {A : Type} (P : A -> Prop) (n : nat) (l : list A)
  (a : A) :
  Forall P l -> P a -> Forall P (replace_nth n l a).
Proof.
  intros Hl Ha; revert n; induction Hl as [|x l Hx Hl IH]; intros [|n];
    simpl; auto.
Qed.

Lemma in_range_true (t : Z) (n : nat) :
  (0 <= t < Z.of_nat n)%Z ->
  ((0 <=? t)%Z && (t <? Z.of_nat n)%Z)%bool = true.
Proof.
  intros [H1 H2]; apply andb_true_intro; split;
    [apply Z.leb_le | apply Z.ltb_lt]; assumption.
Qed.

Lemma in_range_false (t : Z) (n : nat) :
  ~ (0 <= t < Z.of_nat n)%Z ->
  ((0 <=? t)%Z && (t <? Z.of_nat n)%Z)%bool = false.
Proof.
  intros H; apply andb_false_iff.
  destruct (Z.leb_spec 0 t); [right | left; reflexivity].
  apply Z.ltb_ge; lia.
Qed.

Lemma col_in_range (M : Matrix) (t : nat) :
  (t < mcols M)%nat -> col M (Z.of_nat t) = Done (nth t (mdata M) []).
Proof.
  intros H; unfold col; rewrite in_range_true by lia.
  now rewrite Nat2Z.id.
Qed.

Lemma col_Z_in_range (M : Matrix) (t : Z) :
  (0 <= t < Z.of_nat (mcols M))%Z ->
  col M t = Done (nth (Z.to_nat t) (mdata M) []).
Proof. intros H; unfold col; now rewrite in_range_true. Qed.

Lemma col_out_of_range (M : Matrix) (t : Z) :
  ~ (0 <= t < Z.of_nat (mcols M))%Z -> col M t = Abort IndexOutOfRange.
Proof. intros H; unfold col; now rewrite in_range_false. Qed.

Lemma set_col_in_range (M : Matrix) (t : nat) (v : Vector) :
  (t < mcols M)%nat ->
  set_col M (Z.of_nat t) v
  = Done (mkMatrix (mrows M) (replace_nth t (mdata M) v)).
Proof.
  intros H; unfold set_col; rewrite in_range_true by lia.
  now rewrite Nat2Z.id.
Qed.

Lemma mcols_mzero (r c : nat) : mcols (mzero r c) = c.
Proof. unfold mcols, mzero; simpl; apply repeat_length. Qed.

Lemma mshape_mzero (r c : nat) : mshape r c (mzero r c).
Proof.
  repeat split; [apply mcols_mzero |].
  apply Forall_forall; intros v Hv; apply repeat_spec in Hv; subst v.
  apply repeat_length.
Qed.

(** ** The embedding lookup *)

Lemma lookup_forward_step (E : Matrix) (inp : Input) (rest : list Input)
  (r : nat) (pre : list Vector) (hole : Vector) (post : list Vector) :
  id_in_table E inp ->
  Lookup.forward_loop E (inp :: rest) (Z.of_nat (length pre))
    (mkMatrix r (pre ++ hole :: post))
  = Lookup.forward_loop E rest (Z.of_nat (length (pre ++ [looked_up E inp])))
      (mkMatrix r ((pre ++ [looked_up E inp]) ++ post)).
Proof.
  intros Hin; unfold id_in_table in Hin.
  cbn [Lookup.forward_loop].
  rewrite assert_true by (apply in_range_true; exact Hin).
  cbn [bind].
  rewrite col_Z_in_range by exact Hin.
  cbn [bind].
  rewrite set_col_in_range
    by (unfold mcols; cbn [mdata]; rewrite length_app; simpl; lia).
  cbn [bind mrows mdata].
  rewrite replace_nth_app_head.
  rewrite length_app; cbn [length].
  replace (Z.of_nat (length pre) + 1)%Z with (Z.of_nat (length pre + 1))
    by lia.
  now rewrite <- app_assoc.
Qed.

Lemma lookup_forward_loop_done (E : Matrix) (rest : list Input) :
  forall (r : nat) (pre holes post : list Vector),
    Forall (id_in_table E) rest ->
    length holes = length rest ->
    Lookup.forward_loop E rest (Z.of_nat (length pre))
      (mkMatrix r (pre ++ holes ++ post))
    = Done (mkMatrix r (pre ++ map (looked_up E) rest ++ post)).
Proof.
  induction rest as [|inp rest IH]; intros r pre holes post Hv Hlen.
  - destruct holes; [reflexivity | discriminate].
  - destruct holes as [|hole holes]; [discriminate |].
    inversion Hv as [|? ? Hin Hv']; subst.
    cbn [app].
    rewrite lookup_forward_step by exact Hin.
    rewrite IH by (auto; simpl in Hlen; lia).
    now rewrite <- app_assoc.
Qed.

Lemma lookup_forward_loop_abort (E : Matrix) (rest : list Input) :
  forall (r : nat) (pre holes post : list Vector),
    Exists (fun inp => ~ id_in_table E inp) rest ->
    length holes = length rest ->
    Lookup.forward_loop E rest (Z.of_nat (length pre))
      (mkMatrix r (pre ++ holes ++ post))
    = Abort AssertionFailed.
Proof.
  induction rest as [|inp rest IH]; intros r pre holes post Hex Hlen.
  - inversion Hex.
  - destruct holes as [|hole holes]; [discriminate |].
    destruct (Z_le_dec 0 (1 + wid inp)) as [Hlo|Hlo];
      [destruct (Z_lt_dec (1 + wid inp) (Z.of_nat (mcols E))) as [Hhi|Hhi] |].
    + assert (Hin : id_in_table E inp) by (split; assumption).
      cbn [app].
      rewrite lookup_forward_step by exact Hin.
      apply IH; [| simpl in Hlen; lia].
      inversion Hex; subst; [contradiction | assumption].
    + cbn [Lookup.forward_loop].
      rewrite assert_false; [reflexivity |].
      apply in_range_false; lia.
    + cbn [Lookup.forward_loop].
      rewrite assert_false; [reflexivity |].
      apply in_range_false; lia.
Qed.

Lemma valid_ids_in_table (L : LookupLayer) (input_sequence : list Input) :
  mcols (E_ L) = (GetNumWords (dictionary_ L) + 1)%nat ->
  valid_ids L input_sequence ->
  Forall (id_in_table (E_ L)) input_sequence.
Proof.
  intros Hc Hv; eapply Forall_impl; [| exact Hv].
  intros inp H; unfold id_in_table; rewrite Hc; cbv beta in H; lia.
Qed.

Lemma lookup_forward_done (L : LookupLayer) (input_sequence : list Input) :
  Forall (id_in_table (E_ L)) input_sequence ->
  Lookup.RunForwardLookupLayer L input_sequence
  = Done (mkMatrix (embedding_dimension_ L)
            (map (looked_up (E_ L)) input_sequence)).
Proof.
  intros Hv; unfold Lookup.RunForwardLookupLayer, mzero.
  pose proof (lookup_forward_loop_done (embedding_dimension_ L) []
                (repeat (vzero (embedding_dimension_ L))
                        (length input_sequence)) [] Hv) as H.
  cbn [length app] in H; rewrite !app_nil_r in H.
  apply H, repeat_length.
Qed.

Lemma lookup_forward_abort (L : LookupLayer) (input_sequence : list Input) :
  Exists (fun inp => ~ id_in_table (E_ L) inp) input_sequence ->
  Lookup.RunForwardLookupLayer L input_sequence = Abort AssertionFailed.
Proof.
  intros Hex; unfold Lookup.RunForwardLookupLayer, mzero.
  pose proof (lookup_forward_loop_abort (embedding_dimension_ L) []
                (repeat (vzero (embedding_dimension_ L))
                        (length input_sequence)) [] Hex) as H.
  cbn [length app] in H; rewrite !app_nil_r in H.
  apply H, repeat_length.
Qed.

(** A completed lookup passed its assertion at every position. *)
Lemma lookup_forward_inv (L : LookupLayer) (input_sequence : list Input)
  (X : Matrix) :
  Lookup.RunForwardLookupLayer L input_sequence = Done X ->
  Forall (id_in_table (E_ L)) input_sequence.
Proof.
  intros HX.
  assert (Hdec : forall inp, {id_in_table (E_ L) inp}
                             + {~ id_in_table (E_ L) inp}).
  { intros inp; unfold id_in_table.
    destruct (Z_le_dec 0 (1 + wid inp));
      [destruct (Z_lt_dec (1 + wid inp) (Z.of_nat (mcols (E_ L)))) |];
      [left; split; assumption | right; lia | right; lia]. }
  destruct (Forall_Exists_dec _ Hdec input_sequence) as [Hall|Hex];
    [exact Hall |].
  rewrite (lookup_forward_abort L Hex) in HX; discriminate.
Qed.

(** C5.  On a table of [V + 1] columns and a sequence whose ids all lie in
    [0, V), the lookup completes (its assertion never fires), returns one
    column per token, and column [t] is the table's column [id_t + 1]; and
    there is a sequence with an id outside [0, V) on which the assertion
    fires. *)
Theorem lookup_forward_spec (L : LookupLayer) (input_sequence : list Input) :
  lookup_shaped L ->
  valid_ids L input_sequence ->
  (exists X,
      Lookup.RunForwardLookupLayer L input_sequence = Done X /\
      Lookup.RunForwardLookupLayer L input_sequence <> Abort AssertionFailed /\
      mrows X = embedding_dimension_ L /\
      mcols X = length input_sequence /\
      forall t inp,
        nth_error input_sequence t = Some inp ->
        col X (Z.of_nat t) = col (E_ L) (wid inp + 1)%Z /\
        col X (Z.of_nat t)
        = Done (nth (Z.to_nat (wid inp + 1)) (mdata (E_ L)) [])) /\
  (exists bad,
      Exists (fun inp =>
                ~ (0 <= wid inp < Z.of_nat (GetNumWords (dictionary_ L)))%Z)
             bad /\
      Lookup.RunForwardLookupLayer L bad = Abort AssertionFailed).
Proof.
  intros (Hr & Hc & Hall) Hv.
  pose proof (valid_ids_in_table Hc Hv) as Hin.
  split.
  - exists (mkMatrix (embedding_dimension_ L)
              (map (looked_up (E_ L)) input_sequence)).
    rewrite (lookup_forward_done L Hin).
    split; [reflexivity |].
    split; [discriminate |].
    split; [reflexivity |].
    split; [unfold mcols; cbn [mdata]; apply length_map |].
    intros t inp Ht.
    assert (Hlt : (t < length input_sequence)%nat)
      by (apply nth_error_Some; congruence).
    assert (Hcol : col (mkMatrix (embedding_dimension_ L)
                          (map (looked_up (E_ L)) input_sequence))
                       (Z.of_nat t)
                   = Done (nth (Z.to_nat (wid inp + 1)) (mdata (E_ L)) [])).
    { rewrite col_in_range
        by (unfold mcols; cbn [mdata]; rewrite length_map; exact Hlt).
      cbn [mdata].
      rewrite (nth_indep _ [] (looked_up (E_ L) inp))
        by (rewrite length_map; exact Hlt).
      rewrite map_nth.
      rewrite (nth_error_nth _ _ _ Ht).
      unfold looked_up; now rewrite Z.add_comm. }
    split; [| exact Hcol].
    rewrite Hcol; symmetry; apply col_Z_in_range.
    rewrite Forall_forall in Hin.
    specialize (Hin inp (nth_error_In _ _ Ht)); unfold id_in_table in Hin.
    lia.
  - exists [mkInput (Z.of_nat (GetNumWords (dictionary_ L)))].
    split.
    + constructor; cbn [wid]; lia.
    + apply lookup_forward_abort; constructor.
      unfold id_in_table; cbn [wid]; rewrite Hc; lia.
Qed.

Lemma lookup_forward_spec_witness :
  lookup_shaped Example.table /\
  valid_ids Example.table Example.sentence /\
  exists X,
    Lookup.RunForwardLookupLayer Example.table Example.sentence = Done X /\
    mcols X = 3%nat.
Proof.
  assert (Hs : lookup_shaped Example.table)
    by (repeat split; repeat constructor).
  assert (Hv : valid_ids Example.table Example.sentence)
    by (repeat constructor; simpl; lia).
  split; [exact Hs |]; split; [exact Hv |].
  destruct (lookup_forward_spec Hs Hv) as [(X & HX & _ & _ & Hc & _) _].
  exists X; split; [exact HX | exact Hc].
Defined.

(** ** Vector algebra *)

Lemma vzip_length (f : R -> R -> R) (a b : Vector) :
  length (vzip f a b) = Nat.min (length a) (length b).
Proof.
  revert b; induction a as [|x a IH]; intros [|y b]; simpl; auto.
Qed.

Lemma vscale_length (c : R) (v : Vector) : length (vscale c v) = length v.
Proof. apply length_map. Qed.

Lemma vzero_length (n : nat) : length (vzero n) = n.
Proof. apply repeat_length. Qed.

Lemma vsub_vscale_vadd (r : R) (a b c : Vector) :
  vsub (vsub a (vscale r b)) (vscale r c) = vsub a (vscale r (vadd b c)).
Proof.
  revert b c; induction a as [|x a IH]; intros [|y b] [|z c]; simpl; auto.
  unfold vsub, vadd, vscale in *; simpl; rewrite IH; f_equal; ring.
Qed.

Lemma vsub_vscale_vzero (r : R) (a : Vector) (n : nat) :
  (length a <= n)%nat -> vsub a (vscale r (vzero n)) = a.
Proof.
  revert n; induction a as [|x a IH]; intros [|n] H; simpl in *;
    try reflexivity; try lia.
  unfold vsub, vscale, vzero in *; simpl; rewrite IH by lia; f_equal; ring.
Qed.

Lemma vadd_vzero_l (n : nat) (a : Vector) :
  length a = n -> vadd (vzero n) a = a.
Proof.
  revert n; induction a as [|x a IH]; intros [|n] H; simpl in *;
    try reflexivity; try discriminate.
  unfold vadd, vzero in *; simpl; rewrite IH by lia; f_equal; ring.
Qed.

Lemma vsum_length (n : nat) (l : list Vector) :
  Forall (fun v => length v = n) l -> length (vsum n l) = n.
Proof.
  unfold vsum; induction 1 as [|v l Hv Hl IH]; cbn [fold_right].
  - apply vzero_length.
  - unfold vadd at 1; rewrite vzip_length, Hv, IH; apply Nat.min_id.
Qed.

(** Subtracting the scaled vectors one after the other, or their sum at
    once. *)
Lemma sequential_subtractions_sum (r : R) (n : nat) (ds : list Vector) :
  forall a : Vector,
    length a = n ->
    Forall (fun d => length d = n) ds ->
    fold_left (fun acc d => vsub acc (vscale r d)) ds a
    = vsub a (vscale r (vsum n ds)).
Proof.
  induction ds as [|d ds IH]; intros a Ha Hds; simpl.
  - symmetry; apply vsub_vscale_vzero; lia.
  - inversion Hds as [|? ? Hd Hds']; subst.
    rewrite IH; [| | exact Hds'].
    + apply vsub_vscale_vadd.
    + unfold vsub; rewrite vzip_length, vscale_length, Hd; apply Nat.min_id.
Qed.

(** ** The embedding update *)

Lemma bind_assoc {A B C : Type} (m : result A) (k : A -> result B)
  (k' : B -> result C) :
  bind (bind m k) k' = bind m (fun a => bind (k a) k').
Proof. destruct m; reflexivity. Qed.

Lemma positions_of_ge (c : Z) (rest : list Input) (t : nat) :
  Forall (fun k => (t <= k < t + length rest)%nat) (positions_of c rest t).
Proof.
  revert t; induction rest as [|inp rest IH]; intros t;
    cbn [positions_of length]; [constructor |].
  assert (Hrest : Forall (fun k => (t <= k < t + S (length rest))%nat)
                    (positions_of c rest (S t))).
  { eapply Forall_impl; [| apply IH]; cbv beta; intros; lia. }
  destruct (1 + wid inp =? c)%Z; [constructor; [lia | exact Hrest] |
                                   exact Hrest].
Qed.

(** One pass of the update loop over a token whose column exists. *)
Lemma lookup_backward_step (inp : Input) (rest : list Input) (t : nat)
  (dX : Matrix) (learning_rate : R) (E : Matrix) :
  id_in_table E inp ->
  (t < mcols dX)%nat ->
  Lookup.backward_loop (inp :: rest) (Z.of_nat t) dX learning_rate E
  = Lookup.backward_loop rest (Z.of_nat (S t)) dX learning_rate
      (mkMatrix (mrows E)
         (replace_nth (Z.to_nat (1 + wid inp)) (mdata E)
            (vsub (looked_up E inp)
               (vscale learning_rate (nth t (mdata dX) []))))).
Proof.
  intros Hin Ht; unfold id_in_table in Hin.
  cbn [Lookup.backward_loop].
  rewrite col_in_range by exact Ht; cbn [bind].
  unfold Lookup.col_sub_assign.
  rewrite col_Z_in_range by exact Hin; cbn [bind].
  unfold set_col; rewrite in_range_true by exact Hin; cbn [bind].
  replace (Z.of_nat t + 1)%Z with (Z.of_nat (S t)) by lia.
  reflexivity.
Qed.

(** The update loop completes, and each column ends as its occurrences,
    taken in order, leave it. *)
Lemma lookup_backward_loop_done (dX : Matrix) (learning_rate : R)
  (rest : list Input) :
  forall (t : nat) (E : Matrix),
    Forall (id_in_table E) rest ->
    (t + length rest <= mcols dX)%nat ->
    exists E',
      Lookup.backward_loop rest (Z.of_nat t) dX learning_rate E = Done E' /\
      mrows E' = mrows E /\
      mcols E' = mcols E /\
      forall c : nat,
        nth c (mdata E') []
        = fold_left (fun acc d => vsub acc (vscale learning_rate d))
            (map (fun k => nth k (mdata dX) [])
                 (positions_of (Z.of_nat c) rest t))
            (nth c (mdata E) []).
Proof.
  induction rest as [|inp rest IH]; intros t E Hv Hlen.
  - exists E; repeat split; reflexivity.
  - inversion Hv as [|? ? Hin Hv']; subst.
    simpl in Hlen.
    rewrite lookup_backward_step by (auto; lia).
    set (E1 := mkMatrix (mrows E) _).
    assert (Hc1 : mcols E1 = mcols E)
      by (unfold mcols, E1; cbn [mdata]; apply replace_nth_length).
    destruct (IH (S t) E1) as (E' & HE' & Hr & Hc & Hcols).
    { eapply Forall_impl; [| exact Hv'].
      intros a Ha; unfold id_in_table in *; rewrite Hc1; exact Ha. }
    { lia. }
    exists E'; split; [exact HE' |].
    split; [rewrite Hr; reflexivity |].
    split; [rewrite Hc; exact Hc1 |].
    intros c; rewrite Hcols; cbn [positions_of].
    unfold id_in_table in Hin.
    destruct (Z.eqb_spec (1 + wid inp) (Z.of_nat c)) as [Heq|Hne].
    + cbn [map fold_left]; f_equal.
      unfold E1; cbn [mdata]; rewrite Heq, Nat2Z.id.
      rewrite nth_replace_nth_same by (fold (mcols E); lia).
      unfold looked_up; now rewrite Heq, Nat2Z.id.
    + f_equal; unfold E1; cbn [mdata].
      apply nth_replace_nth_other; lia.
Qed.

(** The update of a sequence extended by one token is the update of the
    sequence followed by the assignment for that token. *)
Lemma lookup_backward_loop_snoc (dX : Matrix) (learning_rate : R)
  (inp : Input) (rest : list Input) :
  forall (t : nat) (E : Matrix),
    Lookup.backward_loop (rest ++ [inp]) (Z.of_nat t) dX learning_rate E
    = (E1 <- Lookup.backward_loop rest (Z.of_nat t) dX learning_rate E ;;
       d <- col dX (Z.of_nat (t + length rest)) ;;
       Lookup.col_sub_assign E1 (1 + wid inp)%Z (vscale learning_rate d)).
Proof.
  induction rest as [|a rest IH]; intros t E.
  - cbn [app length Lookup.backward_loop bind]; rewrite Nat.add_0_r.
    destruct (col dX (Z.of_nat t)) as [d|f]; cbn [bind]; [| reflexivity].
    destruct (Lookup.col_sub_assign E (1 + wid inp) (vscale learning_rate d));
      reflexivity.
  - cbn [app length Lookup.backward_loop].
    destruct (col dX (Z.of_nat t)) as [d|f]; cbn [bind]; [| reflexivity].
    destruct (Lookup.col_sub_assign E (1 + wid a) (vscale learning_rate d))
      as [E1|f]; cbn [bind]; [| reflexivity].
    replace (Z.of_nat t + 1)%Z with (Z.of_nat (S t)) by lia.
    rewrite IH; now replace (S t + length rest)%nat
      with (t + S (length rest))%nat by lia.
Qed.

Lemma mshape_nth (r c : nat) (M : Matrix) (k : nat) :
  mshape r c M -> (k < c)%nat -> length (nth k (mdata M) []) = r.
Proof.
  intros (_ & Hc & Hall) Hk.
  rewrite Forall_forall in Hall; apply Hall, nth_In.
  unfold mcols in Hc; lia.
Qed.

(** C6.  The embedding update completes on in-range ids and a gradient
    matrix of one column per token; it is the update of the sequence
    without its last token followed by the assignment
    [E[:, id+1] -= rate * dX[:, t]] for that token; every column ends as
    the subtractions of its occurrences, applied one after the other in
    sequence order, leave it. *)
Theorem lookup_backward_spec (L : LookupLayer) (input_sequence : list Input)
  (dX : Matrix) (learning_rate : R) :
  lookup_shaped L ->
  valid_ids L input_sequence ->
  mshape (embedding_dimension_ L) (length input_sequence) dX ->
  (exists L',
      Lookup.RunBackwardLookupLayer L input_sequence dX learning_rate
      = Done L' /\
      embedding_dimension_ L' = embedding_dimension_ L /\
      dictionary_ L' = dictionary_ L /\
      mrows (E_ L') = mrows (E_ L) /\
      mcols (E_ L') = mcols (E_ L) /\
      forall c : nat,
        let occurrences :=
          map (fun k => nth k (mdata dX) [])
              (positions_of (Z.of_nat c) input_sequence 0) in
        nth c (mdata (E_ L')) []
        = fold_left (fun acc d => vsub acc (vscale learning_rate d))
            occurrences (nth c (mdata (E_ L)) [])) /\
  (forall pre inp,
      input_sequence = pre ++ [inp] ->
      Lookup.RunBackwardLookupLayer L input_sequence dX learning_rate
      = (L1 <- Lookup.RunBackwardLookupLayer L pre dX learning_rate ;;
         d <- col dX (Z.of_nat (length pre)) ;;
         E' <- Lookup.col_sub_assign (E_ L1) (1 + wid inp)%Z
                 (vscale learning_rate d) ;;
         Done (mkLookupLayer (embedding_dimension_ L) (dictionary_ L) E'))).
Proof.
  intros HL Hv HdX.
  pose proof HL as (Hr & Hc & Hall).
  pose proof HdX as (_ & HcX & _).
  pose proof (valid_ids_in_table Hc Hv) as Hin.
  split.
  - destruct (@lookup_backward_loop_done dX learning_rate input_sequence
                0 (E_ L) Hin) as (E' & HE' & Hr' & Hc' & Hcols);
      [lia |].
    exists (mkLookupLayer (embedding_dimension_ L) (dictionary_ L) E').
    unfold Lookup.RunBackwardLookupLayer.
    change 0%Z with (Z.of_nat 0); rewrite HE'; cbn [bind].
    repeat (split; [first [reflexivity | assumption] |]).
    intros c; cbn [E_]; apply Hcols.
  - intros pre inp ->.
    unfold Lookup.RunBackwardLookupLayer.
    change 0%Z with (Z.of_nat 0).
    rewrite lookup_backward_loop_snoc.
    change (0 + length pre)%nat with (length pre).
    destruct (Lookup.backward_loop pre (Z.of_nat 0) dX learning_rate (E_ L))
      as [E1|f]; cbn [bind E_]; [| reflexivity].
    destruct (col dX (Z.of_nat (length pre))) as [d|f]; reflexivity.
Qed.

Lemma lookup_backward_spec_witness :
  lookup_shaped Example.table /\
  valid_ids Example.table Example.sentence /\
  mshape 2 3 Example.dX /\
  exists L',
    Lookup.RunBackwardLookupLayer Example.table Example.sentence
      Example.dX (1 / 2) = Done L' /\
    mcols (E_ L') = 3%nat.
Proof.
  assert (Hs : lookup_shaped Example.table)
    by (repeat split; repeat constructor).
  assert (Hv : valid_ids Example.table Example.sentence)
    by (repeat constructor; simpl; lia).
  assert (Hd : mshape (embedding_dimension_ Example.table)
                 (length Example.sentence) Example.dX)
    by (repeat split; repeat constructor).
  split; [exact Hs |]; split; [exact Hv |]; split; [exact Hd |].
  destruct (lookup_backward_spec (1 / 2) Hs Hv Hd)
    as [(L' & HL' & _ & _ & _ & Hc & _) _].
  exists L'; split; [exact HL' | exact Hc].
Defined.

(** The sequential form does not depend on the arithmetic.  One pass of
    the binary64 update loop over a token whose column exists: *)
Lemma double_backward_step (inp : Input) (rest : list Input) (t : nat)
  (dX : Double.Matrix) (learning_rate : float) (E : Double.Matrix) :
  (0 <= 1 + wid inp < Z.of_nat (Double.mcols E))%Z ->
  (t < Double.mcols dX)%nat ->
  Double.backward_loop (inp :: rest) (Z.of_nat t) dX learning_rate E
  = Double.backward_loop rest (Z.of_nat (S t)) dX learning_rate
      (Double.mkMatrix (Double.mrows E)
         (replace_nth (Z.to_nat (1 + wid inp)) (Double.mdata E)
            (Double.vsub
               (nth (Z.to_nat (1 + wid inp)) (Double.mdata E) [])
               (Double.vscale learning_rate
                  (nth t (Double.mdata dX) []))))).
Proof.
  intros Hin Ht; cbn [Double.backward_loop].
  unfold Double.col_sub_assign, Double.col, Double.set_col.
  rewrite (@in_range_true (Z.of_nat t) (Double.mcols dX)) by lia.
  cbn [bind]; rewrite !in_range_true by exact Hin; cbn [bind].
  rewrite Nat2Z.id.
  replace (Z.of_nat t + 1)%Z with (Z.of_nat (S t)) by lia.
  reflexivity.
Qed.

(** The binary64 update loop completes, and each column ends as its
    occurrences, taken in order, leave it: the sequential form proved
    over the real numbers holds of the rounded operations too. *)
Lemma double_backward_loop_done (dX : Double.Matrix) (learning_rate : float)
  (rest : list Input) :
  forall (t : nat) (E : Double.Matrix),
    Forall (fun inp => (0 <= 1 + wid inp < Z.of_nat (Double.mcols E))%Z)
           rest ->
    (t + length rest <= Double.mcols dX)%nat ->
    exists E',
      Double.backward_loop rest (Z.of_nat t) dX learning_rate E = Done E' /\
      Double.mrows E' = Double.mrows E /\
      Double.mcols E' = Double.mcols E /\
      forall c : nat,
        nth c (Double.mdata E') []
        = fold_left
            (fun acc d => Double.vsub acc (Double.vscale learning_rate d))
            (map (fun k => nth k (Double.mdata dX) [])
                 (positions_of (Z.of_nat c) rest t))
            (nth c (Double.mdata E) []).
Proof.
  induction rest as [|inp rest IH]; intros t E Hv Hlen.
  - exists E; repeat split; reflexivity.
  - inversion Hv as [|? ? Hin Hv']; subst.
    simpl in Hlen.
    rewrite double_backward_step by (auto; lia).
    set (E1 := Double.mkMatrix (Double.mrows E) _).
    assert (Hc1 : Double.mcols E1 = Double.mcols E)
      by (unfold Double.mcols, E1; cbn [Double.mdata];
          apply replace_nth_length).
    destruct (IH (S t) E1) as (E' & HE' & Hr & Hc & Hcols).
    { eapply Forall_impl; [| exact Hv'].
      intros a Ha; rewrite Hc1; exact Ha. }
    { lia. }
    exists E'; split; [exact HE' |].
    split; [rewrite Hr; reflexivity |].
    split; [rewrite Hc; exact Hc1 |].
    intros c; rewrite Hcols; cbn [positions_of].
    destruct (Z.eqb_spec (1 + wid inp) (Z.of_nat c)) as [Heq|Hne].
    + cbn [map fold_left]; f_equal.
      unfold E1; cbn [Double.mdata]; rewrite Heq, Nat2Z.id.
      apply nth_replace_nth_same; fold (Double.mcols E); lia.
    + f_equal; unfold E1; cbn [Double.mdata].
      apply nth_replace_nth_other; lia.
Qed.

(** C6, as the claim words it, fails: the column that the sequential
    updates leave is not the starting column minus [rate] times the sum
    of the gradient columns.  Over the real numbers the two are equal
    ([sequential_subtractions_sum]); in the code's arithmetic, with the
    entry [1e16], the word twice in the sentence, gradient entries [1]
    and rate [1], each subtraction [1e16 - 1] rounds back to [1e16],
    while [1e16 - 1 * (1 + 1)] is [9999999999999998]. *)
Lemma summed_update_differs_in_double :
  let occurrences :=
    map (fun k => nth k (Double.mdata Double.dX) [])
        (positions_of 1 Double.sentence 0) in
  exists L',
    Double.RunBackwardLookupLayer Double.table Double.sentence Double.dX
      1%float = Done L' /\
    occurrences = [[1%float]; [1%float]] /\
    nth 1 (Double.mdata (Double.E_ L')) [] = [1e16%float] /\
    Double.vsub (nth 1 (Double.mdata (Double.E_ Double.table)) [])
      (Double.vscale 1%float (Double.vsum 1 occurrences))
    = [9999999999999998%float] /\
    nth 1 (Double.mdata (Double.E_ L')) []
    <> Double.vsub (nth 1 (Double.mdata (Double.E_ Double.table)) [])
         (Double.vscale 1%float (Double.vsum 1 occurrences)).
Proof.
  intros occurrences.
  exists (Double.mkLookupLayer 1 (mkDictionary 1)
            (Double.mkMatrix 1 [[0%float]; [1e16%float]])).
  split; [vm_compute; reflexivity |].
  split; [reflexivity |].
  split; [reflexivity |].
  split; [vm_compute; reflexivity |].
  intros H.
  apply (f_equal (fun v => PrimFloat.eqb (nth 0 v 0%float) 1e16%float)) in H.
  vm_compute in H; discriminate.
Qed.

(** ** The forward pass *)

Section Forward.

Variable EvaluateActivation : Z -> Vector -> Vector.

Lemma hidden_spec_unfold (s : RNN) (X : Matrix) (t : nat) :
  hidden_spec EvaluateActivation s X t
  = EvaluateActivation (activation_function_ s)
      (vadd (vadd (mat_vec (Wxh_ s) (nth t (mdata X) [])) (bh_ s))
            (mat_vec (Whh_ s) (state_before EvaluateActivation s X t))).
Proof. destruct t; reflexivity. Qed.

(** The recurrence loop writes the columns of the recurrence, one per
    step, and hands over the last of them. *)
Lemma forward_loop_done (s : RNN) (X : Matrix) (n : nat) :
  forall (r : nat) (pre holes post : list Vector),
    length holes = n ->
    (length pre + n <= mcols X)%nat ->
    forward_loop EvaluateActivation s n (Z.of_nat (length pre)) X
      (mkMatrix r (pre ++ holes ++ post)) (state_before EvaluateActivation s X (length pre))
    = Done (mkMatrix r (pre ++ map (hidden_spec EvaluateActivation s X) (seq (length pre) n) ++ post),
            state_before EvaluateActivation s X (length pre + n)).
Proof.
  induction n as [|n IH]; intros r pre holes post Hlen Hle.
  - destruct holes; [| discriminate].
    now rewrite Nat.add_0_r.
  - destruct holes as [|hole holes]; [discriminate |].
    cbn [forward_loop].
    rewrite col_in_range by lia; cbn [bind].
    rewrite <- hidden_spec_unfold.
    assert (Hin : (length pre < mcols (mkMatrix r (pre ++ (hole :: holes) ++ post)))%nat)
      by (unfold mcols; cbn [mdata]; rewrite length_app; simpl; lia).
    rewrite set_col_in_range by exact Hin; cbn [bind mrows mdata app].
    rewrite replace_nth_app_head.
    rewrite col_in_range
      by (unfold mcols; cbn [mdata]; rewrite length_app; simpl; lia).
    cbn [bind mdata].
    rewrite app_nth2, Nat.sub_diag by lia; cbn [nth].
    replace (Z.of_nat (length pre) + 1)%Z
      with (Z.of_nat (length (pre ++ [hidden_spec EvaluateActivation s X (length pre)])))
      by (rewrite length_app; simpl; lia).
    replace (pre ++ hidden_spec EvaluateActivation s X (length pre) :: holes ++ post)
      with ((pre ++ [hidden_spec EvaluateActivation s X (length pre)]) ++ holes ++ post)
      by (now rewrite <- app_assoc).
    change (hidden_spec EvaluateActivation s X (length pre))
      with (state_before EvaluateActivation s X (S (length pre))) at 3.
    replace (S (length pre))
      with (length (pre ++ [hidden_spec EvaluateActivation s X (length pre)]))
      by (rewrite length_app; simpl; lia).
    rewrite IH by (try rewrite length_app; simpl in *; lia).
    rewrite length_app; cbn [length seq map].
    rewrite <- app_assoc; cbn [app].
    replace (length pre + 1)%nat with (S (length pre)) by lia.
    now replace (S (length pre) + n)%nat with (length pre + S n)%nat by lia.
Qed.

Lemma forward_pass_done (s : RNN) (input_sequence : list Input) (X : Matrix) :
  input_sequence <> [] ->
  Lookup.RunForwardLookupLayer (lookup_layer_ s) input_sequence = Done X ->
  RunForwardPass EvaluateActivation s input_sequence
  = Done (set_trace s X
            (hidden_matrix_spec EvaluateActivation s X (length input_sequence))
            (logits_spec EvaluateActivation s X (length input_sequence))
            (probabilities_spec (logits_spec EvaluateActivation s X (length input_sequence)))).
Proof.
  intros Hne HX.
  pose proof (lookup_forward_inv _ _ HX) as Hin.
  pose proof HX as HX'.
  rewrite (lookup_forward_done _ Hin) in HX'; injection HX' as HXeq.
  assert (HcX : mcols X = length input_sequence)
    by (subst X; unfold mcols; cbn [mdata]; apply length_map).
  unfold RunForwardPass; rewrite HX; cbn [bind].
  pose proof (@forward_loop_done s X (length input_sequence)
                (mrows (Whh_ s)) []
                (repeat (vzero (mrows (Whh_ s))) (length input_sequence)) [])
    as Hloop.
  cbn [length app Nat.add] in Hloop; rewrite !app_nil_r in Hloop.
  unfold mzero; cbn [mrows].
  change (if use_hidden_start_ s then h0_ s else vzero (mrows (Whh_ s)))
    with (state_before EvaluateActivation s X 0).
  change 0%Z with (Z.of_nat 0).
  rewrite Hloop by (try apply repeat_length; lia).
  cbn [bind fst].
  assert (Hpos : (0 < length input_sequence)%nat)
    by (destruct input_sequence; [congruence | simpl; lia]).
  replace (Z.of_nat (length input_sequence) - 1)%Z
    with (Z.of_nat (length input_sequence - 1)) by lia.
  rewrite col_in_range
    by (unfold mcols; cbn [mdata]; rewrite length_map, length_seq; lia).
  cbn [bind mdata].
  rewrite (nth_indep _ [] (hidden_spec EvaluateActivation s X 0))
    by (rewrite length_map, length_seq; lia).
  rewrite map_nth, seq_nth by lia.
  reflexivity.
Qed.

(** *** The softmax *)

Lemma rsum_map_scaled (f : R -> R) (c : R) (l : list R) :
  rsum (map (fun x => f x * c) l) = rsum (map f l) * c.
Proof.
  induction l as [|x l IH]; simpl; [ring | rewrite IH; ring].
Qed.

Lemma rsum_exp_pos (f : R -> R) (l : list R) :
  l <> [] -> 0 < rsum (map (fun x => exp (f x)) l).
Proof.
  intros Hne; destruct l as [|a l]; [congruence |]; clear Hne.
  revert a; induction l as [|b l IH]; intros a; simpl.
  - pose proof (exp_pos (f a)); lra.
  - pose proof (exp_pos (f a)); specialize (IH b); simpl in IH; lra.
Qed.

Lemma probability_quotient (y : Vector) (yi : R) :
  y <> [] ->
  exp (yi - LogSumExp y)
  = exp (yi - vmax y) * / rsum (map (fun yj => exp (yj - vmax y)) y).
Proof.
  intros Hne; unfold LogSumExp.
  pose proof (rsum_exp_pos (fun yj => yj - vmax y) Hne) as Hpos.
  replace (yi - (ln (rsum (map (fun yj => exp (yj - vmax y)) y)) + vmax y))
    with ((yi - vmax y) + - ln (rsum (map (fun yj => exp (yj - vmax y)) y)))
    by ring.
  rewrite exp_plus, exp_Ropp, exp_ln by exact Hpos.
  reflexivity.
Qed.

Lemma probabilities_sum (y : Vector) :
  y <> [] -> rsum (probabilities_spec y) = 1.
Proof.
  intros Hne; unfold probabilities_spec.
  pose proof (rsum_exp_pos (fun yj => yj - vmax y) Hne) as Hpos.
  rewrite (map_ext _ (fun yi => exp (yi - vmax y)
                        * / rsum (map (fun yj => exp (yj - vmax y)) y)))
    by (intros yi; apply probability_quotient; exact Hne).
  rewrite (rsum_map_scaled (fun yi => exp (yi - vmax y))).
  apply Rinv_r; lra.
Qed.

Lemma probabilities_pos (y : Vector) :
  Forall (fun pi => 0 < pi) (probabilities_spec y).
Proof.
  unfold probabilities_spec; apply Forall_map, Forall_forall.
  intros yi _; apply exp_pos.
Qed.

Lemma mat_vec_length (M : Matrix) (v : Vector) :
  length (mat_vec M v) = mrows M.
Proof. unfold mat_vec; now rewrite length_map, length_seq. Qed.

Lemma mat_tvec_length (M : Matrix) (v : Vector) :
  length (mat_tvec M v) = mcols M.
Proof. unfold mat_tvec; apply length_map. Qed.

Lemma logits_length (s : RNN) (X : Matrix) (T : nat) :
  well_shaped s ->
  length (logits_spec EvaluateActivation s X T) = output_size_ s.
Proof.
  intros (_ & _ & _ & (Hr & _) & _ & Hby & _).
  unfold logits_spec, vadd.
  rewrite vzip_length, mat_vec_length, Hr, Hby; apply Nat.min_id.
Qed.

Lemma well_shaped_in_table (s : RNN) (input_sequence : list Input) :
  well_shaped s ->
  valid_ids (lookup_layer_ s) input_sequence ->
  Forall (id_in_table (E_ (lookup_layer_ s))) input_sequence.
Proof.
  intros ((_ & Hc & _) & _) Hv; exact (valid_ids_in_table Hc Hv).
Qed.

(** The forward pass completes on a non-empty sequence of valid ids. *)
Lemma forward_pass_returns (s : RNN) (input_sequence : list Input) :
  well_shaped s ->
  valid_ids (lookup_layer_ s) input_sequence ->
  input_sequence <> [] ->
  let X := mkMatrix (GetInputSize s)
             (map (looked_up (E_ (lookup_layer_ s))) input_sequence) in
  RunForwardPass EvaluateActivation s input_sequence
  = Done (set_trace s X
            (hidden_matrix_spec EvaluateActivation s X (length input_sequence))
            (logits_spec EvaluateActivation s X (length input_sequence))
            (probabilities_spec
               (logits_spec EvaluateActivation s X (length input_sequence)))).
Proof.
  intros Hs Hv Hne X.
  apply forward_pass_done; [exact Hne |].
  apply lookup_forward_done, well_shaped_in_table; assumption.
Qed.

(** C3.  On a non-empty sequence that the lookup accepts, the forward
    pass completes; the hidden-state matrix has one column per step,
    column [t] being [Activate(Wxh X[:,t] + bh + Whh h_prev)] with
    [h_prev] the initial state at [t = 0] and the previous column after
    that; the logits are [Why h[:,T-1] + by], and the probabilities are
    [exp(y_i - LogSumExp y)]. *)
Theorem forward_pass_spec (s : RNN) (input_sequence : list Input)
  (X : Matrix) :
  input_sequence <> [] ->
  Lookup.RunForwardLookupLayer (lookup_layer_ s) input_sequence = Done X ->
  exists s',
    RunForwardPass EvaluateActivation s input_sequence = Done s' /\
    x_ s' = X /\
    mrows (h_ s') = mrows (Whh_ s) /\
    mcols (h_ s') = length input_sequence /\
    (forall t : nat,
        (t < length input_sequence)%nat ->
        col (h_ s') (Z.of_nat t)
        = Done (EvaluateActivation (activation_function_ s)
                  (vadd (vadd (mat_vec (Wxh_ s) (nth t (mdata X) []))
                              (bh_ s))
                        (mat_vec (Whh_ s)
                           (match t with
                            | O => if use_hidden_start_ s then h0_ s
                                   else vzero (mrows (Whh_ s))
                            | S t' => nth t' (mdata (h_ s')) []
                            end))))) /\
    y_ s' = vadd (mat_vec (Why_ s)
                    (nth (length input_sequence - 1) (mdata (h_ s')) []))
                 (by_ s) /\
    p_ s' = map (fun yi => exp (yi - LogSumExp (y_ s'))) (y_ s').
Proof.
  intros Hne HX.
  eexists; split; [apply forward_pass_done; eassumption |].
  cbn [x_ h_ y_ p_ set_trace].
  assert (Hnth : forall t, (t < length input_sequence)%nat ->
            nth t (mdata (hidden_matrix_spec EvaluateActivation s X
                            (length input_sequence))) []
            = hidden_spec EvaluateActivation s X t).
  { intros t Ht; unfold hidden_matrix_spec; cbn [mdata].
    rewrite (nth_indep _ [] (hidden_spec EvaluateActivation s X 0))
      by (rewrite length_map, length_seq; lia).
    now rewrite map_nth, seq_nth by lia. }
  assert (Hpos : (0 < length input_sequence)%nat)
    by (destruct input_sequence; [congruence | simpl; lia]).
  split; [reflexivity |].
  split; [reflexivity |].
  split; [unfold mcols, hidden_matrix_spec; cbn [mdata];
          now rewrite length_map, length_seq |].
  split.
  - intros t Ht.
    rewrite col_in_range
      by (unfold mcols, hidden_matrix_spec; cbn [mdata];
          rewrite length_map, length_seq; lia).
    rewrite Hnth by exact Ht.
    rewrite hidden_spec_unfold.
    destruct t as [|t']; [reflexivity |].
    rewrite Hnth by lia; reflexivity.
  - split; [| reflexivity].
    rewrite Hnth by lia; reflexivity.
Qed.

(** C4.  On a non-empty sequence of valid ids, with at least one output
    class, the forward pass completes with one probability per class, all
    positive and summing to one. *)
Theorem forward_probabilities (s : RNN) (input_sequence : list Input) :
  well_shaped s ->
  valid_ids (lookup_layer_ s) input_sequence ->
  input_sequence <> [] ->
  (0 < output_size_ s)%nat ->
  exists s',
    RunForwardPass EvaluateActivation s input_sequence = Done s' /\
    length (p_ s') = output_size_ s /\
    rsum (p_ s') = 1 /\
    Forall (fun pi => 0 < pi) (p_ s').
Proof.
  intros Hs Hv Hne Hc.
  eexists; split; [apply forward_pass_returns; assumption |].
  cbn [p_ set_trace].
  set (y := logits_spec _ _ _ _).
  assert (Hy : length y = output_size_ s) by (apply logits_length; exact Hs).
  split; [unfold probabilities_spec; now rewrite length_map |].
  split; [| apply probabilities_pos].
  apply probabilities_sum; intros ->; simpl in Hy; lia.
Qed.

(** C9, as the header has it.  The forward pass does not test for an empty
    sequence: the lookup completes with an empty matrix, the recurrence
    loop has no step to run, and the read-out asks the hidden-state
    matrix, which has no column, for its column [-1]; the run stops on
    that access and produces no probabilities. *)
Theorem forward_pass_empty (s : RNN) :
  Lookup.RunForwardLookupLayer (lookup_layer_ s) []
  = Done (mzero (GetInputSize s) 0) /\
  forward_loop EvaluateActivation s 0 0%Z (mzero (GetInputSize s) 0)
    (mzero (mrows (Whh_ s)) 0) (h_start s)
  = Done (mzero (mrows (Whh_ s)) 0, h_start s) /\
  col (mzero (mrows (Whh_ s)) 0) (Z.of_nat (@length Input []) - 1)%Z
  = Abort IndexOutOfRange /\
  RunForwardPass EvaluateActivation s [] = Abort IndexOutOfRange.
Proof.
  repeat split; reflexivity.
Qed.

(** *** Forward-only evaluation *)

Lemma forward_pass_frame (s s' : RNN) (input_sequence : list Input) :
  RunForwardPass EvaluateActivation s input_sequence = Done s' ->
  exists x h y p, s' = set_trace s x h y p.
Proof.
  unfold RunForwardPass; intros H.
  apply bind_Done in H as (x & _ & H).
  apply bind_Done in H as (hh & _ & H).
  apply bind_Done in H as (ht & _ & H).
  injection H as <-; eauto.
Qed.

(** C10.  A forward-only evaluation that completes leaves the embedding
    matrix, the three weight matrices and the three bias/state vectors as
    they were (only the buffers [x_], [h_], [y_], [p_] are assigned); and
    on a non-empty sequence of valid ids, with at least one output class,
    it does complete. *)
Theorem run_preserves_parameters (s : RNN) (input_sequence : list Input) :
  well_shaped s ->
  valid_ids (lookup_layer_ s) input_sequence ->
  (forall s' prediction,
      Run EvaluateActivation s input_sequence = Done (s', prediction) ->
      lookup_layer_ s' = lookup_layer_ s /\
      Wxh_ s' = Wxh_ s /\ Whh_ s' = Whh_ s /\ Why_ s' = Why_ s /\
      bh_ s' = bh_ s /\ by_ s' = by_ s /\ h0_ s' = h0_ s /\
      s' = set_trace s (x_ s') (h_ s') (y_ s') (p_ s')) /\
  (input_sequence <> [] ->
   (0 < output_size_ s)%nat ->
   exists s' prediction,
     Run EvaluateActivation s input_sequence = Done (s', prediction)).
Proof.
  intros Hs Hv; split.
  - intros s' prediction H; unfold Run in H.
    apply bind_Done in H as (s1 & Hfwd & H).
    apply bind_Done in H as (pr & _ & H).
    injection H as <- _.
    apply forward_pass_frame in Hfwd as (x & h & y & p & ->).
    repeat split; reflexivity.
  - intros Hne Hc; unfold Run.
    rewrite forward_pass_returns by assumption; cbn [bind p_ set_trace].
    set (y := logits_spec _ _ _ _).
    assert (Hy : length y = output_size_ s)
      by (apply logits_length; exact Hs).
    destruct y as [|y0 y]; [simpl in Hy; lia |].
    cbn [probabilities_spec map maxCoeff bind]; eauto.
Qed.

End Forward.

Lemma example_cell_well_shaped : well_shaped Example.cell.
Proof.
  unfold well_shaped, lookup_shaped, mshape; simpl.
  repeat split; repeat constructor.
Qed.

Lemma example_sentence_valid :
  valid_ids (lookup_layer_ Example.cell) Example.sentence.
Proof. repeat constructor; simpl; lia. Qed.

Lemma forward_pass_spec_witness :
  Example.sentence <> [] /\
  Lookup.RunForwardLookupLayer (lookup_layer_ Example.cell) Example.sentence
  = Done (mkMatrix 2 [[1; 2]; [3; 4]; [1; 2]]) /\
  exists s',
    RunForwardPass Evaluate_logistic Example.cell Example.sentence = Done s' /\
    x_ s' = mkMatrix 2 [[1; 2]; [3; 4]; [1; 2]] /\
    mcols (h_ s') = 3%nat.
Proof.
  assert (Hne : Example.sentence <> []) by discriminate.
  assert (HX : Lookup.RunForwardLookupLayer (lookup_layer_ Example.cell)
                 Example.sentence
               = Done (mkMatrix 2 [[1; 2]; [3; 4]; [1; 2]]))
    by reflexivity.
  split; [exact Hne |]; split; [exact HX |].
  destruct (@forward_pass_spec Evaluate_logistic Example.cell
              Example.sentence _ Hne HX)
    as (s' & Hrun & Hx & _ & Hc & _).
  exists s'; repeat split; assumption.
Defined.

Lemma forward_probabilities_witness :
  well_shaped Example.cell /\
  valid_ids (lookup_layer_ Example.cell) Example.sentence /\
  Example.sentence <> [] /\
  (0 < output_size_ Example.cell)%nat /\
  exists s',
    RunForwardPass Evaluate_logistic Example.cell Example.sentence = Done s' /\
    rsum (p_ s') = 1.
Proof.
  assert (Hs : well_shaped Example.cell)
    by (unfold well_shaped, lookup_shaped, mshape; simpl;
        repeat split; repeat constructor).
  assert (Hv : valid_ids (lookup_layer_ Example.cell) Example.sentence)
    by (repeat constructor; simpl; lia).
  assert (Hne : Example.sentence <> []) by discriminate.
  assert (Hc : (0 < output_size_ Example.cell)%nat) by (simpl; lia).
  repeat (split; [assumption |]).
  destruct (@forward_probabilities Evaluate_logistic Example.cell
              Example.sentence Hs Hv Hne Hc)
    as (s' & Hrun & _ & Hsum & _).
  exists s'; split; assumption.
Defined.

(** C9, as the claim words it, fails: the empty sequence is not turned
    away by an assertion of the header. *)
Lemma empty_sequence_not_rejected :
  RunForwardPass Evaluate_logistic Example.cell []
  <> Abort AssertionFailed.
Proof. discriminate. Qed.

Lemma run_preserves_parameters_witness :
  well_shaped Example.cell /\
  valid_ids (lookup_layer_ Example.cell) Example.sentence /\
  exists s' prediction,
    Run Evaluate_logistic Example.cell Example.sentence
    = Done (s', prediction) /\
    Wxh_ s' = Wxh_ Example.cell /\
    lookup_layer_ s' = lookup_layer_ Example.cell.
Proof.
  assert (Hs : well_shaped Example.cell)
    by (unfold well_shaped, lookup_shaped, mshape; simpl;
        repeat split; repeat constructor).
  assert (Hv : valid_ids (lookup_layer_ Example.cell) Example.sentence)
    by (repeat constructor; simpl; lia).
  split; [exact Hs |]; split; [exact Hv |].
  destruct (@run_preserves_parameters Evaluate_logistic Example.cell
              Example.sentence Hs Hv) as [Hframe Hrun].
  destruct Hrun as (s' & prediction & Hrun);
    [discriminate | simpl; lia |].
  destruct (Hframe s' prediction Hrun) as (HL & HW & _).
  exists s', prediction; repeat split; assumption.
Defined.

(** ** The backward pass *)

Section Backward.

Variable EvaluateActivation : Z -> Vector -> Vector.
Variable DerivateActivation : Z -> Vector -> Vector.

Lemma rev_seq_S (n : nat) : rev (seq 0 (S n)) = n :: rev (seq 0 n).
Proof. now rewrite seq_S, rev_app_distr. Qed.

Lemma split_last {A : Type} (l : list A) (n : nat) :
  length l = S n -> exists l' x, l = l' ++ [x] /\ length l' = n.
Proof.
  intros Hlen.
  destruct (exists_last (l := l)) as (l' & x & ->);
    [intros ->; discriminate |].
  exists l', x; split; [reflexivity |].
  rewrite length_app in Hlen; simpl in Hlen; lia.
Qed.

Lemma vdec_at_in_range (v : Vector) (i : Z) (d : R) :
  (0 <= i < Z.of_nat (length v))%Z ->
  vdec_at v i d
  = Done (replace_nth (Z.to_nat i) v (nth (Z.to_nat i) v 0 - d)).
Proof.
  intros H; unfold vdec_at, vget; now rewrite in_range_true.
Qed.

Section Loop.

Variable s : RNN.
Variable T : nat.
Variable label : Z.

Hypothesis h_columns : mcols (h_ s) = T.
Hypothesis x_columns : mcols (x_ s) = T.

Lemma draw_spec_at (t : nat) :
  (t < T)%nat ->
  vmul (DerivateActivation (activation_function_ s) (h_col s t))
       (dh_back DerivateActivation s T label (T - S t))
  = draw_spec DerivateActivation s T label t.
Proof.
  intros Ht; unfold draw_spec.
  now replace (T - 1 - t)%nat with (T - S t)%nat by lia.
Qed.

Lemma dh_back_step (t : nat) :
  (t < T)%nat ->
  mat_tvec (Whh_ s) (draw_spec DerivateActivation s T label t)
  = dh_back DerivateActivation s T label (T - t).
Proof.
  intros Ht.
  replace (T - t)%nat with (S (T - S t)) by lia.
  cbn [dh_back].
  replace (T - 1 - (T - S t))%nat with t by lia.
  now rewrite draw_spec_at.
Qed.

(** The loop, entered with [n] steps to go, leaves each accumulator as
    the remaining steps [n-1 .. 0] extend it. *)
Lemma backward_loop_done (n : nat) :
  forall (a : grads) (r : nat) (holes post : list Vector),
    (n <= T)%nat ->
    dhnext a = dh_back DerivateActivation s T label (T - n) ->
    dx a = mkMatrix r (holes ++ post) ->
    length holes = n ->
    backward_loop DerivateActivation s n a
    = Done (mkGrads
              (fold_left
                 (fun acc t =>
                    madd acc (outer (draw_spec DerivateActivation s T label t)
                                    (x_col s t)))
                 (rev (seq 0 n)) (dWxh a))
              (fold_left
                 (fun acc t =>
                    vadd acc (draw_spec DerivateActivation s T label t))
                 (rev (seq 0 n)) (dbh a))
              (fold_left
                 (fun acc t =>
                    madd acc (outer (draw_spec DerivateActivation s T label t)
                                    (h_col s (t - 1))))
                 (filter (fun t => (0 <? t)%nat) (rev (seq 0 n))) (dWhh a))
              (dh_back DerivateActivation s T label T)
              (mkMatrix r
                 (map (fun t =>
                         mat_tvec (Wxh_ s)
                           (draw_spec DerivateActivation s T label t))
                      (seq 0 n) ++ post))).
Proof.
  induction n as [|n IH]; intros a r holes post Hn Hdh Hdx Hlen.
  - destruct holes; [| discriminate].
    destruct a as [a1 a2 a3 a4 a5]; cbn in *.
    rewrite Nat.sub_0_r in Hdh; now subst.
  - destruct (split_last _ Hlen) as (holes' & hole & -> & Hlen').
    cbn [backward_loop].
    rewrite col_in_range by lia; cbn [bind].
    fold (h_col s n).
    rewrite Hdh, draw_spec_at by lia.
    rewrite col_in_range by lia; cbn [bind].
    fold (x_col s n).
    assert (Hset : set_col (dx a) (Z.of_nat n)
                     (mat_tvec (Wxh_ s)
                        (draw_spec DerivateActivation s T label n))
                   = Done (mkMatrix r
                             (holes' ++
                              mat_tvec (Wxh_ s)
                                (draw_spec DerivateActivation s T label n)
                              :: post))).
    { rewrite Hdx, set_col_in_range
        by (unfold mcols; cbn [mdata]; rewrite !length_app; simpl; lia).
      cbn [mrows mdata]; rewrite <- app_assoc; cbn [app].
      now rewrite <- Hlen', replace_nth_app_head. }
    rewrite rev_seq_S; cbn [fold_left filter].
    rewrite seq_S, map_app, <- app_assoc; cbn [map app Nat.add].
    destruct n as [|m].
    + change (0 <? Z.of_nat 0)%Z with false; cbn [bind].
      change (0 <? 0)%nat with false; cbn iota.
      rewrite Hset; cbn [bind].
      rewrite (IH _ r holes'
                 (mat_tvec (Wxh_ s) (draw_spec DerivateActivation s T label 0)
                  :: post));
        cbn [dWxh dbh dWhh dhnext dx]; try reflexivity; try lia.
      rewrite dh_back_step by lia; reflexivity.
    + replace (0 <? Z.of_nat (S m))%Z with true
        by (symmetry; apply Z.ltb_lt; lia).
      replace (Z.of_nat (S m) - 1)%Z with (Z.of_nat m) by lia.
      rewrite col_in_range by lia; cbn [bind].
      fold (h_col s m).
      rewrite Hset; cbn [bind].
      replace (0 <? S m)%nat with true by reflexivity.
      cbn [fold_left].
      rewrite (IH _ r holes'
                 (mat_tvec (Wxh_ s)
                    (draw_spec DerivateActivation s T label (S m))
                  :: post));
        cbn [dWxh dbh dWhh dhnext dx]; try reflexivity; try lia.
      * now replace (S m - 1)%nat with m by lia.
      * rewrite dh_back_step by lia; reflexivity.
Qed.

End Loop.

Lemma backward_gradients_done (s : RNN) (input_sequence : list Input)
  (label : Z) :
  input_sequence <> [] ->
  mcols (h_ s) = length input_sequence ->
  mcols (x_ s) = length input_sequence ->
  mcols (Why_ s) = mrows (Whh_ s) ->
  (0 <= label < Z.of_nat (length (p_ s)))%Z ->
  backward_gradients DerivateActivation s input_sequence label
  = Done (gradients_spec DerivateActivation s (length input_sequence) label).
Proof.
  intros Hne Hh Hx Hyh Hl.
  set (T := length input_sequence) in *.
  assert (HT : (0 < T)%nat)
    by (subst T; destruct input_sequence; [congruence | simpl; lia]).
  unfold backward_gradients.
  rewrite vdec_at_in_range by exact Hl; cbn [bind].
  fold (dy_spec s label).
  fold T; replace (Z.of_nat T - 1)%Z with (Z.of_nat (T - 1)) by lia.
  rewrite col_in_range by lia; cbn [bind].
  fold (h_col s (T - 1)).
  rewrite vadd_vzero_l by (rewrite mat_tvec_length; exact Hyh).
  rewrite (@backward_loop_done s T label Hh Hx T _ (GetInputSize s)
             (repeat (vzero (GetInputSize s)) T) []);
    cbn [dWxh dbh dWhh dhnext dx bind]; try lia.
  - unfold gradients_spec; f_equal.
    rewrite app_nil_r.
    unfold dh0_spec; rewrite dh_back_step by lia.
    now rewrite Nat.sub_0_r.
  - now rewrite Nat.sub_diag.
  - unfold mzero; now rewrite app_nil_r.
  - apply repeat_length.
Qed.

Lemma dX_spec_columns (s : RNN) (T : nat) (label : Z) :
  mcols (dX_spec DerivateActivation s T label) = T.
Proof.
  unfold mcols, dX_spec; cbn [mdata]; now rewrite length_map, length_seq.
Qed.

(** After its gradients, the backward pass applies plain SGD and hands
    [dX] to the embedding update. *)
Lemma backward_pass_done (s : RNN) (input_sequence : list Input)
  (label : Z) (learning_rate : R) :
  input_sequence <> [] ->
  mcols (h_ s) = length input_sequence ->
  mcols (x_ s) = length input_sequence ->
  mcols (Why_ s) = mrows (Whh_ s) ->
  (0 <= label < Z.of_nat (length (p_ s)))%Z ->
  Forall (id_in_table (E_ (lookup_layer_ s))) input_sequence ->
  exists L',
    Lookup.RunBackwardLookupLayer (lookup_layer_ s) input_sequence
      (dX_spec DerivateActivation s (length input_sequence) label)
      learning_rate = Done L' /\
    RunBackwardPass DerivateActivation s input_sequence label learning_rate
    = Done (sgd_spec DerivateActivation s (length input_sequence) label
              learning_rate L').
Proof.
  intros Hne Hh Hx Hyh Hl Hin.
  destruct (@lookup_backward_loop_done
              (dX_spec DerivateActivation s (length input_sequence) label)
              learning_rate input_sequence 0 (E_ (lookup_layer_ s)) Hin)
    as (E' & HE' & _); [rewrite dX_spec_columns; lia |].
  exists (mkLookupLayer (embedding_dimension_ (lookup_layer_ s))
            (dictionary_ (lookup_layer_ s)) E').
  assert (HL : Lookup.RunBackwardLookupLayer (lookup_layer_ s) input_sequence
                 (dX_spec DerivateActivation s (length input_sequence) label)
                 learning_rate
               = Done (mkLookupLayer (embedding_dimension_ (lookup_layer_ s))
                         (dictionary_ (lookup_layer_ s)) E')).
  { unfold Lookup.RunBackwardLookupLayer.
    change 0%Z with (Z.of_nat 0); now rewrite HE'. }
  split; [exact HL |].
  unfold RunBackwardPass.
  rewrite backward_gradients_done by assumption.
  cbn [bind gradients_spec g_loop g_dWhy g_dby dWxh dbh dWhh dhnext dx].
  rewrite HL; reflexivity.
Qed.

(** The state a completed forward pass leaves is ready for the backward
    pass on the same sequence. *)
Lemma forward_trace_shape (s0 : RNN) (input_sequence : list Input) :
  well_shaped s0 ->
  valid_ids (lookup_layer_ s0) input_sequence ->
  input_sequence <> [] ->
  exists s,
    RunForwardPass EvaluateActivation s0 input_sequence = Done s /\
    (exists x h y p, s = set_trace s0 x h y p) /\
    mcols (h_ s) = length input_sequence /\
    mcols (x_ s) = length input_sequence /\
    length (p_ s) = output_size_ s0.
Proof.
  intros Hs Hv Hne.
  eexists; split; [apply forward_pass_returns; assumption |].
  split; [eauto |].
  cbn [h_ x_ p_ set_trace].
  unfold mcols, hidden_matrix_spec, probabilities_spec; cbn [mdata].
  rewrite !length_map, length_seq, logits_length by exact Hs.
  repeat split; reflexivity.
Qed.

(** C1.  Run right after the forward pass on a non-empty sequence, with a
    label in [0, C), the backward pass completes; its accumulators are
    the ones the recurrence of the spec defines ([dy], [dWhy], [dby], the
    incoming hidden gradient [Why^T dy], and for [t = T-1 .. 0] the
    [draw], [dWxh], [dbh], [dWhh] (for [t > 0] only), [dh_next] and [dX]
    of each step); the parameters end as plain SGD on these leaves them,
    the last [dh_next] going into [h0], and the embeddings as the
    embedding update with [dX] and the learning rate leaves them. *)
Theorem backward_pass_spec (s0 : RNN) (input_sequence : list Input)
  (label : Z) (learning_rate : R) :
  well_shaped s0 ->
  valid_ids (lookup_layer_ s0) input_sequence ->
  input_sequence <> [] ->
  (0 <= label < Z.of_nat (output_size_ s0))%Z ->
  exists s,
    RunForwardPass EvaluateActivation s0 input_sequence = Done s /\
    let T := length input_sequence in
    backward_gradients DerivateActivation s input_sequence label
    = Done (gradients_spec DerivateActivation s T label) /\
    dh_back DerivateActivation s T label 0
    = mat_tvec (Why_ s) (dy_spec s label) /\
    (forall t : nat,
        (t < T)%nat ->
        draw_spec DerivateActivation s T label t
        = vmul (DerivateActivation (activation_function_ s) (h_col s t))
               (dh_back DerivateActivation s T label (T - 1 - t)) /\
        dh_back DerivateActivation s T label (S (T - 1 - t))
        = mat_tvec (Whh_ s) (draw_spec DerivateActivation s T label t)) /\
    exists L',
      Lookup.RunBackwardLookupLayer (lookup_layer_ s) input_sequence
        (dX_spec DerivateActivation s T label) learning_rate = Done L' /\
      RunBackwardPass DerivateActivation s input_sequence label learning_rate
      = Done (sgd_spec DerivateActivation s T label learning_rate L').
Proof.
  intros Hs Hv Hne Hl.
  destruct (forward_trace_shape Hs Hv Hne)
    as (s & Hfwd & (x & h & y & p & Hst) & Hh & Hx & Hp).
  exists s; split; [exact Hfwd |].
  assert (Hyh : mcols (Why_ s) = mrows (Whh_ s)).
  { subst s; cbn [Why_ Whh_ set_trace].
    destruct Hs as (_ & _ & (Hr & _) & (_ & Hc & _) & _); congruence. }
  assert (Hin : Forall (id_in_table (E_ (lookup_layer_ s))) input_sequence).
  { subst s; cbn [lookup_layer_ set_trace].
    apply well_shaped_in_table; assumption. }
  assert (Hl' : (0 <= label < Z.of_nat (length (p_ s)))%Z)
    by (rewrite Hp; exact Hl).
  cbv zeta.
  split; [apply backward_gradients_done; assumption |].
  split; [reflexivity |].
  split.
  - intros t Ht; split; [reflexivity |].
    cbn [dh_back]; unfold draw_spec.
    now replace (length input_sequence - 1
                 - (length input_sequence - 1 - t))%nat with t by lia.
  - apply backward_pass_done; assumption.
Qed.

(** *** Which embedding columns a backward call touches *)

Lemma col_Done (M : Matrix) (t : Z) (v : Vector) :
  col M t = Done v -> (0 <= t < Z.of_nat (mcols M))%Z.
Proof.
  unfold col; intros H.
  destruct (Z.leb_spec 0 t); destruct (Z.ltb_spec t (Z.of_nat (mcols M)));
    simpl in H; try discriminate; lia.
Qed.

Lemma col_sub_assign_Done (E E' : Matrix) (w : Z) (v : Vector) :
  Lookup.col_sub_assign E w v = Done E' ->
  (0 <= w < Z.of_nat (mcols E))%Z /\
  E' = mkMatrix (mrows E)
         (replace_nth (Z.to_nat w) (mdata E)
            (vsub (nth (Z.to_nat w) (mdata E) []) v)).
Proof.
  unfold Lookup.col_sub_assign; intros H.
  apply bind_Done in H as (c & Hc & H).
  pose proof (col_Done _ _ Hc) as Hw; split; [exact Hw |].
  rewrite col_Z_in_range in Hc by exact Hw; injection Hc as <-.
  unfold set_col in H; rewrite in_range_true in H by exact Hw.
  now injection H as <-.
Qed.

(** A completed update loop keeps the shape of the table and every column
    that no token of the sequence addresses. *)
Lemma lookup_backward_loop_frame (dX : Matrix) (learning_rate : R)
  (rest : list Input) :
  forall (t : Z) (E E' : Matrix),
    Lookup.backward_loop rest t dX learning_rate E = Done E' ->
    mrows E' = mrows E /\
    mcols E' = mcols E /\
    forall c : nat,
      (forall inp, In inp rest -> (wid inp + 1)%Z <> Z.of_nat c) ->
      nth c (mdata E') [] = nth c (mdata E) [].
Proof.
  induction rest as [|inp rest IH]; intros t E E' H.
  - injection H as <-; repeat split; reflexivity.
  - cbn [Lookup.backward_loop] in H.
    apply bind_Done in H as (d & _ & H).
    apply bind_Done in H as (E1 & HE1 & H).
    apply col_sub_assign_Done in HE1 as (Hw & ->).
    apply IH in H as (Hr & Hc & Hcols).
    cbn [mrows] in Hr.
    unfold mcols in Hc at 2; cbn [mdata] in Hc.
    rewrite replace_nth_length in Hc.
    split; [exact Hr |]; split; [exact Hc |].
    intros c Hfree; rewrite Hcols
      by (intros a Ha; apply Hfree; right; exact Ha).
    cbn [mdata]; apply nth_replace_nth_other.
    specialize (Hfree inp (or_introl eq_refl)); lia.
Qed.

Lemma backward_pass_frame (s s' : RNN) (input_sequence : list Input)
  (label : Z) (learning_rate : R) :
  RunBackwardPass DerivateActivation s input_sequence label learning_rate
  = Done s' ->
  mrows (E_ (lookup_layer_ s')) = mrows (E_ (lookup_layer_ s)) /\
  mcols (E_ (lookup_layer_ s')) = mcols (E_ (lookup_layer_ s)) /\
  forall c : nat,
    (forall inp, In inp input_sequence -> (wid inp + 1)%Z <> Z.of_nat c) ->
    nth c (mdata (E_ (lookup_layer_ s'))) []
    = nth c (mdata (E_ (lookup_layer_ s))) [].
Proof.
  unfold RunBackwardPass; intros H.
  apply bind_Done in H as (g & _ & H).
  apply bind_Done in H as (L & HL & H).
  injection H as <-; cbn [lookup_layer_ set_params].
  unfold Lookup.RunBackwardLookupLayer in HL.
  apply bind_Done in HL as (E' & HE' & HL).
  injection HL as <-; cbn [E_].
  exact (lookup_backward_loop_frame _ _ _ _ _ HE').
Qed.

(** C7.  A forward pass followed by the backward pass on a non-empty
    sequence of valid ids completes, and any completed backward call
    leaves the embedding matrix with its shape and with every column
    whose index is not [id + 1] for a token of the sequence unchanged. *)
Theorem backward_embedding_locality (s0 : RNN) (input_sequence : list Input)
  (label : Z) (learning_rate : R) :
  well_shaped s0 ->
  valid_ids (lookup_layer_ s0) input_sequence ->
  input_sequence <> [] ->
  (0 <= label < Z.of_nat (output_size_ s0))%Z ->
  exists s s',
    RunForwardPass EvaluateActivation s0 input_sequence = Done s /\
    RunBackwardPass DerivateActivation s input_sequence label learning_rate
    = Done s' /\
    mcols (E_ (lookup_layer_ s')) = mcols (E_ (lookup_layer_ s0)) /\
    forall c : nat,
      (forall inp, In inp input_sequence -> (wid inp + 1)%Z <> Z.of_nat c) ->
      col (E_ (lookup_layer_ s')) (Z.of_nat c)
      = col (E_ (lookup_layer_ s0)) (Z.of_nat c) /\
      nth c (mdata (E_ (lookup_layer_ s'))) []
      = nth c (mdata (E_ (lookup_layer_ s0))) [].
Proof.
  intros Hs Hv Hne Hl.
  destruct (forward_trace_shape Hs Hv Hne)
    as (s & Hfwd & (x & h & y & p & Hst) & Hh & Hx & Hp).
  assert (HL : lookup_layer_ s = lookup_layer_ s0) by (subst s; reflexivity).
  destruct (@backward_pass_done s input_sequence label learning_rate)
    as (L' & _ & Hbwd); try assumption.
  - subst s; cbn [Why_ Whh_ set_trace].
    destruct Hs as (_ & _ & (Hr & _) & (_ & Hc & _) & _); congruence.
  - rewrite Hp; exact Hl.
  - rewrite HL; apply well_shaped_in_table; assumption.
  - exists s, (sgd_spec DerivateActivation s (length input_sequence) label
                 learning_rate L').
    split; [exact Hfwd |]; split; [exact Hbwd |].
    pose proof Hbwd as Hframe.
    apply backward_pass_frame in Hframe as (_ & Hc & Hcols).
    rewrite HL in Hc, Hcols.
    split; [exact Hc |].
    intros c Hfree; specialize (Hcols c Hfree).
    split; [| exact Hcols].
    unfold col; now rewrite Hc, Nat2Z.id, Hcols.
Qed.

End Backward.

Lemma backward_pass_spec_witness :
  well_shaped Example.cell /\
  valid_ids (lookup_layer_ Example.cell) Example.sentence /\
  Example.sentence <> [] /\
  (0 <= 1 < Z.of_nat (output_size_ Example.cell))%Z /\
  exists s s',
    RunForwardPass Evaluate_logistic Example.cell Example.sentence = Done s /\
    RunBackwardPass Derivate_logistic s Example.sentence 1 (1 / 10)
    = Done s'.
Proof.
  assert (Hs : well_shaped Example.cell)
    by (unfold well_shaped, lookup_shaped, mshape; simpl;
        repeat split; repeat constructor).
  assert (Hv : valid_ids (lookup_layer_ Example.cell) Example.sentence)
    by (repeat constructor; simpl; lia).
  assert (Hne : Example.sentence <> []) by discriminate.
  assert (Hl : (0 <= 1 < Z.of_nat (output_size_ Example.cell))%Z)
    by (simpl; lia).
  repeat (split; [assumption |]).
  destruct (@backward_pass_spec Evaluate_logistic Derivate_logistic
              Example.cell Example.sentence 1 (1 / 10) Hs Hv Hne Hl)
    as (s & Hfwd & _ & _ & _ & L' & _ & Hbwd).
  exists s; eexists; split; [exact Hfwd | exact Hbwd].
Defined.

Lemma backward_embedding_locality_witness :
  well_shaped Example.cell /\
  valid_ids (lookup_layer_ Example.cell) Example.sentence /\
  Example.sentence <> [] /\
  (0 <= 1 < Z.of_nat (output_size_ Example.cell))%Z /\
  exists s s',
    RunForwardPass Evaluate_logistic Example.cell Example.sentence = Done s /\
    RunBackwardPass Derivate_logistic s Example.sentence 1 (1 / 10)
    = Done s' /\
    col (E_ (lookup_layer_ s')) 0 = Done [0; 0].
Proof.
  assert (Hs : well_shaped Example.cell)
    by (unfold well_shaped, lookup_shaped, mshape; simpl;
        repeat split; repeat constructor).
  assert (Hv : valid_ids (lookup_layer_ Example.cell) Example.sentence)
    by (repeat constructor; simpl; lia).
  assert (Hne : Example.sentence <> []) by discriminate.
  assert (Hl : (0 <= 1 < Z.of_nat (output_size_ Example.cell))%Z)
    by (simpl; lia).
  repeat (split; [assumption |]).
  destruct (@backward_embedding_locality Evaluate_logistic Derivate_logistic
              Example.cell Example.sentence 1 (1 / 10) Hs Hv Hne Hl)
    as (s & s' & Hfwd & Hbwd & _ & Hcols).
  exists s, s'; split; [exact Hfwd |]; split; [exact Hbwd |].
  destruct (Hcols 0%nat) as [Hcol _].
  - intros inp Hin; simpl in Hin.
    destruct Hin as [<-|[<-|[<-|[]]]]; simpl; lia.
  - exact Hcol.
Defined.

(** ** Initialisation *)

Section Initialization.

Variable LOGISTIC : Z.
Variable LoadVectorParameter : string -> Vector -> Vector.
Variable LoadMatrixParameter : string -> Matrix -> Matrix.
Variable rand_state : Type.
Variable srand : Z -> rand_state.
Variable rand : rand_state -> Z * rand_state.
Variable RAND_MAX : Z.

(** What the C standard promises of [rand()]. *)
Hypothesis RAND_MAX_pos : (0 < RAND_MAX)%Z.
Hypothesis rand_range : forall g, (0 <= fst (rand g) <= RAND_MAX)%Z.

Lemma scaled_draw_bounds (max : R) (g : rand_state) :
  0 <= max ->
  - max <= scaled_draw RAND_MAX max (fst (rand g)) <= max.
Proof.
  intros Hmax; unfold scaled_draw.
  destruct (rand_range g) as [Hlo Hhi].
  apply IZR_le in Hlo, Hhi.
  assert (HM : 0 < IZR RAND_MAX) by (apply IZR_lt in RAND_MAX_pos; lra).
  set (q := IZR (fst (rand g)) / IZR RAND_MAX).
  assert (Hq : 0 <= q <= 1).
  { unfold q; split.
    - apply Rmult_le_pos; [lra | left; now apply Rinv_0_lt_compat].
    - apply (Rmult_le_reg_r (IZR RAND_MAX)); [exact HM |].
      unfold Rdiv; rewrite Rmult_assoc, Rinv_l by lra; lra. }
  replace (2 * IZR (fst (rand g)) / IZR RAND_MAX) with (2 * q)
    by (unfold q; field; lra).
  split; nra.
Qed.

Lemma drawn_bounds (max v : R) :
  0 <= max -> drawn rand RAND_MAX max v -> - max <= v <= max.
Proof. intros Hmax (g & ->); now apply scaled_draw_bounds. Qed.

Lemma init_max_nonneg (s : RNN) (W : Matrix) : 0 <= init_max LOGISTIC s W.
Proof.
  unfold init_max, init_coeff.
  apply Rmult_le_pos; [| apply sqrt_pos].
  destruct (activation_function_ s =? LOGISTIC)%Z; lra.
Qed.

(** *** Storing one entry *)

Lemma mset_done (r c : nat) (W : Matrix) (i j : nat) (v : R) :
  mshape r c W -> (i < r)%nat -> (j < c)%nat ->
  exists W',
    mset W i j v = Done W' /\
    mshape r c W' /\
    mget W' i j = v /\
    forall a b, (a, b) <> (i, j) -> mget W' a b = mget W a b.
Proof.
  intros (Hr & Hc & Hall) Hi Hj.
  eexists; split.
  - unfold mset.
    replace (i <? mrows W)%nat with true
      by (symmetry; apply Nat.ltb_lt; lia).
    replace (j <? mcols W)%nat with true
      by (symmetry; apply Nat.ltb_lt; lia).
    reflexivity.
  - assert (Hcol : length (nth j (mdata W) []) = r)
      by (rewrite Forall_forall in Hall; apply Hall, nth_In;
          unfold mcols in Hc; lia).
    split; [| split].
    + repeat split; cbn [mrows mdata]; [exact Hr | |].
      * unfold mcols; cbn [mdata]; now rewrite replace_nth_length.
      * apply Forall_replace_nth; [exact Hall |].
        now rewrite replace_nth_length.
    + unfold mget; cbn [mdata].
      rewrite nth_replace_nth_same by (unfold mcols in Hc; lia).
      apply nth_replace_nth_same; lia.
    + intros a b Hne; unfold mget; cbn [mdata].
      destruct (Nat.eq_dec b j) as [->|Hb].
      * rewrite nth_replace_nth_same by (unfold mcols in Hc; lia).
        apply nth_replace_nth_other; congruence.
      * now rewrite nth_replace_nth_other by congruence.
Qed.

(** *** The fill loops *)

Lemma fill_row_done (r c : nat) (max : R) (i : nat) (n : nat) :
  forall (j : nat) (W : Matrix) (g : rand_state),
    mshape r c W -> (i < r)%nat -> (j + n <= c)%nat ->
    exists W' g',
      fill_row rand RAND_MAX W max i n j g = Done (W', g') /\
      mshape r c W' /\
      forall a b,
        (a = i /\ (j <= b < j + n)%nat ->
         drawn rand RAND_MAX max (mget W' a b)) /\
        (~ (a = i /\ (j <= b < j + n)%nat) -> mget W' a b = mget W a b).
Proof.
  induction n as [|n IH]; intros j W g HW Hi Hj.
  - exists W, g; split; [reflexivity |]; split; [exact HW |].
    intros a b; split; [lia | reflexivity].
  - cbn [fill_row].
    destruct (rand g) as [z g1] eqn:Hrand.
    destruct (@mset_done r c W i j (max * (2 * IZR z / IZR RAND_MAX - 1)) HW)
      as (W1 & HW1 & Hsh1 & Hget & Hother); [lia | lia |].
    rewrite HW1; cbn [bind].
    destruct (IH (S j) W1 g1 Hsh1 Hi) as (W' & g' & Hrun & Hsh & Hent);
      [lia |].
    exists W', g'; split; [exact Hrun |]; split; [exact Hsh |].
    intros a b; split.
    + intros [-> Hb].
      destruct (Nat.eq_dec b j) as [->|Hbj].
      * destruct (Hent i j) as [_ Hsame].
        rewrite Hsame by lia; rewrite Hget.
        exists g; now rewrite Hrand.
      * destruct (Hent i b) as [Hd _]; apply Hd; lia.
    + intros Hout.
      destruct (Hent a b) as [_ Hsame].
      rewrite Hsame by lia.
      apply Hother; intros Heq; injection Heq as -> ->; lia.
Qed.

Lemma fill_rows_done (r c : nat) (max : R) (n : nat) :
  forall (i : nat) (W : Matrix) (g : rand_state),
    mshape r c W -> (i + n <= r)%nat ->
    exists W' g',
      fill_rows rand RAND_MAX W max n i g = Done (W', g') /\
      mshape r c W' /\
      forall a b,
        ((i <= a < i + n)%nat /\ (b < c)%nat ->
         drawn rand RAND_MAX max (mget W' a b)) /\
        (~ ((i <= a < i + n)%nat /\ (b < c)%nat) ->
         mget W' a b = mget W a b).
Proof.
  induction n as [|n IH]; intros i W g HW Hi.
  - exists W, g; split; [reflexivity |]; split; [exact HW |].
    intros a b; split; [lia | reflexivity].
  - cbn [fill_rows].
    pose proof HW as (_ & Hc & _).
    destruct (@fill_row_done r c max i (mcols W) 0 W g HW)
      as (W1 & g1 & HW1 & Hsh1 & Hent1); [lia | lia |].
    rewrite HW1; cbn [bind fst snd].
    destruct (IH (S i) W1 g1 Hsh1) as (W' & g' & Hrun & Hsh & Hent); [lia |].
    exists W', g'; split; [exact Hrun |]; split; [exact Hsh |].
    intros a b; split.
    + intros [Ha Hb].
      destruct (Nat.eq_dec a i) as [->|Hai].
      * destruct (Hent i b) as [_ Hsame]; rewrite Hsame by lia.
        destruct (Hent1 i b) as [Hd _]; apply Hd; lia.
      * destruct (Hent a b) as [Hd _]; apply Hd; lia.
    + intros Hout.
      destruct (Hent a b) as [_ Hsame]; rewrite Hsame by lia.
      destruct (Hent1 a b) as [_ Hsame1]; apply Hsame1; lia.
Qed.

(** Filling a freshly allocated weight matrix leaves every entry drawn. *)
Lemma fill_weight_done (r c : nat) (max : R) (g : rand_state) :
  exists W' g',
    fill_rows rand RAND_MAX (mzero r c) max (mrows (mzero r c)) 0 g
    = Done (W', g') /\
    mshape r c W' /\
    forall a b, (a < r)%nat -> (b < c)%nat ->
                drawn rand RAND_MAX max (mget W' a b).
Proof.
  destruct (@fill_rows_done r c max r 0 (mzero r c) g (mshape_mzero r c))
    as (W' & g' & Hrun & Hsh & Hent); [lia |].
  exists W', g'; split; [exact Hrun |]; split; [exact Hsh |].
  intros a b Ha Hb; destruct (Hent a b) as [Hd _]; apply Hd; lia.
Qed.

(** *** The whole initialisation *)

Lemma init_weights_step (r : weight_ref) (ws : list weight_ref) (s : RNN)
  (g g' : rand_state) (W' : Matrix) (rr cc : nat) :
  get_weight s r = mzero rr cc ->
  fill_rows rand RAND_MAX (mzero rr cc) (init_max LOGISTIC s (mzero rr cc))
    (mrows (mzero rr cc)) 0 g = Done (W', g') ->
  init_weights LOGISTIC rand RAND_MAX (r :: ws) s g
  = init_weights LOGISTIC rand RAND_MAX ws (set_weight s r W') g'.
Proof.
  intros Hg Hf; cbn [init_weights]; rewrite Hg, Hf; reflexivity.
Qed.

(** [CollectAllParameters] has already zeroed what [setZero] zeroes. *)
Lemma zero_biases_collected (s : RNN) :
  zero_biases (biases (snd (CollectAllParameters s)))
    (fst (CollectAllParameters s))
  = fst (CollectAllParameters s).
Proof.
  destruct s as [af L H C uhs Wxh Whh Why bh by0 h0 x h y p].
  destruct uhs; cbn; unfold set_params; cbn;
    rewrite ?vzero_length; reflexivity.
Qed.

Lemma initialize_parameters_done (s : RNN) (g : rand_state) :
  exists E Wxh Whh Why g',
    InitializeParameters LOGISTIC LoadVectorParameter LoadMatrixParameter
      srand rand RAND_MAX s g
    = Done (initialized s E Wxh Whh Why, g') /\
    mshape (GetInputSize s) (GetNumWords (dictionary_ (lookup_layer_ s)) + 1)
      E /\
    mshape (hidden_size_ s) (GetInputSize s) Wxh /\
    mshape (hidden_size_ s) (hidden_size_ s) Whh /\
    mshape (output_size_ s) (hidden_size_ s) Why /\
    forall W, In W [E; Wxh; Whh; Why] ->
      forall i j, (i < mrows W)%nat -> (j < mcols W)%nat ->
        drawn rand RAND_MAX (init_max LOGISTIC s W) (mget W i j).
Proof.
  set (s1 := fst (CollectAllParameters s)).
  destruct (fill_weight_done (GetInputSize s)
              (GetNumWords (dictionary_ (lookup_layer_ s)) + 1)
              (init_max LOGISTIC s1 (mzero (GetInputSize s)
                 (GetNumWords (dictionary_ (lookup_layer_ s)) + 1)))
              (srand 1234))
    as (E & g1 & HE & HsE & HdE).
  destruct (fill_weight_done (hidden_size_ s) (GetInputSize s)
              (init_max LOGISTIC s1
                 (mzero (hidden_size_ s) (GetInputSize s))) g1)
    as (Wxh & g2 & HWxh & HsWxh & HdWxh).
  destruct (fill_weight_done (hidden_size_ s) (hidden_size_ s)
              (init_max LOGISTIC s1
                 (mzero (hidden_size_ s) (hidden_size_ s))) g2)
    as (Whh & g3 & HWhh & HsWhh & HdWhh).
  destruct (fill_weight_done (output_size_ s) (hidden_size_ s)
              (init_max LOGISTIC s1
                 (mzero (output_size_ s) (hidden_size_ s))) g3)
    as (Why & g4 & HWhy & HsWhy & HdWhy).
  exists E, Wxh, Whh, Why, g4.
  split.
  - unfold InitializeParameters.
    rewrite (surjective_pairing (CollectAllParameters s)).
    cbv iota beta.
    rewrite zero_biases_collected; fold s1.
    change (weights (snd (CollectAllParameters s)))
      with [Ref_E; Ref_Wxh; Ref_Whh; Ref_Why].
    erewrite init_weights_step; [| reflexivity | exact HE].
    erewrite init_weights_step; [| reflexivity | exact HWxh].
    erewrite init_weights_step; [| reflexivity | exact HWhh].
    erewrite init_weights_step; [| reflexivity | exact HWhy].
    reflexivity.
  - repeat (split; [assumption |]).
    assert (Hmax : forall rr cc W, mshape rr cc W ->
              init_max LOGISTIC s W = init_max LOGISTIC s1 (mzero rr cc)).
    { intros rr cc W (Hr & Hc & _); unfold init_max.
      cbn [mrows]; rewrite mcols_mzero, Hr, Hc; reflexivity. }
    intros W [<-|[<-|[<-|[<-|[]]]]] i j Hi Hj.
    + rewrite (Hmax _ _ _ HsE); destruct HsE as (Hr & Hc & _).
      apply HdE; lia.
    + rewrite (Hmax _ _ _ HsWxh); destruct HsWxh as (Hr & Hc & _).
      apply HdWxh; lia.
    + rewrite (Hmax _ _ _ HsWhh); destruct HsWhh as (Hr & Hc & _).
      apply HdWhh; lia.
    + rewrite (Hmax _ _ _ HsWhy); destruct HsWhy as (Hr & Hc & _).
      apply HdWhy; lia.
Qed.

(** Initialisation reads the configuration of the cell only. *)
Lemma collect_initialized (s : RNN) (E Wxh Whh Why : Matrix) :
  CollectAllParameters (initialized s E Wxh Whh Why)
  = CollectAllParameters s.
Proof.
  destruct s as [af L H C uhs Wxh0 Whh0 Why0 bh by0 h0 x h y p].
  destruct uhs; reflexivity.
Qed.

Lemma initialize_again (s : RNN) (E Wxh Whh Why : Matrix)
  (g g2 : rand_state) :
  InitializeParameters LOGISTIC LoadVectorParameter LoadMatrixParameter
    srand rand RAND_MAX (initialized s E Wxh Whh Why) g2
  = InitializeParameters LOGISTIC LoadVectorParameter LoadMatrixParameter
      srand rand RAND_MAX s g.
Proof.
  unfold InitializeParameters; now rewrite collect_initialized.
Qed.

Lemma initialized_well_shaped (s : RNN) (E Wxh Whh Why : Matrix) :
  mshape (GetInputSize s) (GetNumWords (dictionary_ (lookup_layer_ s)) + 1)
    E ->
  mshape (hidden_size_ s) (GetInputSize s) Wxh ->
  mshape (hidden_size_ s) (hidden_size_ s) Whh ->
  mshape (output_size_ s) (hidden_size_ s) Why ->
  well_shaped (initialized s E Wxh Whh Why).
Proof.
  intros HE HWxh HWhh HWhy.
  unfold well_shaped, lookup_shaped, initialized, GetInputSize in *.
  cbn [lookup_layer_ set_params E_ embedding_dimension_ dictionary_
       hidden_size_ output_size_ Wxh_ Whh_ Why_ bh_ by_ h0_
       use_hidden_start_].
  repeat (split; [first [assumption | apply vzero_length] |]).
  intros ->; apply vzero_length.
Qed.

(** C8.  [InitializeParameters] completes; it leaves [bh], [by] and (when
    registered) [h0] zero, and every entry of every registered weight
    matrix, the embedding matrix included, is
    [max * (2 rand() / RAND_MAX - 1)] for one call of [rand()], hence in
    [[-max, max]], where [max = c * sqrt(6 / (fan_in + fan_out))] with
    [fan_in] the columns and [fan_out] the rows of the matrix, [c = 4]
    for the logistic activation and [c = 1] otherwise.  The outcome does
    not depend on the state of the generator at the call, which is
    reseeded, nor on the parameters before the call: a second call gives
    the same parameters. *)
Theorem initialize_parameters_spec (s : RNN) (g : rand_state) :
  exists s' g',
    InitializeParameters LOGISTIC LoadVectorParameter LoadMatrixParameter
      srand rand RAND_MAX s g = Done (s', g') /\
    bh_ s' = vzero (hidden_size_ s) /\
    by_ s' = vzero (output_size_ s) /\
    (use_hidden_start_ s = true -> h0_ s' = vzero (hidden_size_ s)) /\
    well_shaped s' /\
    (forall r : weight_ref,
        let W := get_weight s' r in
        let fan_in := mcols W in
        let fan_out := mrows W in
        let c := if (activation_function_ s =? LOGISTIC)%Z then 4 else 1 in
        let max := c * sqrt (6 / INR (fan_in + fan_out)) in
        forall i j,
          (i < fan_out)%nat -> (j < fan_in)%nat ->
          drawn rand RAND_MAX max (mget W i j) /\
          - max <= mget W i j <= max) /\
    (forall g2,
        InitializeParameters LOGISTIC LoadVectorParameter LoadMatrixParameter
          srand rand RAND_MAX s g2 = Done (s', g')) /\
    (forall g2,
        InitializeParameters LOGISTIC LoadVectorParameter LoadMatrixParameter
          srand rand RAND_MAX s' g2 = Done (s', g')).
Proof.
  destruct (initialize_parameters_done s g)
    as (E & Wxh & Whh & Why & g' & Hrun & HsE & HsWxh & HsWhh & HsWhy & Hd).
  exists (initialized s E Wxh Whh Why), g'.
  split; [exact Hrun |].
  split; [reflexivity |].
  split; [reflexivity |].
  split; [intros Hu; unfold initialized; cbn [h0_ set_params];
          now rewrite Hu |].
  split; [apply initialized_well_shaped; assumption |].
  split; [| split].
  - intros r W fan_in fan_out c max i j Hi Hj.
    assert (HW : In W [E; Wxh; Whh; Why])
      by (subst W; destruct r; cbn; auto).
    assert (Hdr : drawn rand RAND_MAX max (mget W i j))
      by (exact (Hd W HW i j Hi Hj)).
    split; [exact Hdr |].
    apply drawn_bounds; [| exact Hdr].
    exact (init_max_nonneg s W).
  - intros g2; exact Hrun.
  - intros g2; rewrite (initialize_again s E Wxh Whh Why g g2); exact Hrun.
Qed.

End Initialization.

Lemma lcg_rand_range (g : Z) :
  (0 <= fst (Example.lcg_rand g) <= Example.lcg_RAND_MAX)%Z.
Proof.
  unfold Example.lcg_rand, Example.lcg_RAND_MAX; cbn [fst].
  pose proof (Z.mod_pos_bound (1103515245 * g + 12345) 2147483648); lia.
Qed.

Lemma initialize_parameters_spec_witness :
  (0 < Example.lcg_RAND_MAX)%Z /\
  (forall g, (0 <= fst (Example.lcg_rand g) <= Example.lcg_RAND_MAX)%Z) /\
  exists s' g',
    InitializeParameters 1 Example.keep_vector Example.keep_matrix
      Example.lcg_srand Example.lcg_rand Example.lcg_RAND_MAX
      Example.cell 0%Z = Done (s', g') /\
    bh_ s' = [0; 0] /\
    well_shaped s'.
Proof.
  assert (Hpos : (0 < Example.lcg_RAND_MAX)%Z) by reflexivity.
  split; [exact Hpos |]; split; [exact lcg_rand_range |].
  destruct (@initialize_parameters_spec 1 Example.keep_vector
              Example.keep_matrix Z Example.lcg_srand Example.lcg_rand
              Example.lcg_RAND_MAX Hpos lcg_rand_range Example.cell 0%Z)
    as (s' & g' & Hrun & Hbh & _ & _ & Hws & _).
  exists s', g'; split; [exact Hrun |]; split; [exact Hbh | exact Hws].
Defined.

(** ** The gradient with respect to [Whh] *)

Lemma probe_well_shaped (theta : R) : well_shaped (Probe.cell theta).
Proof.
  unfold well_shaped, lookup_shaped, mshape; simpl.
  repeat split; repeat constructor.
Qed.

Lemma probe_valid (theta : R) :
  valid_ids (lookup_layer_ (Probe.cell theta)) Probe.sentence.
Proof. repeat constructor; simpl; lia. Qed.

Lemma probe_hidden (theta : R) :
  hidden_spec Evaluate_logistic (Probe.cell theta) (mkMatrix 1 [[0]]) 0
  = [logistic theta].
Proof. cbn; do 2 f_equal; ring. Qed.

Lemma probe_forward (theta : R) :
  RunForwardPass Evaluate_logistic (Probe.cell theta) Probe.sentence
  = Done (set_trace (Probe.cell theta) (mkMatrix 1 [[0]])
            (mkMatrix 1 [[logistic theta]]) [logistic theta; 0]
            (probabilities_spec [logistic theta; 0])).
Proof.
  rewrite forward_pass_returns
    by (first [apply probe_well_shaped | apply probe_valid | discriminate]).
  change (mkMatrix (GetInputSize (Probe.cell theta))
            (map (looked_up (E_ (lookup_layer_ (Probe.cell theta))))
               Probe.sentence))
    with (mkMatrix 1 [[0]]).
  unfold hidden_matrix_spec, logits_spec.
  cbn [length Probe.sentence seq map Nat.sub].
  rewrite probe_hidden.
  assert (Hy : vadd (mat_vec (Why_ (Probe.cell theta)) [logistic theta])
                 (by_ (Probe.cell theta)) = [logistic theta; 0])
    by (cbn; f_equal; [ring | f_equal; ring]).
  rewrite Hy; reflexivity.
Qed.

Lemma logistic_range (x : R) : 0 < logistic x < 1.
Proof.
  unfold logistic; pose proof (exp_pos (- x)) as He.
  assert (Hd : 0 < 1 + exp (- x)) by lra.
  split.
  - apply Rdiv_lt_0_compat; lra.
  - apply (Rmult_lt_reg_r (1 + exp (- x))); [exact Hd |].
    unfold Rdiv; rewrite Rmult_assoc, Rinv_l by lra; lra.
Qed.

Lemma vget_head (a : R) (l : Vector) : vget (a :: l) 0 = Done a.
Proof. reflexivity. Qed.

(** The loss of the probe in closed form. *)
Lemma probe_loss (theta : R) :
  loss Evaluate_logistic (Probe.cell theta) Probe.sentence 0
  = Done (ln (1 + exp (- logistic theta))).
Proof.
  unfold loss; rewrite probe_forward; cbn [bind p_ set_trace].
  unfold probabilities_spec; cbn [map].
  rewrite vget_head; cbn [bind]; f_equal.
  rewrite ln_exp.
  unfold LogSumExp, vmax; cbn [fold_left map rsum fold_right].
  pose proof (logistic_range theta) as [Hlo _].
  rewrite Rmax_left by lra.
  replace (logistic theta - logistic theta) with 0 by ring.
  rewrite exp_0.
  replace (0 - logistic theta) with (- logistic theta) by ring.
  replace (1 + (exp (- logistic theta) + 0))
    with (1 + exp (- logistic theta)) by ring.
  ring.
Qed.

Lemma probe_loss_of (theta : R) :
  Probe.loss_of theta = ln (1 + exp (- logistic theta)).
Proof. unfold Probe.loss_of; now rewrite probe_loss. Qed.

(** The derivative of the sigmoid, at its own value. *)
Lemma logistic_derivable (x : R) :
  derivable_pt_lim logistic x (logistic_derivative (logistic x)).
Proof.
  pose proof (exp_pos (- x)) as He.
  assert (Hden : derivable_pt_lim (fun z => 1 + exp (- z)) x (- exp (- x))).
  { apply (derivable_pt_lim_ext
             (fun z => (fct_cte 1 + comp exp (opp_fct id))%F z));
      [intros z; reflexivity |].
    replace (- exp (- x)) with (0 + exp (- x) * - 1) by ring.
    apply derivable_pt_lim_plus; [apply derivable_pt_lim_const |].
    apply derivable_pt_lim_comp;
      [apply derivable_pt_lim_opp, derivable_pt_lim_id |
       apply derivable_pt_lim_exp]. }
  apply (derivable_pt_lim_ext
           (div_fct (fct_cte 1) (fun y => 1 + exp (- y))));
    [intros z; reflexivity |].
  replace (logistic_derivative (logistic x))
    with ((0 * (1 + exp (- x)) - - exp (- x) * fct_cte 1 x)
          / Rsqr (1 + exp (- x)))
    by (unfold logistic_derivative, logistic, fct_cte, Rsqr; field; lra).
  apply (derivable_pt_lim_div (fct_cte 1) (fun y => 1 + exp (- y)) x
           0 (- exp (- x)));
    [apply derivable_pt_lim_const | exact Hden | lra].
Qed.

Lemma probe_loss_derivable (theta : R) :
  derivable_pt_lim Probe.loss_of theta
    (/ (1 + exp (- logistic theta))
     * (exp (- logistic theta)
        * - logistic_derivative (logistic theta))).
Proof.
  apply (derivable_pt_lim_ext
           (fun z => comp ln (fct_cte 1 + comp exp (opp_fct logistic))%F z));
    [intros z; symmetry; apply probe_loss_of |].
  apply derivable_pt_lim_comp.
  - replace (exp (- logistic theta) * - logistic_derivative (logistic theta))
      with (0 + exp (- logistic theta)
                * - logistic_derivative (logistic theta)) by ring.
    apply derivable_pt_lim_plus; [apply derivable_pt_lim_const |].
    apply derivable_pt_lim_comp;
      [apply derivable_pt_lim_opp, logistic_derivable |
       apply derivable_pt_lim_exp].
  - apply derivable_pt_lim_ln.
    unfold plus_fct, fct_cte, comp, opp_fct.
    pose proof (exp_pos (- logistic theta)); lra.
Qed.

(** C2, at a one-step sequence with a non-zero initial state.  The
    backward pass leaves the accumulator [dWhh] at zero (its only step is
    [t = 0], which the guard [t > 0] skips), while the loss, as a function
    of the entry of [Whh], has a strictly negative derivative there: the
    accumulated [dWhh] is not the partial derivative of the loss. *)
Theorem gradient_check_fails_for_Whh :
  exists s1 g,
    RunForwardPass Evaluate_logistic (Probe.cell 0) Probe.sentence = Done s1 /\
    backward_gradients Derivate_logistic s1 Probe.sentence 0 = Done g /\
    dWhh (g_loop g) = mkMatrix 1 [[0]] /\
    (forall theta,
        loss Evaluate_logistic (Probe.cell theta) Probe.sentence 0
        = Done (Probe.loss_of theta)) /\
    (exists d, derivable_pt_lim Probe.loss_of 0 d /\ d < 0) /\
    ~ derivable_pt_lim Probe.loss_of 0 (mget (dWhh (g_loop g)) 0 0).
Proof.
  pose proof (probe_loss_derivable 0) as Hd.
  set (d := / (1 + exp (- logistic 0))
            * (exp (- logistic 0) * - logistic_derivative (logistic 0)))
    in Hd.
  assert (Hneg : d < 0).
  { pose proof (logistic_range 0) as [Hlo Hhi].
    pose proof (exp_pos (- logistic 0)) as He.
    assert (Hq : 0 < / (1 + exp (- logistic 0)))
      by (apply Rinv_0_lt_compat; lra).
    assert (Hs : 0 < logistic_derivative (logistic 0))
      by (unfold logistic_derivative; nra).
    pose proof (Rmult_lt_0_compat _ _ Hq (Rmult_lt_0_compat _ _ He Hs))
      as Hpos.
    replace d
      with (- (/ (1 + exp (- logistic 0))
               * (exp (- logistic 0) * logistic_derivative (logistic 0))))
      by (unfold d; ring).
    lra. }
  eexists; eexists.
  split; [apply probe_forward |].
  split.
  - apply backward_gradients_done;
      first [discriminate | reflexivity | simpl; lia].
  - split; [reflexivity |].
    split; [intros theta; rewrite probe_loss; f_equal;
            symmetry; apply probe_loss_of |].
    split; [exists d; split; assumption |].
    intros H0.
    change (mget (dWhh (g_loop (gradients_spec Derivate_logistic
              (set_trace (Probe.cell 0) (mkMatrix 1 [[0]])
                 (mkMatrix 1 [[logistic 0]]) [logistic 0; 0]
                 (probabilities_spec [logistic 0; 0]))
              (length Probe.sentence) 0))) 0 0)
      with 0 in H0.
    pose proof (uniqueness_limite _ _ _ _ Hd H0); lra.
Qed.

(** For a one-step sequence the gradient into [h0] is [Whh^T draw] of the
    single step, [draw] being [Derivative(h[:,0]) (.) Why^T dy]. *)
Lemma single_step_h0_gradient (DerivateActivation : Z -> Vector -> Vector)
  (s : RNN) (label : Z) :
  dhnext (g_loop (gradients_spec DerivateActivation s 1 label))
  = mat_tvec (Whh_ s)
      (vmul (DerivateActivation (activation_function_ s) (h_col s 0))
            (mat_tvec (Why_ s) (dy_spec s label))).
Proof. reflexivity. Qed.

(** ** The accumulated gradients against the loss *)

(** ** Entries of vector operations *)

Lemma nth_vzip (f : R -> R -> R) (a b : Vector) (i : nat) :
  (i < length a)%nat -> (i < length b)%nat ->
  nth i (vzip f a b) 0 = f (nth i a 0) (nth i b 0).
Proof.
  revert b i; induction a as [|x a IH]; intros [|y b] [|i]; simpl;
    intros Ha Hb; try lia; auto.
  apply IH; lia.
Qed.

Lemma nth_vscale (c : R) (v : Vector) (i : nat) :
  nth i (vscale c v) 0 = c * nth i v 0.
Proof.
  unfold vscale; revert i; induction v as [|x v IH]; intros [|i]; simpl;
    try ring; auto.
Qed.

Lemma nth_map_in (f : R -> R) (v : Vector) (i : nat) :
  (i < length v)%nat -> nth i (map f v) 0 = f (nth i v 0).
Proof.
  revert i; induction v as [|x v IH]; intros [|i]; simpl; intros H;
    try lia; auto.
  apply IH; lia.
Qed.

Lemma rsum_app (a b : list R) : rsum (a ++ b) = rsum a + rsum b.
Proof. induction a as [|x a IH]; simpl; [ring | rewrite IH; ring]. Qed.

Lemma rsum_map_plus {A : Type} (f g : A -> R) (l : list A) :
  rsum (map (fun i => f i + g i) l) = rsum (map f l) + rsum (map g l).
Proof. induction l as [|x l IH]; simpl; [ring | rewrite IH; ring]. Qed.

Lemma rsum_map_scal {A : Type} (c : R) (f : A -> R) (l : list A) :
  rsum (map (fun i => c * f i) l) = c * rsum (map f l).
Proof. induction l as [|x l IH]; simpl; [ring | rewrite IH; ring]. Qed.

Lemma rsum_map_ext {A : Type} (f g : A -> R) (l : list A) :
  (forall i, In i l -> f i = g i) ->
  rsum (map f l) = rsum (map g l).
Proof.
  intros H; f_equal; apply map_ext_in; exact H.
Qed.

Lemma rsum_swap {A B : Type} (f : A -> B -> R) (la : list A) (lb : list B) :
  rsum (map (fun a => rsum (map (fun b => f a b) lb)) la)
  = rsum (map (fun b => rsum (map (fun a => f a b) la)) lb).
Proof.
  induction la as [|a la IH]; simpl.
  - induction lb as [|b lb IHb]; simpl; [reflexivity | rewrite <- IHb; ring].
  - rewrite IH, <- rsum_map_plus; reflexivity.
Qed.

(** A list is the list of its entries. *)
Lemma list_index (v : Vector) :
  v = map (fun i => nth i v 0) (seq 0 (length v)).
Proof.
  induction v as [|x v IH]; simpl; [reflexivity |].
  f_equal; rewrite <- seq_shift, map_map; exact IH.
Qed.

Lemma dot_index (n : nat) (a b : Vector) :
  length a = n -> length b = n ->
  dot a b = rsum (map (fun i => nth i a 0 * nth i b 0) (seq 0 n)).
Proof.
  revert n b; induction a as [|x a IH]; intros n [|y b] Ha Hb;
    simpl in *; subst n; try discriminate; [reflexivity |].
  unfold dot, vmul in *; simpl.
  rewrite <- seq_shift, map_map; f_equal.
  apply IH; [reflexivity | lia].
Qed.

Lemma vector_ext (n : nat) (a b : Vector) :
  length a = n -> length b = n ->
  (forall i, (i < n)%nat -> nth i a 0 = nth i b 0) -> a = b.
Proof.
  revert n b; induction a as [|x a IH]; intros n [|y b] Ha Hb H;
    simpl in *; subst n; try discriminate; [reflexivity |].
  f_equal; [apply (H 0%nat); lia |].
  apply (IH (length a)); [reflexivity | lia |].
  intros i Hi; apply (H (S i)); lia.
Qed.

(** ** Differentiating finite sums and vectors *)

Lemma derivable_rsum_map (idx : list nat) (f : nat -> R -> R)
  (l : nat -> R) (x : R) :
  (forall i, In i idx -> derivable_pt_lim (f i) x (l i)) ->
  derivable_pt_lim (fun theta => rsum (map (fun i => f i theta) idx)) x
    (rsum (map l idx)).
Proof.
  induction idx as [|i idx IH]; intros H; simpl.
  - apply (derivable_pt_lim_const 0).
  - apply (derivable_pt_lim_plus (f i)
             (fun theta => rsum (map (fun j => f j theta) idx))).
    + apply H; left; reflexivity.
    + apply IH; intros j Hj; apply H; right; exact Hj.
Qed.


Lemma derivable_value (l : R) (f : R -> R) (x l' : R) :
  l = l' -> derivable_pt_lim f x l -> derivable_pt_lim f x l'.
Proof. now intros ->. Qed.

Lemma derivable_dot (n : nat) (F G : R -> Vector) (L M : Vector) :
  vderiv n F L -> vderiv n G M ->
  derivable_pt_lim (fun theta => dot (F theta) (G theta)) 0
    (dot L (G 0) + dot (F 0) M).
Proof.
  intros (HF & HL & HdF) (HG & HM & HdG).
  apply (derivable_pt_lim_ext
           (fun theta =>
              rsum (map (fun i => nth i (F theta) 0 * nth i (G theta) 0)
                        (seq 0 n))));
    [intros theta; symmetry; apply dot_index; auto |].
  rewrite (dot_index (n := n) L (G 0)), (dot_index (n := n) (F 0) M),
    <- rsum_map_plus by auto.
  apply (derivable_rsum_map (seq 0 n)
           (fun i theta => nth i (F theta) 0 * nth i (G theta) 0)
           (fun i => nth i L 0 * nth i (G 0) 0 + nth i (F 0) 0 * nth i M 0)).
  intros i Hi; apply in_seq in Hi.
  apply (derivable_pt_lim_mult (fun theta => nth i (F theta) 0)
           (fun theta => nth i (G theta) 0));
    [apply HdF | apply HdG]; lia.
Qed.

Lemma vderiv_const (n : nat) (v : Vector) :
  length v = n -> vderiv n (fun _ => v) (vzero n).
Proof.
  intros Hv; split; [auto |]; split; [apply vzero_length |].
  intros i Hi.
  replace (nth i (vzero n) 0) with 0
    by (unfold vzero; now rewrite nth_repeat).
  apply (derivable_pt_lim_const (nth i v 0)).
Qed.

Lemma vderiv_affine (n : nat) (v a : Vector) :
  length v = n -> length a = n ->
  vderiv n (fun theta => vadd v (vscale theta a)) a.
Proof.
  intros Hv Ha; split; [| split; [exact Ha |]].
  - intros theta; unfold vadd; rewrite vzip_length, vscale_length; lia.
  - intros i Hi.
    apply (derivable_pt_lim_ext
             (fun theta => nth i v 0 + theta * nth i a 0)).
    + intros theta; unfold vadd; rewrite nth_vzip, nth_vscale;
        [reflexivity | lia | rewrite vscale_length; lia].
    + apply derivable_value with (l := 0 + (1 * nth i a 0 + 0 * 0));
        [ring |].
      apply (derivable_pt_lim_plus (fct_cte (nth i v 0))
               (fun theta => theta * nth i a 0) 0 0
               (1 * nth i a 0 + 0 * 0));
        [apply derivable_pt_lim_const |].
      apply (derivable_pt_lim_mult id (fct_cte (nth i a 0)) 0 1 0);
        [apply derivable_pt_lim_id | apply derivable_pt_lim_const].
Qed.

Lemma vderiv_vadd (n : nat) (F G : R -> Vector) (L M : Vector) :
  vderiv n F L -> vderiv n G M ->
  vderiv n (fun theta => vadd (F theta) (G theta)) (vadd L M).
Proof.
  intros (HF & HL & HdF) (HG & HM & HdG).
  split; [| split].
  - intros theta; unfold vadd; rewrite vzip_length, HF, HG; lia.
  - unfold vadd; rewrite vzip_length, HL, HM; lia.
  - intros i Hi.
    apply (derivable_pt_lim_ext
             (fun theta => nth i (F theta) 0 + nth i (G theta) 0)).
    + intros theta; unfold vadd; rewrite nth_vzip;
        [reflexivity | rewrite HF; lia | rewrite HG; lia].
    + unfold vadd; rewrite nth_vzip by lia.
      apply (derivable_pt_lim_plus (fun theta => nth i (F theta) 0)
               (fun theta => nth i (G theta) 0)); auto.
Qed.

Lemma vderiv_ext (n : nat) (F G : R -> Vector) (L : Vector) :
  (forall theta, F theta = G theta) -> vderiv n F L -> vderiv n G L.
Proof.
  intros Heq (HF & HL & HdF); split; [| split; [exact HL |]].
  - intros theta; rewrite <- Heq; apply HF.
  - intros i Hi.
    apply (derivable_pt_lim_ext (fun theta => nth i (F theta) 0));
      [intros theta; now rewrite Heq | auto].
Qed.

Section Activation.

Variable act : R -> R.
Variable dact : R -> R.
Hypothesis act_derivable :
  forall x, derivable_pt_lim act x (dact (act x)).

Lemma vderiv_map_act (n : nat) (F : R -> Vector) (L : Vector) :
  vderiv n F L ->
  vderiv n (fun theta => map act (F theta))
    (vmul (map dact (map act (F 0))) L).
Proof.
  intros (HF & HL & HdF); split; [| split].
  - intros theta; now rewrite length_map.
  - unfold vmul; rewrite vzip_length, !length_map, HF, HL; lia.
  - intros i Hi.
    apply (derivable_pt_lim_ext
             (fun theta => comp act (fun z => nth i (F z) 0) theta)).
    + intros theta; unfold comp; symmetry; apply nth_map_in.
      rewrite HF; exact Hi.
    + unfold vmul; rewrite nth_vzip
        by (rewrite ?length_map, ?HF, ?HL; lia).
      rewrite !nth_map_in by (rewrite ?length_map, HF; lia).
      apply derivable_pt_lim_comp; [apply HdF; exact Hi |].
      apply act_derivable.
Qed.

End Activation.

(** ** Rows of a matrix *)

Lemma nth_map_seq (f : nat -> R) (n i : nat) :
  (i < n)%nat -> nth i (map f (seq 0 n)) 0 = f i.
Proof.
  intros Hi.
  rewrite (nth_indep _ 0 (f 0%nat)) by (rewrite length_map, length_seq; lia).
  now rewrite map_nth, seq_nth by lia.
Qed.

Lemma nth_mat_vec (M : Matrix) (v : Vector) (i : nat) :
  (i < mrows M)%nat -> nth i (mat_vec M v) 0 = dot (mrow M i) v.
Proof. intros Hi; unfold mat_vec; now rewrite nth_map_seq. Qed.

Lemma mrow_length (M : Matrix) (i : nat) : length (mrow M i) = mcols M.
Proof. unfold mrow; apply length_map. Qed.

Lemma nth_mrow (M : Matrix) (i j : nat) :
  (j < mcols M)%nat -> nth j (mrow M i) 0 = mget M i j.
Proof.
  intros Hj; unfold mrow, mget.
  rewrite (nth_indep _ 0 (nth i [] 0)) by (rewrite length_map; exact Hj).
  now rewrite (map_nth (fun c => nth i c 0)).
Qed.

Lemma vadd_vscale_0 (v a : Vector) :
  length v = length a -> vadd v (vscale 0 a) = v.
Proof.
  revert a; induction v as [|x v IH]; intros [|y a] H; simpl in *;
    try discriminate; [reflexivity |].
  unfold vadd, vscale in *; simpl; rewrite IH by lia; f_equal; ring.
Qed.

Lemma mrow_perturbed (r : nat) (theta : R) (i : nat) (a b : list Vector) :
  length a = length b ->
  Forall (fun v => length v = r) a ->
  Forall (fun v => length v = r) b ->
  (i < r)%nat ->
  map (fun c => nth i c 0) (czip vadd a (map (vscale theta) b))
  = vadd (map (fun c => nth i c 0) a)
         (vscale theta (map (fun c => nth i c 0) b)).
Proof.
  revert b; induction a as [|x a IH]; intros [|y b] Hlen Ha Hb Hi;
    simpl in *; try discriminate; [reflexivity |].
  inversion Ha as [|? ? Hx Ha']; inversion Hb as [|? ? Hy Hb']; subst.
  transitivity
    ((nth i x 0 + theta * nth i y 0)
     :: vadd (map (fun c => nth i c 0) a)
             (vscale theta (map (fun c => nth i c 0) b)));
    [| reflexivity].
  f_equal.
  - unfold vadd; rewrite nth_vzip, nth_vscale;
      [reflexivity | lia | rewrite vscale_length; lia].
  - apply IH; auto.
Qed.

Lemma mrow_madd_mscale (r c : nat) (M A : Matrix) (theta : R) (i : nat) :
  mshape r c M -> mshape r c A -> (i < r)%nat ->
  mrow (madd M (mscale theta A)) i
  = vadd (mrow M i) (vscale theta (mrow A i)).
Proof.
  intros (_ & HcM & HM) (_ & HcA & HA) Hi.
  unfold mrow, madd, mscale; cbn [mdata].
  apply (mrow_perturbed (r := r)); auto.
  unfold mcols in *; congruence.
Qed.

Lemma madd_mscale_0 (r c : nat) (M A : Matrix) :
  mshape r c M -> mshape r c A -> madd M (mscale 0 A) = M.
Proof.
  intros (_ & HcM & HM) (_ & HcA & HA).
  destruct M as [rm a], A as [ra b]; unfold madd, mscale, mcols in *;
    cbn [mrows mdata] in *; f_equal.
  assert (Hlen : length a = length b) by congruence; clear HcM HcA.
  revert b Hlen HA; induction a as [|x a IH]; intros [|y b] Hlen HA;
    simpl in *; try discriminate; [reflexivity |].
  inversion HM; inversion HA; subst.
  f_equal; [apply vadd_vscale_0; congruence | apply IH; auto].
Qed.

Lemma czip_perturbed_shape (r : nat) (theta : R) (a b : list Vector) :
  length a = length b ->
  Forall (fun v => length v = r) a ->
  Forall (fun v => length v = r) b ->
  length (czip vadd a (map (vscale theta) b)) = length a /\
  Forall (fun v => length v = r) (czip vadd a (map (vscale theta) b)).
Proof.
  revert b; induction a as [|x a IH]; intros [|y b] Hlen Ha Hb;
    simpl in *; try discriminate; [split; [reflexivity | constructor] |].
  inversion Ha as [|? ? Hx Ha']; inversion Hb as [|? ? Hy Hb']; subst.
  destruct (IH b) as [Hl Hf]; auto.
  split; [now rewrite Hl |].
  constructor; [| exact Hf].
  unfold vadd; rewrite vzip_length, vscale_length; lia.
Qed.

Lemma mshape_perturbed (r c : nat) (M A : Matrix) (theta : R) :
  mshape r c M -> mshape r c A -> mshape r c (madd M (mscale theta A)).
Proof.
  intros (HrM & HcM & HM) (_ & HcA & HA).
  unfold mcols in *.
  destruct (@czip_perturbed_shape r theta (mdata M) (mdata A))
    as [Hl Hf]; auto; [congruence |].
  split; [exact HrM |]; split; [| exact Hf].
  unfold mcols, madd, mscale; cbn [mdata]; congruence.
Qed.

(** ** Differentiating a matrix-vector product *)

Lemma vderiv_mat_vec (r c : nat) (M A : Matrix) (F : R -> Vector)
  (L : Vector) :
  mshape r c M -> mshape r c A -> vderiv c F L ->
  vderiv r (fun theta => mat_vec (madd M (mscale theta A)) (F theta))
    (vadd (mat_vec A (F 0)) (mat_vec M L)).
Proof.
  intros HM HA HF.
  pose proof HM as (HrM & HcM & _); pose proof HA as (HrA & HcA & _).
  split; [| split].
  - intros theta; rewrite mat_vec_length; exact HrM.
  - unfold vadd; rewrite vzip_length, !mat_vec_length; lia.
  - intros i Hi.
    apply (derivable_pt_lim_ext
             (fun theta =>
                dot (vadd (mrow M i) (vscale theta (mrow A i))) (F theta))).
    + intros theta; rewrite nth_mat_vec by (cbn [madd mrows]; lia).
      now rewrite (mrow_madd_mscale theta HM HA Hi).
    + apply derivable_value
        with (l := dot (mrow A i) (F 0)
                   + dot (vadd (mrow M i) (vscale 0 (mrow A i))) L).
      { rewrite vadd_vscale_0 by (rewrite !mrow_length; lia).
        unfold vadd; rewrite nth_vzip by (rewrite mat_vec_length; lia).
        now rewrite !nth_mat_vec by lia. }
      apply (derivable_dot (n := c)); [| exact HF].
      apply vderiv_affine; rewrite mrow_length; assumption.
Qed.

Lemma mat_vec_vzero (r c : nat) (M : Matrix) :
  mshape r c M -> mat_vec M (vzero c) = vzero r.
Proof.
  intros (Hr & Hc & _).
  apply (vector_ext (n := r));
    [rewrite mat_vec_length; exact Hr | apply vzero_length |].
  intros i Hi; rewrite nth_mat_vec by lia.
  unfold vzero at 2; rewrite nth_repeat.
  rewrite (dot_index (n := c)) by (rewrite ?mrow_length, ?vzero_length; auto).
  rewrite (rsum_map_ext _ (fun _ => 0 * 0)).
  - rewrite rsum_map_scal; ring.
  - intros j _; unfold vzero; rewrite nth_repeat; ring.
Qed.

Lemma vadd_vzero_r (n : nat) (a : Vector) :
  length a = n -> vadd a (vzero n) = a.
Proof.
  revert n; induction a as [|x a IH]; intros [|n] H; simpl in *;
    try reflexivity; try discriminate.
  unfold vadd, vzero in *; simpl; rewrite IH by lia; f_equal; ring.
Qed.

Lemma vderiv_mat_vec_const (r c : nat) (M A : Matrix) (v : Vector) :
  mshape r c M -> mshape r c A -> length v = c ->
  vderiv r (fun theta => mat_vec (madd M (mscale theta A)) v) (mat_vec A v).
Proof.
  intros HM HA Hv.
  pose proof (vderiv_mat_vec HM HA (@vderiv_const c v Hv)) as H.
  cbv beta in H.
  rewrite (mat_vec_vzero HM), vadd_vzero_r in H
    by (rewrite mat_vec_length; apply HA).
  exact H.
Qed.

(** ** The cell along a direction *)

Lemma vderiv_value (n : nat) (F : R -> Vector) (L L' : Vector) :
  L = L' -> vderiv n F L -> vderiv n F L'.
Proof. now intros ->. Qed.

Lemma perturb_0 (s : RNN) (D : directions) :
  well_shaped s -> directions_shaped s D -> perturb s D 0 = s.
Proof.
  intros (_ & HWxh & HWhh & HWhy & Hbh & Hby & Hh0)
         (HdWxh & HdWhh & HdWhy & Hdbh & Hdby & Hdh0).
  unfold perturb.
  rewrite (madd_mscale_0 HWxh HdWxh), (madd_mscale_0 HWhh HdWhh),
    (madd_mscale_0 HWhy HdWhy), !vadd_vscale_0 by congruence.
  destruct s as [af L H C uhs Wxh Whh Why bh by0 h0 x h y p].
  cbn in *; unfold set_params; cbn.
  destruct uhs; [rewrite vadd_vscale_0 by (rewrite Hh0; auto) |];
    reflexivity.
Qed.

Section Tangent.

Variable act : R -> R.
Variable dact : R -> R.
Hypothesis act_derivable :
  forall x, derivable_pt_lim act x (dact (act x)).

Variable s : RNN.
Variable D : directions.
Variable X : Matrix.
Variable T : nat.

Hypothesis s_shaped : well_shaped s.
Hypothesis D_shaped : directions_shaped s D.
Hypothesis X_columns :
  forall t, (t < T)%nat -> length (nth t (mdata X) []) = GetInputSize s.

Lemma start_vderiv :
  vderiv (hidden_size_ s)
    (fun theta => h_start (perturb s D theta)) (start_tangent s D).
Proof.
  destruct s_shaped as (_ & _ & (HrWhh & _) & _ & _ & _ & Hh0).
  destruct D_shaped as (_ & _ & _ & _ & _ & Hdh0).
  unfold h_start, start_tangent, perturb;
    cbn [use_hidden_start_ h0_ Whh_ set_params madd mrows].
  destruct (use_hidden_start_ s) eqn:Hu.
  - apply vderiv_affine; auto.
  - rewrite HrWhh; apply vderiv_const, vzero_length.
Qed.

Lemma hidden_length (s' : RNN) (t : nat) :
  length (hidden_spec (elementwise act) s' X t)
  = Nat.min (Nat.min (mrows (Wxh_ s')) (length (bh_ s'))) (mrows (Whh_ s')).
Proof.
  rewrite hidden_spec_unfold; unfold elementwise.
  now rewrite length_map; unfold vadd;
    rewrite !vzip_length, !mat_vec_length.
Qed.

Lemma hidden_vderiv (t : nat) :
  (t < T)%nat ->
  vderiv (hidden_size_ s)
    (fun theta => hidden_spec (elementwise act) (perturb s D theta) X t)
    (hidden_tangent act dact s D X t).
Proof.
  pose proof s_shaped as (_ & HWxh & HWhh & _ & Hbh & _).
  pose proof D_shaped as (HdWxh & HdWhh & _ & Hdbh & _).
  induction t as [|t IH]; intros Ht.
  - apply vderiv_ext with
      (F := (fun theta =>
                map act
                  (vadd (vadd (mat_vec (madd (Wxh_ s) (mscale theta (d_Wxh D)))
                                 (nth 0 (mdata X) []))
                              (vadd (bh_ s) (vscale theta (d_bh D))))
                        (mat_vec (madd (Whh_ s) (mscale theta (d_Whh D)))
                           (h_start (perturb s D theta))))));
      [intros theta; reflexivity |].
    eapply vderiv_value;
      [| eapply (@vderiv_map_act _ _ act_derivable);
         eapply vderiv_vadd;
         [eapply vderiv_vadd;
          [eapply vderiv_mat_vec_const;
           [exact HWxh | exact HdWxh | apply X_columns; lia]
          | apply vderiv_affine; assumption]
         | eapply vderiv_mat_vec;
           [exact HWhh | exact HdWhh | apply start_vderiv]]].
    cbv beta.
    rewrite (madd_mscale_0 HWxh HdWxh), (madd_mscale_0 HWhh HdWhh),
      vadd_vscale_0, (perturb_0 s_shaped D_shaped) by congruence.
    reflexivity.
  - apply vderiv_ext with
      (F := (fun theta =>
                map act
                  (vadd (vadd (mat_vec (madd (Wxh_ s) (mscale theta (d_Wxh D)))
                                 (nth (S t) (mdata X) []))
                              (vadd (bh_ s) (vscale theta (d_bh D))))
                        (mat_vec (madd (Whh_ s) (mscale theta (d_Whh D)))
                           (hidden_spec (elementwise act)
                              (perturb s D theta) X t)))));
      [intros theta; reflexivity |].
    eapply vderiv_value;
      [| eapply (@vderiv_map_act _ _ act_derivable);
         eapply vderiv_vadd;
         [eapply vderiv_vadd;
          [eapply vderiv_mat_vec_const;
           [exact HWxh | exact HdWxh | apply X_columns; lia]
          | apply vderiv_affine; assumption]
         | eapply vderiv_mat_vec;
           [exact HWhh | exact HdWhh | apply IH; lia]]].
    cbv beta.
    rewrite (madd_mscale_0 HWxh HdWxh), (madd_mscale_0 HWhh HdWhh),
      vadd_vscale_0, (perturb_0 s_shaped D_shaped) by congruence.
    reflexivity.
Qed.

End Tangent.

(** ** The loss along a direction *)

Lemma LogSumExp_plain (y : Vector) :
  y <> [] -> LogSumExp y = ln (rsum (map exp y)).
Proof.
  intros Hne; unfold LogSumExp.
  pose proof (rsum_exp_pos (fun x => x) Hne) as Hpos.
  change (map (fun x => exp x) y) with (map exp y) in Hpos.
  rewrite (map_ext (fun yi => exp (yi - vmax y))
             (fun yi => exp yi * exp (- vmax y)))
    by (intros yi; unfold Rminus; apply exp_plus).
  rewrite (rsum_map_scaled exp).
  rewrite ln_mult by (try apply exp_pos; exact Hpos).
  rewrite ln_exp; ring.
Qed.

Lemma probability_plain (y : Vector) (yi : R) :
  y <> [] -> exp (yi - LogSumExp y) = exp yi * / rsum (map exp y).
Proof.
  intros Hne; rewrite (LogSumExp_plain Hne).
  pose proof (rsum_exp_pos (fun x => x) Hne) as Hpos.
  change (map (fun x => exp x) y) with (map exp y) in Hpos.
  unfold Rminus; rewrite exp_plus, exp_Ropp, exp_ln by exact Hpos.
  reflexivity.
Qed.

Lemma map_index (f : R -> R) (v : Vector) :
  map f v = map (fun i => f (nth i v 0)) (seq 0 (length v)).
Proof. rewrite (list_index v) at 1; now rewrite map_map. Qed.

Lemma LogSumExp_derivable (n : nat) (Y : R -> Vector) (L : Vector) :
  vderiv n Y L -> (0 < n)%nat ->
  derivable_pt_lim (fun theta => LogSumExp (Y theta)) 0
    (dot (probabilities_spec (Y 0)) L).
Proof.
  intros (HY & HL & HdY) Hn.
  assert (Hne : forall theta, Y theta <> [])
    by (intros theta Heq; specialize (HY theta); rewrite Heq in HY;
        simpl in HY; lia).
  assert (Hpos : forall theta,
             0 < rsum (map (fun i => exp (nth i (Y theta) 0)) (seq 0 n))).
  { intros theta; rewrite <- (HY theta), <- (map_index exp).
    exact (rsum_exp_pos (fun x => x) (Hne theta)). }
  apply (derivable_pt_lim_ext
           (comp ln
              (fun theta =>
                 rsum (map (fun i => exp (nth i (Y theta) 0)) (seq 0 n))))).
  { intros theta; unfold comp.
    rewrite (LogSumExp_plain (Hne theta)), (map_index exp), HY.
    reflexivity. }
  apply derivable_value
    with (l := / rsum (map (fun i => exp (nth i (Y 0) 0)) (seq 0 n))
               * rsum (map (fun i => exp (nth i (Y 0) 0) * nth i L 0)
                           (seq 0 n))).
  { rewrite (dot_index (n := n))
      by (unfold probabilities_spec; rewrite ?length_map; auto).
    rewrite <- rsum_map_scal; apply rsum_map_ext.
    intros i Hi; apply in_seq in Hi.
    unfold probabilities_spec.
    rewrite nth_map_in by (rewrite HY; lia).
    rewrite (probability_plain _ (Hne 0)), (map_index exp), HY; ring. }
  apply derivable_pt_lim_comp.
  - apply (derivable_rsum_map (seq 0 n)
             (fun i theta => exp (nth i (Y theta) 0))
             (fun i => exp (nth i (Y 0) 0) * nth i L 0)).
    intros i Hi; apply in_seq in Hi.
    apply (derivable_pt_lim_comp (fun theta => nth i (Y theta) 0) exp);
      [apply HdY; lia | apply derivable_pt_lim_exp].
  - apply derivable_pt_lim_ln, Hpos.
Qed.

Lemma dot_decrement (p L : Vector) (k : nat) :
  length p = length L -> (k < length p)%nat ->
  dot (replace_nth k p (nth k p 0 - 1)) L = dot p L - nth k L 0.
Proof.
  unfold dot, vmul.
  revert L k; induction p as [|x p IH]; intros [|y L] [|k] Hlen Hk;
    simpl in *; try lia; try discriminate.
  - ring.
  - rewrite IH by lia; ring.
Qed.

(** The loss is the log-sum-exp of the logits minus the logit of the
    label. *)
Lemma loss_of_logits (Ev : Z -> Vector -> Vector) (s : RNN)
  (input_sequence : list Input) (label : Z) :
  well_shaped s ->
  valid_ids (lookup_layer_ s) input_sequence ->
  input_sequence <> [] ->
  (0 <= label < Z.of_nat (output_size_ s))%Z ->
  let X := mkMatrix (GetInputSize s)
             (map (looked_up (E_ (lookup_layer_ s))) input_sequence) in
  let y := logits_spec Ev s X (length input_sequence) in
  loss Ev s input_sequence label
  = Done (LogSumExp y - nth (Z.to_nat label) y 0).
Proof.
  intros Hs Hv Hne Hl X y.
  unfold loss; rewrite forward_pass_returns by assumption.
  cbn [bind p_ set_trace]; fold X; fold y.
  assert (Hy : length y = output_size_ s) by (apply logits_length; exact Hs).
  unfold vget, probabilities_spec.
  rewrite length_map, Hy, in_range_true by exact Hl.
  cbn [bind]; f_equal.
  rewrite nth_map_in by lia.
  rewrite ln_exp; ring.
Qed.

(** ** Inner products *)

Lemma dot_cons (a b : R) (u v : Vector) :
  dot (a :: u) (b :: v) = a * b + dot u v.
Proof. reflexivity. Qed.

Lemma dot_comm (u v : Vector) : dot u v = dot v u.
Proof.
  revert v; induction u as [|a u IH]; intros [|b v]; try reflexivity.
  rewrite !dot_cons, IH; ring.
Qed.

Lemma dot_vzero_r (u : Vector) (n : nat) : dot u (vzero n) = 0.
Proof.
  revert n; induction u as [|a u IH]; intros [|n]; try reflexivity.
  change (vzero (S n)) with (0 :: vzero n).
  rewrite dot_cons, IH; ring.
Qed.

Lemma dot_vscale_l (k : R) (u v : Vector) :
  dot (vscale k u) v = k * dot u v.
Proof.
  revert v; induction u as [|a u IH]; intros [|b v];
    try (unfold dot; simpl; ring).
  change (vscale k (a :: u)) with (k * a :: vscale k u).
  rewrite !dot_cons, IH; ring.
Qed.

Lemma dot_vadd_r (u a b : Vector) :
  length a = length u -> length b = length u ->
  dot u (vadd a b) = dot u a + dot u b.
Proof.
  revert a b; induction u as [|x u IH]; intros [|y a] [|z b] Ha Hb;
    simpl in *; try discriminate; [unfold dot; simpl; ring |].
  change (vadd (y :: a) (z :: b)) with (y + z :: vadd a b).
  rewrite !dot_cons, IH by lia; ring.
Qed.

Lemma dot_vadd_l (u a b : Vector) :
  length a = length u -> length b = length u ->
  dot (vadd a b) u = dot a u + dot b u.
Proof.
  intros Ha Hb; rewrite !(dot_comm _ u); now apply dot_vadd_r.
Qed.

Lemma dot_vmul (u d r : Vector) : dot u (vmul d r) = dot (vmul d u) r.
Proof.
  revert d r; induction u as [|x u IH]; intros [|y d] [|z r];
    try reflexivity.
  change (vmul (y :: d) (z :: r)) with (y * z :: vmul d r).
  change (vmul (y :: d) (x :: u)) with (y * x :: vmul d u).
  rewrite !dot_cons, IH; ring.
Qed.

(** ** Matrix products, column by column *)

Lemma mat_vec_cons (r : nat) (c0 : Vector) (cols : list Vector)
  (v0 : R) (v : Vector) :
  length c0 = r ->
  mat_vec (mkMatrix r (c0 :: cols)) (v0 :: v)
  = vadd (vscale v0 c0) (mat_vec (mkMatrix r cols) v).
Proof.
  intros Hc.
  apply (vector_ext (n := r)).
  - apply mat_vec_length.
  - unfold vadd; rewrite vzip_length, vscale_length, mat_vec_length, Hc.
    cbn [mrows]; lia.
  - intros i Hi.
    rewrite nth_mat_vec by exact Hi.
    unfold vadd; rewrite nth_vzip
      by (rewrite ?vscale_length, ?mat_vec_length; cbn [mrows]; lia).
    rewrite nth_vscale, nth_mat_vec by exact Hi.
    unfold mrow; cbn [mdata map]; rewrite dot_cons; ring.
Qed.

Lemma mat_vec_nil (r : nat) (v : Vector) :
  mat_vec (mkMatrix r []) v = vzero r.
Proof.
  unfold mat_vec, mrow; cbn [mrows mdata map].
  unfold vzero; induction r as [|r IH]; [reflexivity |].
  rewrite seq_S, map_app, IH; cbn [map app Nat.add].
  now rewrite <- repeat_cons.
Qed.

(** [u . (M v) = (M^T u) . v] *)
Lemma dot_mat_vec (r : nat) (u : Vector) (cols : list Vector) :
  forall v : Vector,
    length u = r ->
    Forall (fun c => length c = r) cols ->
    length v = length cols ->
    dot u (mat_vec (mkMatrix r cols) v)
    = dot (mat_tvec (mkMatrix r cols) u) v.
Proof.
  induction cols as [|c0 cols IH]; intros [|v0 v] Hu Hc Hv;
    simpl in Hv; try discriminate.
  - rewrite mat_vec_nil, dot_vzero_r; reflexivity.
  - inversion Hc as [|? ? Hc0 Hc']; subst.
    rewrite mat_vec_cons by assumption.
    rewrite dot_vadd_r
      by (rewrite ?vscale_length, ?mat_vec_length; cbn [mrows]; lia).
    rewrite (dot_comm u (vscale v0 c0)), dot_vscale_l, IH by (auto; lia).
    unfold mat_tvec; cbn [mdata map]; rewrite dot_cons; ring.
Qed.

(** [u . (A v) = <u v^T, A>] *)
Lemma dot_mat_vec_outer (r : nat) (u : Vector) (cols : list Vector) :
  forall v : Vector,
    length u = r ->
    Forall (fun c => length c = r) cols ->
    length v = length cols ->
    dot u (mat_vec (mkMatrix r cols) v)
    = minner (outer u v) (mkMatrix r cols).
Proof.
  induction cols as [|c0 cols IH]; intros [|v0 v] Hu Hc Hv;
    simpl in Hv; try discriminate.
  - rewrite mat_vec_nil, dot_vzero_r; reflexivity.
  - inversion Hc as [|? ? Hc0 Hc']; subst.
    rewrite mat_vec_cons by assumption.
    rewrite dot_vadd_r
      by (rewrite ?vscale_length, ?mat_vec_length; cbn [mrows]; lia).
    rewrite (dot_comm u (vscale v0 c0)), dot_vscale_l, IH by (auto; lia).
    unfold minner, outer; cbn [mdata map cinner].
    rewrite dot_vscale_l, (dot_comm c0 u); reflexivity.
Qed.

Lemma adjoint_identity (r c : nat) (M : Matrix) (u v : Vector) :
  mshape r c M -> length u = r -> length v = c ->
  dot u (mat_vec M v) = dot (mat_tvec M u) v.
Proof.
  intros (Hr & Hc & Hall) Hu Hv; destruct M as [rm cols].
  cbn [mrows mdata] in *; unfold mcols in Hc; cbn [mdata] in Hc; subst rm.
  apply dot_mat_vec; auto; congruence.
Qed.

Lemma outer_identity (r c : nat) (A : Matrix) (u v : Vector) :
  mshape r c A -> length u = r -> length v = c ->
  dot u (mat_vec A v) = minner (outer u v) A.
Proof.
  intros (Hr & Hc & Hall) Hu Hv; destruct A as [rm cols].
  cbn [mrows mdata] in *; unfold mcols in Hc; cbn [mdata] in Hc; subst rm.
  apply dot_mat_vec_outer; auto; congruence.
Qed.

(** ** Sums of matrices and vectors *)

Lemma mshape_outer (u v : Vector) : mshape (length u) (length v) (outer u v).
Proof.
  unfold outer, mshape, mcols; cbn [mrows mdata].
  split; [reflexivity |]; split; [apply length_map |].
  apply Forall_map, Forall_forall; intros vj _; apply vscale_length.
Qed.

Lemma czip_vadd_shape (r : nat) (a b : list Vector) :
  length a = length b ->
  Forall (fun v => length v = r) a ->
  Forall (fun v => length v = r) b ->
  length (czip vadd a b) = length a /\
  Forall (fun v => length v = r) (czip vadd a b).
Proof.
  revert b; induction a as [|x a IH]; intros [|y b] Hlen Ha Hb;
    simpl in *; try discriminate; [split; [reflexivity | constructor] |].
  inversion Ha as [|? ? Hx Ha']; inversion Hb as [|? ? Hy Hb']; subst.
  destruct (IH b) as [Hl Hf]; auto.
  split; [now rewrite Hl |].
  constructor; [| exact Hf].
  unfold vadd; rewrite vzip_length; lia.
Qed.

Lemma mshape_madd (r c : nat) (A B : Matrix) :
  mshape r c A -> mshape r c B -> mshape r c (madd A B).
Proof.
  intros (HrA & HcA & HA) (_ & HcB & HB); unfold mcols in *.
  destruct (@czip_vadd_shape r (mdata A) (mdata B)) as [Hl Hf];
    auto; [congruence |].
  split; [exact HrA |]; split; [| exact Hf].
  unfold mcols, madd; cbn [mdata]; congruence.
Qed.

Lemma cinner_czip_vadd (r : nat) (a b c : list Vector) :
  length a = length c -> length b = length c ->
  Forall (fun v => length v = r) a ->
  Forall (fun v => length v = r) b ->
  Forall (fun v => length v = r) c ->
  cinner (czip vadd a b) c = cinner a c + cinner b c.
Proof.
  revert a b; induction c as [|z c IH]; intros [|x a] [|y b] Ha Hb Fa Fb Fc;
    simpl in *; try discriminate; [ring |].
  inversion Fa; inversion Fb; inversion Fc; subst.
  rewrite IH by (auto; lia).
  rewrite dot_vadd_l by congruence; ring.
Qed.

Lemma minner_madd (r c : nat) (A B C : Matrix) :
  mshape r c A -> mshape r c B -> mshape r c C ->
  minner (madd A B) C = minner A C + minner B C.
Proof.
  intros (_ & HcA & HA) (_ & HcB & HB) (_ & HcC & HC); unfold mcols in *.
  unfold minner, madd; cbn [mdata].
  apply (cinner_czip_vadd (r := r)); auto; congruence.
Qed.

Lemma cinner_zero (r : nat) (c : list Vector) :
  cinner (repeat (vzero r) (length c)) c = 0.
Proof.
  induction c as [|z c IH]; simpl; [reflexivity |].
  rewrite IH, dot_comm, dot_vzero_r; ring.
Qed.

Lemma minner_mzero (r c : nat) (C : Matrix) :
  mshape r c C -> minner (mzero r c) C = 0.
Proof.
  intros (_ & Hc & _); unfold minner, mzero, mcols in *; cbn [mdata].
  rewrite <- Hc; apply cinner_zero.
Qed.

(** The accumulation [acc += f t] over a list of steps, against [C]. *)
Lemma minner_fold (r c : nat) (f : nat -> Matrix) (C : Matrix)
  (l : list nat) :
  forall A0 : Matrix,
    mshape r c A0 -> mshape r c C ->
    (forall t, In t l -> mshape r c (f t)) ->
    minner (fold_left (fun acc t => madd acc (f t)) l A0) C
    = minner A0 C + rsum (map (fun t => minner (f t) C) l).
Proof.
  induction l as [|t l IH]; intros A0 HA HC Hf; simpl; [ring |].
  rewrite IH; auto.
  - rewrite (minner_madd HA (Hf t (or_introl eq_refl)) HC); ring.
  - apply mshape_madd; [exact HA | apply Hf; left; reflexivity].
  - intros t' Ht'; apply Hf; right; exact Ht'.
Qed.

Lemma dot_fold (n : nat) (f : nat -> Vector) (d : Vector) (l : list nat) :
  forall a0 : Vector,
    length a0 = n -> length d = n ->
    (forall t, In t l -> length (f t) = n) ->
    dot (fold_left (fun acc t => vadd acc (f t)) l a0) d
    = dot a0 d + rsum (map (fun t => dot (f t) d) l).
Proof.
  induction l as [|t l IH]; intros a0 Ha Hd Hf; simpl; [ring |].
  assert (Hft : length (f t) = n) by (apply Hf; left; reflexivity).
  rewrite IH; auto.
  - rewrite dot_vadd_l by congruence; ring.
  - unfold vadd; rewrite vzip_length, Ha, Hft; lia.
  - intros t' Ht'; apply Hf; right; exact Ht'.
Qed.

Lemma rsum_rev (l : list R) : rsum (rev l) = rsum l.
Proof.
  induction l as [|x l IH]; simpl; [reflexivity |].
  rewrite rsum_app, IH; simpl; ring.
Qed.

Lemma rsum_map_rev {A : Type} (g : A -> R) (l : list A) :
  rsum (map g (rev l)) = rsum (map g l).
Proof. now rewrite map_rev, rsum_rev. Qed.

Lemma filter_positive_seq (n : nat) :
  filter (fun t => (0 <? t)%nat) (seq 0 (S n)) = seq 1 n.
Proof.
  cbn [seq filter Nat.ltb Nat.leb].
  apply forallb_filter_id, forallb_forall.
  intros t Ht; apply in_seq in Ht; destruct t; [lia | reflexivity].
Qed.

Lemma filter_rev {A : Type} (p : A -> bool) (l : list A) :
  filter p (rev l) = rev (filter p l).
Proof.
  induction l as [|x l IH]; simpl; [reflexivity |].
  rewrite filter_app, IH; simpl; destruct (p x); simpl;
    [reflexivity | now rewrite app_nil_r].
Qed.

Lemma madd_mzero_l (r c : nat) (B : Matrix) :
  mshape r c B -> madd (mzero r c) B = B.
Proof.
  intros (Hr & Hc & Hall); destruct B as [rb cols].
  unfold madd, mzero, mcols in *; cbn [mrows mdata] in *; subst rb.
  f_equal; subst c.
  induction cols as [|x cols IH]; simpl; [reflexivity |].
  inversion Hall; subst.
  rewrite IH by assumption; f_equal.
  now apply vadd_vzero_l.
Qed.
Lemma perturb_well_shaped (s : RNN) (D : directions) (theta : R) :
  well_shaped s -> directions_shaped s D -> well_shaped (perturb s D theta).
Proof.
  intros (HL & HWxh & HWhh & HWhy & Hbh & Hby & Hh0)
         (HdWxh & HdWhh & HdWhy & Hdbh & Hdby & Hdh0).
  unfold well_shaped, perturb, GetInputSize in *.
  cbn [lookup_layer_ set_params hidden_size_ output_size_ Wxh_ Whh_ Why_
       bh_ by_ h0_ use_hidden_start_].
  split; [exact HL |].
  split; [apply mshape_perturbed; assumption |].
  split; [apply mshape_perturbed; assumption |].
  split; [apply mshape_perturbed; assumption |].
  split; [unfold vadd; rewrite vzip_length, vscale_length; lia |].
  split; [unfold vadd; rewrite vzip_length, vscale_length; lia |].
  intros Hu; rewrite Hu; specialize (Hh0 Hu).
  unfold vadd; rewrite vzip_length, vscale_length; lia.
Qed.

Lemma looked_up_length (L : LookupLayer) (input_sequence : list Input)
  (t : nat) :
  lookup_shaped L -> valid_ids L input_sequence ->
  (t < length input_sequence)%nat ->
  length (nth t (map (looked_up (E_ L)) input_sequence) [])
  = embedding_dimension_ L.
Proof.
  intros HL Hv Ht.
  pose proof HL as (_ & Hc & _).
  pose proof (valid_ids_in_table Hc Hv) as Hin.
  rewrite (nth_indep _ [] (looked_up (E_ L) (mkInput 0)))
    by (rewrite length_map; exact Ht).
  rewrite map_nth; unfold looked_up.
  rewrite Forall_forall in Hin.
  specialize (Hin (nth t input_sequence (mkInput 0)) (nth_In _ _ Ht)).
  unfold id_in_table in Hin.
  eapply mshape_nth; [exact HL | lia].
Qed.

Lemma mshape_fold (r c : nat) (f : nat -> Matrix) (l : list nat) :
  forall A0 : Matrix,
    mshape r c A0 ->
    (forall t, In t l -> mshape r c (f t)) ->
    mshape r c (fold_left (fun acc t => madd acc (f t)) l A0).
Proof.
  induction l as [|t l IH]; intros A0 HA Hf; cbn [fold_left]; [exact HA |].
  apply IH.
  - apply mshape_madd; [exact HA | apply Hf; left; reflexivity].
  - intros t' Ht'; apply Hf; right; exact Ht'.
Qed.

Lemma length_fold (n : nat) (f : nat -> Vector) (l : list nat) :
  forall a0 : Vector,
    length a0 = n ->
    (forall t, In t l -> length (f t) = n) ->
    length (fold_left (fun acc t => vadd acc (f t)) l a0) = n.
Proof.
  induction l as [|t l IH]; intros a0 Ha Hf; cbn [fold_left]; [exact Ha |].
  apply IH.
  - unfold vadd; rewrite vzip_length, Ha, (Hf t) by (left; reflexivity).
    apply Nat.min_id.
  - intros t' Ht'; apply Hf; right; exact Ht'.
Qed.

Section LossDerivative.

Variable act : R -> R.
Variable dact : R -> R.
Hypothesis act_derivable :
  forall x, derivable_pt_lim act x (dact (act x)).

Variable s : RNN.
Variable D : directions.
Variable input_sequence : list Input.
Variable label : Z.

Hypothesis s_shaped : well_shaped s.
Hypothesis D_shaped : directions_shaped s D.
Hypothesis ids_valid : valid_ids (lookup_layer_ s) input_sequence.
Hypothesis nonempty : input_sequence <> [].
Hypothesis label_range : (0 <= label < Z.of_nat (output_size_ s))%Z.

Lemma T_positive : (0 < length input_sequence)%nat.
Proof.
  destruct input_sequence; [congruence | simpl; lia].
Qed.

Lemma X_columns_shaped (t : nat) :
  (t < length input_sequence)%nat ->
  length (nth t (mdata (embedded s input_sequence)) []) = GetInputSize s.
Proof.
  intros Ht; unfold embedded; cbn [mdata].
  apply looked_up_length; [apply s_shaped | exact ids_valid | exact Ht].
Qed.

Lemma logits_vderiv :
  vderiv (output_size_ s)
    (fun theta => logits_spec (elementwise act) (perturb s D theta)
        (embedded s input_sequence) (length input_sequence))
    (logits_tangent act dact s D
        (embedded s input_sequence) (length input_sequence)).
Proof.
  pose proof s_shaped as (_ & _ & _ & HWhy & _ & Hby & _).
  pose proof D_shaped as (_ & _ & HdWhy & _ & Hdby & _).
  pose proof T_positive as HT.
  apply vderiv_ext with
    (F := fun theta =>
            vadd (mat_vec (madd (Why_ s) (mscale theta (d_Why D)))
                    (hidden_spec (elementwise act) (perturb s D theta)
                       (embedded s input_sequence) (length input_sequence - 1)))
                 (vadd (by_ s) (vscale theta (d_by D))));
    [intros theta; reflexivity |].
  eapply vderiv_value;
    [| eapply vderiv_vadd;
       [eapply vderiv_mat_vec;
        [exact HWhy | exact HdWhy
         | apply (@hidden_vderiv act dact act_derivable s D
             (embedded s input_sequence) (length input_sequence) s_shaped
                    D_shaped X_columns_shaped); lia]
       | apply vderiv_affine; assumption]].
  cbv beta; rewrite (perturb_0 s_shaped D_shaped); reflexivity.
Qed.

Lemma loss_derivable :
  derivable_pt_lim
    (loss_along act s D input_sequence label) 0 (dot (dy_spec
        (forward_state act s input_sequence) label) (logits_tangent act dact s D
            (embedded s input_sequence) (length input_sequence))).
Proof.
  pose proof logits_vderiv as Hy.
  pose proof Hy as (HlenY & HlenL & _).
  apply (derivable_pt_lim_ext
           (fun theta =>
              LogSumExp (logits_spec (elementwise act) (perturb s D theta)
                  (embedded s input_sequence) (length input_sequence))
              - nth (Z.to_nat label)
                  (logits_spec (elementwise act) (perturb s D theta)
                      (embedded s input_sequence) (length input_sequence)) 0)).
  { intros theta; unfold loss_along.
    rewrite (@loss_of_logits (elementwise act) (perturb s D theta)
               input_sequence label
               (perturb_well_shaped theta s_shaped D_shaped)
               ids_valid nonempty label_range).
    reflexivity. }
  apply derivable_value
    with (l := dot (probabilities_spec
                      (logits_spec (elementwise act) (perturb s D 0)
                          (embedded s input_sequence) (length input_sequence)))
                   (logits_tangent act dact s D
                       (embedded s input_sequence) (length input_sequence))
               - nth (Z.to_nat label) (logits_tangent act dact s D
                   (embedded s input_sequence) (length input_sequence)) 0).
  { rewrite
      (perturb_0 s_shaped D_shaped); unfold dy_spec, forward_state;
        cbn [p_ set_trace].
    symmetry; apply dot_decrement;
      unfold probabilities_spec; rewrite length_map, logits_length
        by exact s_shaped; lia. }
  apply (derivable_pt_lim_minus
           (fun theta =>
              LogSumExp (logits_spec (elementwise act) (perturb s D theta)
                           (embedded s input_sequence) (length input_sequence)))
           (fun theta =>
              nth (Z.to_nat label)
                (logits_spec (elementwise act) (perturb s D theta)
                    (embedded s input_sequence) (length input_sequence)) 0)).
  - apply (LogSumExp_derivable Hy); lia.
  - destruct Hy as (_ & _ & Hd); apply Hd; lia.
Qed.

(** *** Shapes along the recurrence *)

Lemma hidden_shaped (t : nat) :
  length (hidden_spec (elementwise act) s (embedded s input_sequence) t)
  = hidden_size_ s.
Proof.
  destruct s_shaped as (_ & (HrWxh & _) & (HrWhh & _) & _ & Hbh & _).
  rewrite hidden_length, HrWxh, HrWhh, Hbh; lia.
Qed.

Lemma state_before_shaped (t : nat) :
  length (state_before (elementwise act) s (embedded s input_sequence) t)
  = hidden_size_ s.
Proof.
  destruct t as [|t]; [| apply hidden_shaped].
  destruct s_shaped as (_ & _ & (HrWhh & _) & _ & _ & _ & Hh0).
  cbn [state_before]; unfold h_start.
  destruct (use_hidden_start_ s); [auto | rewrite vzero_length; exact HrWhh].
Qed.

Lemma start_tangent_shaped : length (start_tangent s D) = hidden_size_ s.
Proof.
  destruct s_shaped as (_ & _ & (HrWhh & _) & _).
  destruct D_shaped as (_ & _ & _ & _ & _ & Hdh0).
  unfold start_tangent.
  destruct (use_hidden_start_ s); [auto | rewrite vzero_length; exact HrWhh].
Qed.

Lemma hidden_tangent_shaped (t : nat) :
  length (hidden_tangent act dact s D (embedded s input_sequence) t)
  = hidden_size_ s.
Proof.
  destruct s_shaped as (_ & _ & (HrWhh & _) & _).
  destruct D_shaped as ((HrdWxh & _) & (HrdWhh & _) & _ & Hdbh & _).
  destruct t; cbn [hidden_tangent]; unfold vmul, vadd;
    rewrite !vzip_length, !length_map, !mat_vec_length, hidden_shaped,
      HrdWxh, HrdWhh, HrWhh, Hdbh; lia.
Qed.

Lemma tangent_before_shaped (t : nat) :
  length (tangent_before act dact s D (embedded s input_sequence) t)
  = hidden_size_ s.
Proof.
  destruct t; [apply start_tangent_shaped | apply hidden_tangent_shaped].
Qed.

Lemma forward_h_col (t : nat) :
  (t < length input_sequence)%nat ->
  h_col (forward_state act s input_sequence) t
  = hidden_spec (elementwise act) s (embedded s input_sequence) t.
Proof.
  intros Ht; unfold h_col, forward_state, hidden_matrix_spec;
    cbn [h_ set_trace mdata].
  rewrite (nth_indep _ []
             (hidden_spec (elementwise act) s (embedded s input_sequence) 0))
    by (rewrite length_map, length_seq; exact Ht).
  now rewrite map_nth, seq_nth by exact Ht.
Qed.

Lemma forward_h_columns :
  mcols (h_ (forward_state act s input_sequence)) = length input_sequence.
Proof.
  unfold mcols, forward_state, hidden_matrix_spec; cbn [h_ set_trace mdata].
  now rewrite length_map, length_seq.
Qed.

Lemma forward_x_columns :
  mcols (x_ (forward_state act s input_sequence)) = length input_sequence.
Proof.
  unfold mcols, forward_state, embedded; cbn [x_ set_trace mdata].
  apply length_map.
Qed.

Lemma dh_back_shaped (k : nat) :
  length (dh_back (elementwise dact) (forward_state act s input_sequence)
            (length input_sequence) label k)
  = hidden_size_ s.
Proof.
  destruct s_shaped as (_ & _ & (_ & HcWhh & _) & (_ & HcWhy & _) & _).
  destruct k; cbn [dh_back]; rewrite mat_tvec_length; assumption.
Qed.

Lemma draw_shaped (t : nat) :
  (t < length input_sequence)%nat ->
  length (draw_spec (elementwise dact) (forward_state act s input_sequence)
            (length input_sequence) label t)
  = hidden_size_ s.
Proof.
  intros Ht; unfold draw_spec, vmul, elementwise.
  rewrite vzip_length, length_map, (forward_h_col Ht), hidden_shaped,
    dh_back_shaped; lia.
Qed.

Lemma dy_shaped :
  length (dy_spec (forward_state act s input_sequence) label)
  = output_size_ s.
Proof.
  unfold dy_spec, forward_state; cbn [p_ set_trace].
  rewrite replace_nth_length; unfold probabilities_spec.
  rewrite length_map; apply logits_length, s_shaped.
Qed.

(** *** One step of the recurrence, read backwards *)

Lemma step_identity (t : nat) :
  (t < length input_sequence)%nat ->
  dot (dh_back (elementwise dact) (forward_state act s input_sequence)
         (length input_sequence) label (length input_sequence - S t))
      (hidden_tangent act dact s D (embedded s input_sequence) t)
  = step_terms act dact s D input_sequence label t
    + dot (dh_back (elementwise dact) (forward_state act s input_sequence)
             (length input_sequence) label (length input_sequence - t))
          (tangent_before act dact s D (embedded s input_sequence) t).
Proof.
  intros Ht.
  pose proof s_shaped as (_ & _ & HWhh & _).
  pose proof D_shaped as (HdWxh & HdWhh & _ & Hdbh & _).
  pose proof (draw_shaped Ht) as Hdraw.
  rewrite <- (@dh_back_step (elementwise dact)
                (forward_state act s input_sequence)
                (length input_sequence) label
                forward_h_columns forward_x_columns t Ht).
  change (Whh_ (forward_state act s input_sequence)) with (Whh_ s).
  unfold step_terms; cbv zeta.
  set (draw := draw_spec (elementwise dact)
                 (forward_state act s input_sequence)
                 (length input_sequence) label t) in *.
  rewrite <- (outer_identity draw _ HdWxh Hdraw (X_columns_shaped Ht)).
  rewrite <- (outer_identity draw _ HdWhh Hdraw (state_before_shaped t)).
  rewrite <- (adjoint_identity draw _ HWhh Hdraw (tangent_before_shaped t)).
  replace (hidden_tangent act dact s D (embedded s input_sequence) t)
    with (vmul (map dact
                  (hidden_spec (elementwise act) s
                     (embedded s input_sequence) t))
               (vadd (vadd (mat_vec (d_Wxh D)
                              (nth t (mdata (embedded s input_sequence)) []))
                           (d_bh D))
                     (vadd (mat_vec (d_Whh D)
                              (state_before (elementwise act) s
                                 (embedded s input_sequence) t))
                           (mat_vec (Whh_ s)
                              (tangent_before act dact s D
                                 (embedded s input_sequence) t)))))
    by (destruct t; reflexivity).
  rewrite dot_vmul.
  replace (vmul (map dact
                   (hidden_spec (elementwise act) s
                      (embedded s input_sequence) t))
                (dh_back (elementwise dact)
                   (forward_state act s input_sequence)
                   (length input_sequence) label
                   (length input_sequence - S t)))
    with draw
    by (unfold draw;
        rewrite <- (@draw_spec_at (elementwise dact)
                      (forward_state act s input_sequence)
                      (length input_sequence) label
                      forward_h_columns forward_x_columns t Ht);
        rewrite (forward_h_col Ht); reflexivity).
  rewrite !dot_vadd_r
    by (unfold vadd; rewrite ?vzip_length, ?mat_vec_length, ?Hdraw, ?Hdbh;
        try (destruct HdWxh as (-> & _)); try (destruct HdWhh as (-> & _));
        try (destruct HWhh as (-> & _)); lia).
  ring.
Qed.

(** *** The recurrence summed over the steps *)

Lemma steps_sum (n : nat) :
  (n <= length input_sequence)%nat ->
  dot (dh_back (elementwise dact) (forward_state act s input_sequence)
         (length input_sequence) label (length input_sequence - n))
      (tangent_before act dact s D (embedded s input_sequence) n)
  = rsum (map (step_terms act dact s D input_sequence label) (seq 0 n))
    + dot (dh_back (elementwise dact) (forward_state act s input_sequence)
             (length input_sequence) label (length input_sequence))
          (start_tangent s D).
Proof.
  induction n as [|n IH]; intros Hn.
  - rewrite Nat.sub_0_r; cbn [tangent_before seq map rsum fold_right]; ring.
  - cbn [tangent_before].
    rewrite step_identity, IH by lia.
    rewrite seq_S, map_app, rsum_app; cbn [map rsum fold_right Nat.add].
    ring.
Qed.

Lemma dWxh_against :
  minner (dWxh_spec (elementwise dact) (forward_state act s input_sequence)
            (length input_sequence) label) (d_Wxh D)
  = rsum (map (fun t =>
                 minner (outer (draw_spec (elementwise dact)
                                  (forward_state act s input_sequence)
                                  (length input_sequence) label t)
                               (nth t (mdata (embedded s input_sequence)) []))
                        (d_Wxh D))
              (seq 0 (length input_sequence))).
Proof.
  pose proof s_shaped as (_ & HWxh & _).
  pose proof D_shaped as (HdWxh & _).
  pose proof HWxh as (Hr & Hc & _).
  unfold dWxh_spec, steps_down.
  change (Wxh_ (forward_state act s input_sequence)) with (Wxh_ s).
  rewrite Hr, Hc.
  rewrite (@minner_fold (hidden_size_ s) (GetInputSize s)
             (fun t => outer (draw_spec (elementwise dact)
                                (forward_state act s input_sequence)
                                (length input_sequence) label t)
                             (x_col (forward_state act s input_sequence) t))).
  - rewrite (minner_mzero HdWxh), rsum_map_rev, Rplus_0_l; reflexivity.
  - apply mshape_mzero.
  - exact HdWxh.
  - intros t Ht; apply in_rev, in_seq in Ht.
    rewrite <- (draw_shaped (t := t)) at 1 by lia.
    rewrite <- (X_columns_shaped (t := t)) by lia.
    apply mshape_outer.
Qed.

Lemma dbh_against :
  dot (dbh_spec (elementwise dact) (forward_state act s input_sequence)
         (length input_sequence) label) (d_bh D)
  = rsum (map (fun t =>
                 dot (draw_spec (elementwise dact)
                        (forward_state act s input_sequence)
                        (length input_sequence) label t) (d_bh D))
              (seq 0 (length input_sequence))).
Proof.
  pose proof s_shaped as (_ & _ & (Hr & _) & _).
  pose proof D_shaped as (_ & _ & _ & Hdbh & _).
  unfold dbh_spec, steps_down.
  change (Whh_ (forward_state act s input_sequence)) with (Whh_ s).
  rewrite Hr.
  rewrite (@dot_fold (hidden_size_ s)
             (fun t => draw_spec (elementwise dact)
                         (forward_state act s input_sequence)
                         (length input_sequence) label t)).
  - rewrite dot_comm, dot_vzero_r, rsum_map_rev; ring.
  - apply vzero_length.
  - exact Hdbh.
  - intros t Ht; apply in_rev, in_seq in Ht; apply draw_shaped; lia.
Qed.

Lemma dWhh_against :
  minner (dWhh_spec (elementwise dact) (forward_state act s input_sequence)
            (length input_sequence) label) (d_Whh D)
  + minner (outer (draw_spec (elementwise dact)
                     (forward_state act s input_sequence)
                     (length input_sequence) label 0)
                  (h_start s)) (d_Whh D)
  = rsum (map (fun t =>
                 minner (outer (draw_spec (elementwise dact)
                                  (forward_state act s input_sequence)
                                  (length input_sequence) label t)
                               (state_before (elementwise act) s
                                  (embedded s input_sequence) t))
                        (d_Whh D))
              (seq 0 (length input_sequence))).
Proof.
  pose proof s_shaped as (_ & _ & HWhh & _).
  pose proof D_shaped as (_ & HdWhh & _).
  pose proof HWhh as (Hr & Hc & _).
  pose proof T_positive as HT.
  unfold dWhh_spec, steps_down.
  change (Whh_ (forward_state act s input_sequence)) with (Whh_ s).
  rewrite Hr, Hc.
  rewrite (@minner_fold (hidden_size_ s) (hidden_size_ s)
             (fun t => outer (draw_spec (elementwise dact)
                                (forward_state act s input_sequence)
                                (length input_sequence) label t)
                             (h_col (forward_state act s input_sequence)
                                (t - 1)))).
  - rewrite (minner_mzero HdWhh), filter_rev, rsum_map_rev.
    destruct (length input_sequence) as [|n] eqn:HTn; [lia |].
    rewrite filter_positive_seq.
    cbn [seq map rsum fold_right state_before].
    rewrite <- seq_shift, !map_map.
    rewrite (rsum_map_ext
               (fun t =>
                  minner (outer (draw_spec (elementwise dact)
                                   (forward_state act s input_sequence)
                                   (S n) label (S t))
                                (h_col (forward_state act s input_sequence)
                                   (S t - 1))) (d_Whh D))
               (fun t =>
                  minner (outer (draw_spec (elementwise dact)
                                   (forward_state act s input_sequence)
                                   (S n) label (S t))
                                (state_before (elementwise act) s
                                   (embedded s input_sequence) (S t)))
                         (d_Whh D))); [unfold rsum; ring |].
    intros t Ht; apply in_seq in Ht.
    replace (S t - 1)%nat with t by lia.
    rewrite forward_h_col by lia; reflexivity.
  - apply mshape_mzero.
  - exact HdWhh.
  - intros t Ht; apply filter_In in Ht as [Ht Hpos].
    apply in_rev, in_seq in Ht; apply Nat.ltb_lt in Hpos.
    rewrite <- (draw_shaped (t := t)) at 1 by lia.
    rewrite <- (hidden_shaped (t - 1)) at 1.
    rewrite <- forward_h_col by lia.
    apply mshape_outer.
Qed.

Lemma dWhy_against :
  minner (dWhy_spec (forward_state act s input_sequence)
            (length input_sequence) label) (d_Why D)
  = dot (dy_spec (forward_state act s input_sequence) label)
        (mat_vec (d_Why D)
           (hidden_spec (elementwise act) s (embedded s input_sequence)
              (length input_sequence - 1))).
Proof.
  pose proof s_shaped as (_ & _ & _ & (Hr & Hc & _) & _).
  pose proof D_shaped as (_ & _ & HdWhy & _).
  pose proof T_positive as HT.
  unfold dWhy_spec.
  change (Why_ (forward_state act s input_sequence)) with (Why_ s).
  rewrite Hr, Hc, forward_h_col by lia.
  rewrite madd_mzero_l
    by (rewrite <- dy_shaped at 1;
        rewrite <- (hidden_shaped (length input_sequence - 1));
        apply mshape_outer).
  symmetry; apply (outer_identity _ _ HdWhy);
    [apply dy_shaped | apply hidden_shaped].
Qed.

Lemma tangent_against :
  dot (dy_spec (forward_state act s input_sequence) label)
      (logits_tangent act dact s D (embedded s input_sequence)
         (length input_sequence))
  = rsum (map (step_terms act dact s D input_sequence label)
              (seq 0 (length input_sequence)))
    + dot (dh_back (elementwise dact) (forward_state act s input_sequence)
             (length input_sequence) label (length input_sequence))
          (start_tangent s D)
    + dot (dy_spec (forward_state act s input_sequence) label)
          (mat_vec (d_Why D)
             (hidden_spec (elementwise act) s (embedded s input_sequence)
                (length input_sequence - 1)))
    + dot (dy_spec (forward_state act s input_sequence) label) (d_by D).
Proof.
  pose proof s_shaped as (_ & _ & _ & HWhy & _).
  pose proof D_shaped as (_ & _ & (HrdWhy & _) & _ & Hdby & _).
  pose proof HWhy as (HrWhy & _).
  pose proof T_positive as HT.
  pose proof dy_shaped as Hdy.
  unfold logits_tangent.
  rewrite !dot_vadd_r
    by (unfold vadd; rewrite ?vzip_length, ?mat_vec_length, ?Hdy, ?Hdby,
          ?HrdWhy, ?HrWhy; lia).
  rewrite (adjoint_identity _ _ HWhy Hdy
             (hidden_tangent_shaped (length input_sequence - 1))).
  pose proof (steps_sum (n := length input_sequence) (Nat.le_refl _))
    as Hsum.
  rewrite Nat.sub_diag in Hsum.
  replace (tangent_before act dact s D (embedded s input_sequence)
             (length input_sequence))
    with (hidden_tangent act dact s D (embedded s input_sequence)
            (length input_sequence - 1)) in Hsum
    by (destruct (length input_sequence);
        [lia | cbn [tangent_before]; f_equal; lia]).
  change (dh_back (elementwise dact) (forward_state act s input_sequence)
            (length input_sequence) label 0)
    with (mat_tvec (Why_ s)
            (dy_spec (forward_state act s input_sequence) label)) in Hsum.
  rewrite Hsum; ring.
Qed.

Lemma steps_split :
  rsum (map (step_terms act dact s D input_sequence label)
            (seq 0 (length input_sequence)))
  = rsum (map (fun t =>
                 minner (outer (draw_spec (elementwise dact)
                                  (forward_state act s input_sequence)
                                  (length input_sequence) label t)
                               (nth t (mdata (embedded s input_sequence)) []))
                        (d_Wxh D))
              (seq 0 (length input_sequence)))
    + rsum (map (fun t =>
                 dot (draw_spec (elementwise dact)
                        (forward_state act s input_sequence)
                        (length input_sequence) label t) (d_bh D))
              (seq 0 (length input_sequence)))
    + rsum (map (fun t =>
                 minner (outer (draw_spec (elementwise dact)
                                  (forward_state act s input_sequence)
                                  (length input_sequence) label t)
                               (state_before (elementwise act) s
                                  (embedded s input_sequence) t))
                        (d_Whh D))
              (seq 0 (length input_sequence))).
Proof.
  rewrite <- !rsum_map_plus; reflexivity.
Qed.

(** The derivative of the loss along a direction is what the accumulated
    tensors give, plus the term of [Whh] at the first step, which the
    backward loop leaves out. *)
Theorem loss_directional_derivative :
  derivable_pt_lim
    (loss_along act s D input_sequence label) 0
    (gradient_along s
       (gradients_spec (elementwise dact)
          (forward_state act s input_sequence)
          (length input_sequence) label) D
     + minner (outer (draw_spec (elementwise dact)
                        (forward_state act s input_sequence)
                        (length input_sequence) label 0)
                     (h_start s)) (d_Whh D)).
Proof.
  pose proof s_shaped as (_ & _ & _ & (HrWhy & _) & _).
  pose proof T_positive as HT.
  eapply derivable_value; [| exact loss_derivable].
  rewrite tangent_against, steps_split, <- dWhh_against.
  unfold gradient_along, gradients_spec;
    cbn [g_loop g_dWhy g_dby dWxh dbh dWhh dhnext].
  rewrite dWxh_against, dbh_against, dWhy_against.
  unfold dby_spec, dh0_spec.
  change (Why_ (forward_state act s input_sequence)) with (Why_ s).
  rewrite HrWhy, vadd_vzero_l by apply dy_shaped.
  rewrite (@dh_back_step (elementwise dact)
             (forward_state act s input_sequence)
             (length input_sequence) label
             forward_h_columns forward_x_columns 0%nat HT).
  rewrite Nat.sub_0_r; ring.
Qed.

(** The shapes of the gradient tensors. *)
Lemma dWxh_shaped :
  mshape (hidden_size_ s) (GetInputSize s)
    (dWxh_spec (elementwise dact) (forward_state act s input_sequence)
       (length input_sequence) label).
Proof.
  pose proof s_shaped as (_ & (Hr & Hc & _) & _).
  unfold dWxh_spec, steps_down.
  change (Wxh_ (forward_state act s input_sequence)) with (Wxh_ s).
  rewrite Hr, Hc.
  apply mshape_fold; [apply mshape_mzero |].
  intros t Ht; apply in_rev, in_seq in Ht.
  rewrite <- (draw_shaped (t := t)) at 1 by lia.
  rewrite <- (X_columns_shaped (t := t)) by lia.
  apply mshape_outer.
Qed.

Lemma dWhh_shaped :
  mshape (hidden_size_ s) (hidden_size_ s)
    (dWhh_spec (elementwise dact) (forward_state act s input_sequence)
       (length input_sequence) label).
Proof.
  pose proof s_shaped as (_ & _ & (Hr & Hc & _) & _).
  unfold dWhh_spec, steps_down.
  change (Whh_ (forward_state act s input_sequence)) with (Whh_ s).
  rewrite Hr, Hc.
  apply mshape_fold; [apply mshape_mzero |].
  intros t Ht; apply filter_In in Ht; destruct Ht as [Ht Hpos].
  apply in_rev, in_seq in Ht; apply Nat.ltb_lt in Hpos.
  rewrite <- (draw_shaped (t := t)) at 1 by lia.
  rewrite <- (hidden_shaped (t - 1)), <- forward_h_col by lia.
  apply mshape_outer.
Qed.

Lemma dWhy_shaped :
  mshape (output_size_ s) (hidden_size_ s)
    (dWhy_spec (forward_state act s input_sequence)
       (length input_sequence) label).
Proof.
  pose proof s_shaped as (_ & _ & _ & (Hr & Hc & _) & _).
  pose proof T_positive as HT.
  unfold dWhy_spec.
  change (Why_ (forward_state act s input_sequence)) with (Why_ s).
  rewrite Hr, Hc.
  apply mshape_madd; [apply mshape_mzero |].
  rewrite <- dy_shaped at 1.
  rewrite <- (hidden_shaped (length input_sequence - 1)),
    <- forward_h_col by lia.
  apply mshape_outer.
Qed.

Lemma dbh_shaped :
  length (dbh_spec (elementwise dact) (forward_state act s input_sequence)
            (length input_sequence) label)
  = hidden_size_ s.
Proof.
  pose proof s_shaped as (_ & _ & (Hr & _) & _).
  unfold dbh_spec, steps_down.
  change (Whh_ (forward_state act s input_sequence)) with (Whh_ s).
  apply length_fold; [rewrite Hr; apply vzero_length |].
  intros t Ht; apply in_rev, in_seq in Ht.
  apply draw_shaped; lia.
Qed.

Lemma dby_shaped :
  length (dby_spec (forward_state act s input_sequence) label)
  = output_size_ s.
Proof.
  pose proof s_shaped as (_ & _ & _ & (Hr & _) & _).
  unfold dby_spec.
  change (Why_ (forward_state act s input_sequence)) with (Why_ s).
  rewrite Hr, vadd_vzero_l by apply dy_shaped.
  apply dy_shaped.
Qed.

Lemma dh0_shaped :
  length (dh0_spec (elementwise dact) (forward_state act s input_sequence)
            (length input_sequence) label)
  = hidden_size_ s.
Proof.
  pose proof s_shaped as (_ & _ & (_ & Hc & _) & _).
  unfold dh0_spec; rewrite mat_tvec_length; exact Hc.
Qed.

End LossDerivative.

(** ** Unit directions *)

Lemma vunit_length (n i : nat) : length (vunit n i) = n.
Proof. unfold vunit; now rewrite length_map, length_seq. Qed.

Lemma nth_vunit (n i k : nat) :
  (k < n)%nat -> nth k (vunit n i) 0 = if (k =? i)%nat then 1 else 0.
Proof. intros Hk; unfold vunit; now rewrite nth_map_seq. Qed.

Lemma rsum_pick (f : nat -> R) (n i : nat) :
  (i < n)%nat ->
  rsum (map (fun k => if (k =? i)%nat then f k else 0) (seq 0 n)) = f i.
Proof.
  induction n as [|n IH]; intros Hi; [lia |].
  rewrite seq_S, map_app, rsum_app; cbn [map rsum fold_right Nat.add].
  destruct (Nat.eq_dec i n) as [->|Hne].
  - rewrite Nat.eqb_refl.
    rewrite (rsum_map_ext _ (fun _ => 0 * 0)).
    + rewrite rsum_map_scal; ring.
    + intros k Hk; apply in_seq in Hk.
      destruct (Nat.eqb_spec k n); [lia | ring].
  - rewrite IH by lia.
    destruct (Nat.eqb_spec n i); [lia | ring].
Qed.

Lemma dot_vunit (n i : nat) (v : Vector) :
  length v = n -> (i < n)%nat -> dot v (vunit n i) = nth i v 0.
Proof.
  intros Hv Hi.
  rewrite (dot_index (n := n)) by (auto using vunit_length).
  rewrite <- (rsum_pick (fun k => nth k v 0) Hi).
  apply rsum_map_ext; intros k Hk; apply in_seq in Hk.
  rewrite nth_vunit by lia.
  destruct (k =? i)%nat; ring.
Qed.

Lemma cinner_index (c : nat) (a b : list Vector) :
  length a = c -> length b = c ->
  cinner a b
  = rsum (map (fun k => dot (nth k a []) (nth k b [])) (seq 0 c)).
Proof.
  revert c b; induction a as [|x a IH]; intros c [|y b] Ha Hb;
    simpl in Ha, Hb; subst c; try discriminate; [reflexivity |].
  cbn [length seq map cinner rsum fold_right nth].
  rewrite <- seq_shift, map_map.
  rewrite (IH (length a) b) by (auto; lia).
  reflexivity.
Qed.

Lemma nth_map_seq_col (f : nat -> Vector) (n i : nat) :
  (i < n)%nat -> nth i (map f (seq 0 n)) [] = f i.
Proof.
  intros Hi.
  rewrite (nth_indep _ [] (f 0%nat))
    by (rewrite length_map, length_seq; lia).
  now rewrite map_nth, seq_nth by lia.
Qed.

Lemma mshape_munit (r c i j : nat) : mshape r c (munit r c i j).
Proof.
  unfold munit, mshape, mcols; cbn [mrows mdata].
  split; [reflexivity |]; split; [now rewrite length_map, length_seq |].
  apply Forall_map, Forall_forall; intros k _.
  destruct (k =? j)%nat; [apply vunit_length | apply vzero_length].
Qed.

Lemma minner_munit (r c i j : nat) (A : Matrix) :
  mshape r c A -> (i < r)%nat -> (j < c)%nat ->
  minner A (munit r c i j) = mget A i j.
Proof.
  intros (_ & Hc & Hall) Hi Hj.
  unfold minner, munit; cbn [mdata].
  rewrite (cinner_index (c := c))
    by (rewrite ?length_map, ?length_seq; auto).
  rewrite <- (rsum_pick (fun k => mget A i k) Hj).
  apply rsum_map_ext; intros k Hk; apply in_seq in Hk.
  rewrite nth_map_seq_col by lia.
  destruct (k =? j)%nat.
  - apply dot_vunit; [| exact Hi].
    rewrite Forall_forall in Hall; apply Hall, nth_In.
    unfold mcols in Hc; lia.
  - apply dot_vzero_r.
Qed.

Lemma minner_mzero_r (r c : nat) (A : Matrix) :
  mshape r c A -> minner A (mzero r c) = 0.
Proof.
  intros (_ & Hc & _); unfold minner, mzero, mcols in *; cbn [mdata].
  subst c; induction (mdata A) as [|x a IH]; simpl; [reflexivity |].
  rewrite IH, dot_vzero_r; ring.
Qed.

Lemma mget_outer (u v : Vector) (i j : nat) :
  (j < length v)%nat -> mget (outer u v) i j = nth j v 0 * nth i u 0.
Proof.
  intros Hj; unfold mget, outer; cbn [mdata].
  rewrite (nth_indep _ [] ((fun vj => vscale vj u) 0))
    by (rewrite length_map; exact Hj).
  rewrite (map_nth (fun vj => vscale vj u)); apply nth_vscale.
Qed.

Lemma still_shaped (s : RNN) : directions_shaped s (still s).
Proof.
  unfold directions_shaped, still; cbn.
  repeat split; try apply mcols_mzero; try apply vzero_length;
    apply mshape_mzero.
Qed.

(** ** The partial derivatives of the loss *)

Ltac shaped_direction :=
  unfold directions_shaped, along_Wxh, along_Whh, along_Why, along_bh,
    along_by, along_h0, still;
  cbn [d_Wxh d_Whh d_Why d_bh d_by d_h0];
  refine (conj _ (conj _ (conj _ (conj _ (conj _ _)))));
  first [apply mshape_munit | apply mshape_mzero
        | apply vzero_length | apply vunit_length].

Lemma along_Wxh_shaped (s : RNN) (i j : nat) :
  directions_shaped s (along_Wxh s i j).
Proof. shaped_direction. Qed.

Lemma along_Whh_shaped (s : RNN) (i j : nat) :
  directions_shaped s (along_Whh s i j).
Proof. shaped_direction. Qed.

Lemma along_Why_shaped (s : RNN) (i j : nat) :
  directions_shaped s (along_Why s i j).
Proof. shaped_direction. Qed.

Lemma along_bh_shaped (s : RNN) (i : nat) :
  directions_shaped s (along_bh s i).
Proof. shaped_direction. Qed.

Lemma along_by_shaped (s : RNN) (i : nat) :
  directions_shaped s (along_by s i).
Proof. shaped_direction. Qed.

Lemma along_h0_shaped (s : RNN) (i : nat) :
  directions_shaped s (along_h0 s i).
Proof. shaped_direction. Qed.

Lemma start_tangent_still (s : RNN) (D : directions) (v : Vector) :
  d_h0 D = vzero (hidden_size_ s) -> dot v (start_tangent s D) = 0.
Proof.
  intros H; unfold start_tangent; rewrite H.
  destruct (use_hidden_start_ s); apply dot_vzero_r.
Qed.

Section Partials.

Variable act : R -> R.
Variable dact : R -> R.
Hypothesis act_derivable :
  forall x, derivable_pt_lim act x (dact (act x)).

Variable s : RNN.
Variable input_sequence : list Input.
Variable label : Z.

Hypothesis s_shaped : well_shaped s.
Hypothesis ids_valid : valid_ids (lookup_layer_ s) input_sequence.
Hypothesis nonempty : input_sequence <> [].
Hypothesis label_range : (0 <= label < Z.of_nat (output_size_ s))%Z.

Lemma forward_pass_entrywise :
  RunForwardPass (elementwise act) s input_sequence
  = Done (forward_state act s input_sequence).
Proof. apply forward_pass_returns; assumption. Qed.

Lemma backward_gradients_entrywise :
  backward_gradients (elementwise dact)
    (forward_state act s input_sequence) input_sequence label
  = Done (gradients_spec (elementwise dact)
            (forward_state act s input_sequence)
            (length input_sequence) label).
Proof.
  pose proof s_shaped as (_ & _ & (Hr & _) & (_ & Hc & _) & _).
  apply backward_gradients_done.
  - exact nonempty.
  - apply forward_h_columns.
  - apply forward_x_columns.
  - change (mcols (Why_ s) = mrows (Whh_ s)); congruence.
  - unfold forward_state; cbn [p_ set_trace]; unfold probabilities_spec.
    rewrite length_map, logits_length by exact s_shaped.
    exact label_range.
Qed.

Lemma h_start_shaped : length (h_start s) = hidden_size_ s.
Proof.
  pose proof s_shaped as (_ & _ & (Hr & _) & _ & _ & _ & Hh0).
  unfold h_start; destruct (use_hidden_start_ s);
    [apply Hh0; reflexivity | rewrite Hr; apply vzero_length].
Qed.

Lemma first_step_shaped :
  mshape (hidden_size_ s) (hidden_size_ s)
    (outer (draw_spec (elementwise dact)
              (forward_state act s input_sequence)
              (length input_sequence) label 0)
           (h_start s)).
Proof.
  assert (HT : (0 < length input_sequence)%nat)
    by (destruct input_sequence; [congruence | simpl; lia]).
  rewrite <- (@draw_shaped act dact s input_sequence label s_shaped
                0%nat HT) at 1.
  rewrite <- h_start_shaped.
  apply mshape_outer.
Qed.

Ltac gradient_shape :=
  first [ apply dWxh_shaped | apply dWhh_shaped | apply dWhy_shaped
        | apply dbh_shaped | apply dby_shaped | apply dh0_shaped
        | apply first_step_shaped ];
  assumption.

Ltac along dir Hdir :=
  eapply derivable_value;
  [| apply (loss_directional_derivative dact act_derivable)
       with (D := dir);
     [exact s_shaped | exact Hdir | exact ids_valid | exact nonempty
     | exact label_range]];
  unfold gradient_along, gradients_spec, along_Wxh, along_Whh, along_Why,
    along_bh, along_by, along_h0, still;
  cbn [g_loop g_dWhy g_dby dWxh dbh dWhh dhnext
       d_Wxh d_Whh d_Why d_bh d_by d_h0].

Ltac pairings :=
  rewrite ?minner_munit by (first [gradient_shape | assumption]);
  rewrite ?minner_mzero_r by gradient_shape;
  rewrite ?dot_vzero_r;
  rewrite ?dot_vunit by (first [gradient_shape | assumption]).

Lemma partial_Wxh (i j : nat) :
  (i < hidden_size_ s)%nat -> (j < GetInputSize s)%nat ->
  derivable_pt_lim
    (loss_along act s (along_Wxh s i j) input_sequence label) 0
    (mget (dWxh_spec (elementwise dact)
             (forward_state act s input_sequence)
             (length input_sequence) label) i j).
Proof.
  intros Hi Hj.
  along (along_Wxh s i j) (along_Wxh_shaped s i j).
  pairings.
  rewrite start_tangent_still by reflexivity; ring.
Qed.

Lemma partial_bh (i : nat) :
  (i < hidden_size_ s)%nat ->
  derivable_pt_lim
    (loss_along act s (along_bh s i) input_sequence label) 0
    (nth i (dbh_spec (elementwise dact)
              (forward_state act s input_sequence)
              (length input_sequence) label) 0).
Proof.
  intros Hi.
  along (along_bh s i) (along_bh_shaped s i).
  pairings.
  rewrite start_tangent_still by reflexivity; ring.
Qed.

Lemma partial_Why (i j : nat) :
  (i < output_size_ s)%nat -> (j < hidden_size_ s)%nat ->
  derivable_pt_lim
    (loss_along act s (along_Why s i j) input_sequence label) 0
    (mget (dWhy_spec (forward_state act s input_sequence)
             (length input_sequence) label) i j).
Proof.
  intros Hi Hj.
  along (along_Why s i j) (along_Why_shaped s i j).
  pairings.
  rewrite start_tangent_still by reflexivity; ring.
Qed.

Lemma partial_by (i : nat) :
  (i < output_size_ s)%nat ->
  derivable_pt_lim
    (loss_along act s (along_by s i) input_sequence label) 0
    (nth i (dby_spec (forward_state act s input_sequence) label) 0).
Proof.
  intros Hi.
  along (along_by s i) (along_by_shaped s i).
  pairings.
  rewrite start_tangent_still by reflexivity; ring.
Qed.

Lemma partial_h0 (i : nat) :
  use_hidden_start_ s = true -> (i < hidden_size_ s)%nat ->
  derivable_pt_lim
    (loss_along act s (along_h0 s i) input_sequence label) 0
    (nth i (dh0_spec (elementwise dact)
              (forward_state act s input_sequence)
              (length input_sequence) label) 0).
Proof.
  intros Huse Hi.
  along (along_h0 s i) (along_h0_shaped s i).
  unfold start_tangent; rewrite Huse; cbn [d_h0].
  pairings; ring.
Qed.

Lemma partial_Whh (i j : nat) :
  (i < hidden_size_ s)%nat -> (j < hidden_size_ s)%nat ->
  derivable_pt_lim
    (loss_along act s (along_Whh s i j) input_sequence label) 0
    (mget (dWhh_spec (elementwise dact)
             (forward_state act s input_sequence)
             (length input_sequence) label) i j
     + nth i (draw_spec (elementwise dact)
                (forward_state act s input_sequence)
                (length input_sequence) label 0) 0
       * nth j (h_start s) 0).
Proof.
  intros Hi Hj.
  along (along_Whh s i j) (along_Whh_shaped s i j).
  pairings.
  rewrite start_tangent_still by reflexivity.
  rewrite mget_outer by (rewrite h_start_shaped; exact Hj); ring.
Qed.

End Partials.

(** X1.  The gradient tensors that the backward pass accumulates, against the
    loss [-log p[label]] of the forward pass, for an activation applied
    entry by entry whose derivative is [dact] of the activated value.
    On a non-empty sequence of dictionary ids, a label in range and a cell
    of the declared shapes, the forward pass and the accumulation complete,
    and
    - every entry of [dWxh], [dbh], [dWhy] and [dby] is the partial
      derivative of the loss in the matching entry of the parameter;
    - when the learned initial state is in use, every entry of the final
      [dhnext] is the partial derivative in the matching entry of [h0],
      and [dhnext] is [Whh^T draw] of step [0];
    - the partial derivative in [Whh(i,j)] is the entry of [dWhh] plus
      [draw_0(i) * h_start(j)], the share of step [0] that the loop leaves
      out: [dWhh] is exact where the initial state is zero. *)
Theorem accumulated_gradients_against_loss (act dact : R -> R) (s : RNN)
  (input_sequence : list Input) (label : Z) :
  (forall x, derivable_pt_lim act x (dact (act x))) ->
  well_shaped s ->
  valid_ids (lookup_layer_ s) input_sequence ->
  input_sequence <> [] ->
  (0 <= label < Z.of_nat (output_size_ s))%Z ->
  exists s1 g,
    RunForwardPass (elementwise act) s input_sequence = Done s1 /\
    backward_gradients (elementwise dact) s1 input_sequence label = Done g /\
    (forall i j, (i < hidden_size_ s)%nat -> (j < GetInputSize s)%nat ->
       derivable_pt_lim
         (loss_along act s (along_Wxh s i j) input_sequence label) 0
         (mget (dWxh (g_loop g)) i j)) /\
    (forall i, (i < hidden_size_ s)%nat ->
       derivable_pt_lim
         (loss_along act s (along_bh s i) input_sequence label) 0
         (nth i (dbh (g_loop g)) 0)) /\
    (forall i j, (i < output_size_ s)%nat -> (j < hidden_size_ s)%nat ->
       derivable_pt_lim
         (loss_along act s (along_Why s i j) input_sequence label) 0
         (mget (g_dWhy g) i j)) /\
    (forall i, (i < output_size_ s)%nat ->
       derivable_pt_lim
         (loss_along act s (along_by s i) input_sequence label) 0
         (nth i (g_dby g) 0)) /\
    (use_hidden_start_ s = true ->
     forall i, (i < hidden_size_ s)%nat ->
       derivable_pt_lim
         (loss_along act s (along_h0 s i) input_sequence label) 0
         (nth i (dhnext (g_loop g)) 0)) /\
    dhnext (g_loop g)
    = mat_tvec (Whh_ s)
        (draw_spec (elementwise dact) s1 (length input_sequence) label 0) /\
    (forall i j, (i < hidden_size_ s)%nat -> (j < hidden_size_ s)%nat ->
       derivable_pt_lim
         (loss_along act s (along_Whh s i j) input_sequence label) 0
         (mget (dWhh (g_loop g)) i j
          + nth i (draw_spec (elementwise dact) s1
                     (length input_sequence) label 0) 0
            * nth j (h_start s) 0)).
Proof.
  intros Hact Hs Hv Hne Hl.
  exists (forward_state act s input_sequence).
  exists (gradients_spec (elementwise dact)
            (forward_state act s input_sequence)
            (length input_sequence) label).
  split; [apply forward_pass_entrywise; assumption |].
  split; [apply backward_gradients_entrywise; assumption |].
  unfold gradients_spec; cbn [g_loop g_dWhy g_dby dWxh dbh dWhh dhnext].
  split; [intros i j Hi Hj; apply partial_Wxh; assumption |].
  split; [intros i Hi; apply partial_bh; assumption |].
  split; [intros i j Hi Hj; apply partial_Why with (dact := dact);
          assumption |].
  split; [intros i Hi; apply partial_by with (dact := dact);
          assumption |].
  split; [intros Huse i Hi; apply partial_h0; assumption |].
  split; [reflexivity |].
  intros i j Hi Hj; apply partial_Whh; assumption.
Qed.

Lemma accumulated_gradients_against_loss_example :
  well_shaped Example.cell /\
  valid_ids (lookup_layer_ Example.cell) Example.sentence /\
  exists s1 g,
    RunForwardPass (elementwise logistic) Example.cell Example.sentence
    = Done s1 /\
    backward_gradients (elementwise logistic_derivative) s1
      Example.sentence 1 = Done g /\
    forall i j,
      (i < hidden_size_ Example.cell)%nat ->
      (j < GetInputSize Example.cell)%nat ->
      derivable_pt_lim
        (loss_along logistic Example.cell (along_Wxh Example.cell i j)
           Example.sentence 1) 0
        (mget (dWxh (g_loop g)) i j).
Proof.
  assert (Hs : well_shaped Example.cell)
    by (repeat split; try reflexivity; try discriminate;
        repeat constructor).
  assert (Hv : valid_ids (lookup_layer_ Example.cell) Example.sentence)
    by (repeat constructor; simpl; lia).
  split; [exact Hs |]; split; [exact Hv |].
  destruct (@accumulated_gradients_against_loss logistic
              logistic_derivative Example.cell Example.sentence 1%Z
              logistic_derivable Hs Hv)
    as (s1 & g & Hrun & Hback & HWxh & _).
  - discriminate.
  - simpl; lia.
  - exists s1, g; repeat split; assumption.
Defined.

(** * Further properties of the header *)

(** ** The embedding table at its bounds *)


Lemma id_in_table_dec (E : Matrix) (inp : Input) :
  ({id_in_table E inp} + {~ id_in_table E inp})%type.
Proof.
  unfold id_in_table.
  destruct (Z_le_dec 0 (1 + wid inp));
    [destruct (Z_lt_dec (1 + wid inp) (Z.of_nat (mcols E))) |];
    [left; split; assumption | right; lia | right; lia].
Qed.

Lemma update_condition_dec (E dX : Matrix) (input_sequence : list Input) :
  ({Forall (id_in_table E) input_sequence /\
    (input_sequence <> [] -> length input_sequence <= mcols dX)%nat}
   + {~ (Forall (id_in_table E) input_sequence /\
         (input_sequence <> [] ->
          length input_sequence <= mcols dX)%nat)})%type.
Proof.
  destruct (Forall_dec _ (id_in_table_dec E) input_sequence) as [Ha|Ha];
    [| right; tauto].
  destruct (le_dec (length input_sequence) (mcols dX)) as [Hl|Hl];
    [left; tauto |].
  destruct input_sequence as [|a l]; [left; split; [exact Ha | congruence] |].
  right; intros [_ H]; apply Hl, H; discriminate.
Qed.

(** One step of the embedding update that cannot be made. *)
Lemma lookup_backward_step_abort (inp : Input) (rest : list Input) (t : Z)
  (dX : Matrix) (learning_rate : R) (E : Matrix) :
  ~ ((0 <= t < Z.of_nat (mcols dX))%Z /\ id_in_table E inp) ->
  Lookup.backward_loop (inp :: rest) t dX learning_rate E
  = Abort IndexOutOfRange.
Proof.
  intros Hno; cbn [Lookup.backward_loop].
  unfold col at 1.
  destruct ((0 <=? t)%Z && (t <? Z.of_nat (mcols dX))%Z)%bool eqn:Ht;
    [| reflexivity].
  cbn [bind]; unfold Lookup.col_sub_assign, col.
  destruct ((0 <=? 1 + wid inp)%Z
            && (1 + wid inp <? Z.of_nat (mcols E))%Z)%bool eqn:Hw;
    [| reflexivity].
  exfalso; apply Hno.
  apply andb_true_iff in Ht as [H1 H2]; apply andb_true_iff in Hw as [H3 H4].
  unfold id_in_table; lia.
Qed.

Lemma lookup_backward_loop_outcome (dX : Matrix) (learning_rate : R)
  (rest : list Input) :
  forall (t : nat) (E : Matrix),
    (Forall (id_in_table E) rest /\
     (rest <> [] -> t + length rest <= mcols dX)%nat ->
     exists E',
       Lookup.backward_loop rest (Z.of_nat t) dX learning_rate E
       = Done E') /\
    (~ (Forall (id_in_table E) rest /\
        (rest <> [] -> t + length rest <= mcols dX)%nat) ->
     Lookup.backward_loop rest (Z.of_nat t) dX learning_rate E
     = Abort IndexOutOfRange).
Proof.
  induction rest as [|inp rest IH]; intros t E.
  - split; [intros _; exists E; reflexivity |].
    intros Hno; exfalso; apply Hno; split; [constructor | congruence].
  - destruct (Z_lt_dec (Z.of_nat t) (Z.of_nat (mcols dX))) as [Ht|Ht];
      [| split].
    2:{ intros [_ Hlen]; specialize (Hlen ltac:(discriminate)).
        simpl in Hlen; lia. }
    2:{ intros _; apply lookup_backward_step_abort; lia. }
    destruct (id_in_table_dec E inp) as [Hin|Hin]; [| split].
    2:{ intros [Hall _]; inversion Hall; contradiction. }
    2:{ intros _; apply lookup_backward_step_abort; tauto. }
    rewrite lookup_backward_step by (auto; lia).
    set (E1 := mkMatrix (mrows E) _).
    assert (Hc1 : mcols E1 = mcols E)
      by (unfold mcols, E1; cbn [mdata]; apply replace_nth_length).
    assert (Hsame : forall l, Forall (id_in_table E1) l
                              <-> Forall (id_in_table E) l).
    { intros l; split; intros Hl; (eapply Forall_impl; [| exact Hl]);
        intros a Ha; unfold id_in_table in *; rewrite ?Hc1 in *;
        assumption. }
    destruct (IH (S t) E1) as [IHd IHa]; split.
    + intros [Hall Hlen]; apply IHd.
      inversion Hall as [|? ? _ Hall']; subst.
      split; [apply Hsame; exact Hall' |].
      intros _; specialize (Hlen ltac:(discriminate)); simpl in Hlen; lia.
    + intros Hno; apply IHa; intros [Hall Hlen]; apply Hno.
      split; [constructor; [exact Hin | apply Hsame; exact Hall] |].
      intros _; simpl.
      destruct rest as [|b rest']; [simpl; lia |].
      specialize (Hlen ltac:(discriminate)); simpl in *; lia.
Qed.

(** X3.  The embedding update has no assertion of its own.  For a
    gradient matrix of as many rows as the table, it completes exactly
    when every offset id is a column of the table and the gradient matrix
    has a column for every position, and every other run stops on an
    access outside a matrix. *)
Theorem lookup_backward_outcome (L : LookupLayer)
  (input_sequence : list Input) (dX : Matrix) (learning_rate : R)
  (rows : nat) :
  mshape rows (mcols (E_ L)) (E_ L) ->
  mshape rows (mcols dX) dX ->
  ((exists L',
       Lookup.RunBackwardLookupLayer L input_sequence dX learning_rate
       = Done L')
   <-> Forall (id_in_table (E_ L)) input_sequence /\
       (length input_sequence <= mcols dX)%nat) /\
  Lookup.RunBackwardLookupLayer L input_sequence dX learning_rate
  <> Abort AssertionFailed.
Proof.
  intros _ _.
  destruct (@lookup_backward_loop_outcome dX learning_rate input_sequence
              0 (E_ L)) as [Hd Ha].
  cbn [Nat.add Z.of_nat] in Hd, Ha.
  assert (Hcond :
            Forall (id_in_table (E_ L)) input_sequence /\
            (input_sequence <> [] -> length input_sequence <= mcols dX)%nat
            <-> Forall (id_in_table (E_ L)) input_sequence /\
                (length input_sequence <= mcols dX)%nat).
  { split; intros [H1 H2]; (split; [exact H1 |]).
    - destruct input_sequence; [simpl; lia | apply H2; discriminate].
    - intros _; exact H2. }
  unfold Lookup.RunBackwardLookupLayer.
  split; [split |].
  - intros [L' HL']; apply Hcond.
    destruct (update_condition_dec (E_ L) dX input_sequence)
      as [Hyes|Hno]; [exact Hyes |].
    rewrite (Ha Hno) in HL'; discriminate.
  - intros Hc; apply Hcond in Hc.
    destruct (Hd Hc) as [E' HE']; rewrite HE'; cbn [bind]; eauto.
  - destruct (update_condition_dec (E_ L) dX input_sequence)
      as [Hyes|Hno].
    + destruct (Hd Hyes) as [E' HE']; rewrite HE'; discriminate.
    + rewrite (Ha Hno); discriminate.
Qed.

Lemma lookup_backward_outcome_witness :
  mshape 2 3 (E_ Example.table) /\
  mshape 2 3 Example.dX /\
  exists L',
    Lookup.RunBackwardLookupLayer Example.table Example.sentence
      Example.dX (1 / 2) = Done L'.
Proof.
  assert (HE : mshape 2 (mcols (E_ Example.table)) (E_ Example.table))
    by (repeat split; repeat constructor).
  assert (HX : mshape 2 (mcols Example.dX) Example.dX)
    by (repeat split; repeat constructor).
  split; [exact HE |]; split; [exact HX |].
  apply (proj2 (proj1 (@lookup_backward_outcome Example.table
                         Example.sentence Example.dX (1 / 2) 2%nat HE HX))).
  split; [| unfold mcols; simpl; lia].
  unfold Example.sentence.
  repeat (apply Forall_cons; [unfold id_in_table, mcols; simpl; lia |]).
  apply Forall_nil.
Defined.

(** ** The forward pass and its buffers *)

Lemma forward_loop_ignores_trace (Ev : Z -> Vector -> Vector) (s : RNN)
  (x0 h0 : Matrix) (y0 p0 : Vector) (n : nat) :
  forall (t : Z) (x h : Matrix) (hprev : Vector),
    forward_loop Ev (set_trace s x0 h0 y0 p0) n t x h hprev
    = forward_loop Ev s n t x h hprev.
Proof.
  induction n as [|n IH]; intros t x h hprev; [reflexivity |].
  cbn [forward_loop activation_function_ Wxh_ Whh_ bh_ set_trace].
  destruct (col x t) as [xt|f]; cbn [bind]; [| reflexivity].
  destruct (set_col h t _) as [h'|f]; cbn [bind]; [| reflexivity].
  destruct (col h' t) as [hp|f]; cbn [bind]; [| reflexivity].
  apply IH.
Qed.

Lemma forward_pass_ignores_trace (Ev : Z -> Vector -> Vector) (s : RNN)
  (x h : Matrix) (y p : Vector) (input_sequence : list Input) :
  RunForwardPass Ev (set_trace s x h y p) input_sequence
  = RunForwardPass Ev s input_sequence.
Proof.
  unfold RunForwardPass.
  cbn [lookup_layer_ Whh_ Why_ by_ h0_ use_hidden_start_ set_trace].
  destruct (Lookup.RunForwardLookupLayer _ _) as [X|f]; cbn [bind];
    [| reflexivity].
  rewrite forward_loop_ignores_trace.
  destruct (forward_loop _ _ _ _ _ _ _) as [hh|f]; cbn [bind];
    [| reflexivity].
  destruct (col _ _) as [ht|f]; cbn [bind]; reflexivity.
Qed.

(** X4.  What the buffers [x_], [h_], [y_], [p_] hold from an earlier sentence
    never reaches the next forward pass: a completed pass, run again on
    the state it left, leaves that very state. *)
Theorem forward_pass_idempotent (Ev : Z -> Vector -> Vector) (s s1 : RNN)
  (input_sequence : list Input) :
  RunForwardPass Ev s input_sequence = Done s1 ->
  RunForwardPass Ev s1 input_sequence = Done s1 /\
  forall x h y p,
    RunForwardPass Ev (set_trace s x h y p) input_sequence = Done s1.
Proof.
  intros H; split.
  - destruct (forward_pass_frame _ _ _ H) as (x & h & y & p & ->).
    rewrite forward_pass_ignores_trace; exact H.
  - intros x h y p; rewrite forward_pass_ignores_trace; exact H.
Qed.

Lemma forward_pass_idempotent_witness :
  exists s1,
    RunForwardPass Evaluate_logistic Example.cell Example.sentence
    = Done s1 /\
    RunForwardPass Evaluate_logistic s1 Example.sentence = Done s1.
Proof.
  destruct (@forward_trace_shape Evaluate_logistic Example.cell
              Example.sentence example_cell_well_shaped
              example_sentence_valid ltac:(discriminate))
    as (s1 & Hfwd & _).
  exists s1; split; [exact Hfwd |].
  exact (proj1 (forward_pass_idempotent _ _ _ Hfwd)).
Defined.

(** ** The predicted label *)

(** The scan of [maxCoeff] from a non-empty prefix [pre] whose first
    largest entry [best] sits at [bi]: the index it returns is the first
    largest entry of the whole vector. *)
Lemma argmax_from_first_maximum (l : Vector) :
  forall (pre : Vector) (best : R) (bi : nat),
    (bi < length pre)%nat ->
    best = nth bi pre 0 ->
    (forall j, (j < length pre)%nat -> nth j pre 0 <= best) ->
    (forall j, (j < bi)%nat -> nth j pre 0 < best) ->
    exists k : nat,
      argmax_from l (Z.of_nat (length pre)) best (Z.of_nat bi)
      = Z.of_nat k /\
      (k < length (pre ++ l))%nat /\
      (forall j, (j < length (pre ++ l))%nat ->
                 nth j (pre ++ l) 0 <= nth k (pre ++ l) 0) /\
      (forall j, (j < k)%nat -> nth j (pre ++ l) 0 < nth k (pre ++ l) 0).
Proof.
  induction l as [|v l IH]; intros pre best bi Hbi Hbest Hmax Hfirst.
  - exists bi; rewrite app_nil_r, <- Hbest; cbn [argmax_from]; auto.
  - cbn [argmax_from].
    replace (Z.of_nat (length pre) + 1)%Z
      with (Z.of_nat (length (pre ++ [v])))
      by (rewrite length_app; simpl; lia).
    replace (pre ++ v :: l) with ((pre ++ [v]) ++ l)
      by (rewrite <- app_assoc; reflexivity).
    destruct (Rlt_dec best v) as [Hlt|Hge].
    + apply IH.
      * rewrite length_app; simpl; lia.
      * rewrite app_nth2, Nat.sub_diag by lia; reflexivity.
      * intros j Hj; rewrite length_app in Hj; simpl in Hj.
        destruct (Nat.eq_dec j (length pre)) as [->|Hne].
        -- rewrite app_nth2, Nat.sub_diag by lia; simpl; lra.
        -- rewrite app_nth1 by lia.
           specialize (Hmax j ltac:(lia)); lra.
      * intros j Hj; rewrite app_nth1 by lia.
        specialize (Hmax j Hj); lra.
    + apply IH.
      * rewrite length_app; simpl; lia.
      * rewrite app_nth1 by lia; exact Hbest.
      * intros j Hj; rewrite length_app in Hj; simpl in Hj.
        destruct (Nat.eq_dec j (length pre)) as [->|Hne].
        -- rewrite app_nth2, Nat.sub_diag by lia; simpl; lra.
        -- rewrite app_nth1 by lia; apply Hmax; lia.
      * intros j Hj; rewrite app_nth1 by lia; apply Hfirst; exact Hj.
Qed.

Lemma maxCoeff_first_maximum (v : Vector) (k : Z) :
  maxCoeff v = Done k ->
  (0 <= k < Z.of_nat (length v))%Z /\
  (forall j, (j < length v)%nat -> nth j v 0 <= nth (Z.to_nat k) v 0) /\
  (forall j, (j < Z.to_nat k)%nat -> nth j v 0 < nth (Z.to_nat k) v 0).
Proof.
  destruct v as [|a l]; [discriminate |].
  cbn [maxCoeff]; intros H; injection H as H.
  destruct (@argmax_from_first_maximum l [a] a 0%nat)
    as (k' & Hk' & Hlen & Hmax & Hfirst).
  - simpl; lia.
  - reflexivity.
  - intros [|j] Hj; simpl in *; [lra | lia].
  - intros j Hj; lia.
  - cbn [length Z.of_nat Pos.of_succ_nat app] in Hk', Hlen, Hmax, Hfirst.
    change (Z.pos 1) with 1%Z in Hk'.
    rewrite Hk' in H; subst k; rewrite Nat2Z.id.
    split; [cbn [length] in *; lia |].
    split; assumption.
Qed.

Lemma run_returns (Ev : Z -> Vector -> Vector) (s : RNN)
  (input_sequence : list Input) :
  well_shaped s ->
  valid_ids (lookup_layer_ s) input_sequence ->
  input_sequence <> [] ->
  (0 < output_size_ s)%nat ->
  exists s' prediction, Run Ev s input_sequence = Done (s', prediction).
Proof.
  intros Hs Hv Hne Hc; unfold Run.
  rewrite forward_pass_returns by assumption; cbn [bind p_ set_trace].
  set (y := logits_spec _ _ _ _).
  assert (Hy : length y = output_size_ s)
    by (apply logits_length; exact Hs).
  destruct y as [|y0 y]; [simpl in Hy; lia |].
  cbn [probabilities_spec map maxCoeff bind]; eauto.
Qed.

(** X5.  The label that [Run] predicts is a class index, the probability
    there is the largest of all and strictly larger than every earlier
    one (ties go to the lowest index). *)
Theorem run_predicts_first_maximum (Ev : Z -> Vector -> Vector)
  (s s' : RNN) (input_sequence : list Input) (prediction : Z) :
  Run Ev s input_sequence = Done (s', prediction) ->
  (0 <= prediction < Z.of_nat (length (p_ s')))%Z /\
  (forall j, (j < length (p_ s'))%nat ->
             nth j (p_ s') 0 <= nth (Z.to_nat prediction) (p_ s') 0) /\
  (forall j, (j < Z.to_nat prediction)%nat ->
             nth j (p_ s') 0 < nth (Z.to_nat prediction) (p_ s') 0).
Proof.
  unfold Run; intros H.
  apply bind_Done in H as (s1 & Hfwd & H).
  apply bind_Done in H as (k & Hmax & H).
  injection H as <- <-.
  destruct (maxCoeff_first_maximum _ Hmax) as (Hk & Hle & Hlt).
  split; [exact Hk |]; split; [exact Hle | exact Hlt].
Qed.

Lemma run_predicts_first_maximum_witness :
  exists s' prediction,
    Run Evaluate_logistic Example.cell Example.sentence
    = Done (s', prediction) /\
    (0 <= prediction < Z.of_nat (length (p_ s')))%Z /\
    forall j, (j < length (p_ s'))%nat ->
              nth j (p_ s') 0 <= nth (Z.to_nat prediction) (p_ s') 0.
Proof.
  destruct (@run_returns Evaluate_logistic Example.cell Example.sentence
              example_cell_well_shaped example_sentence_valid
              ltac:(discriminate) ltac:(simpl; lia))
    as (s' & k & Hrun).
  exists s', k; split; [exact Hrun |].
  destruct (run_predicts_first_maximum _ _ _ Hrun) as (Hk & Hle & _).
  split; [exact Hk | exact Hle].
Defined.

(** ** The loss of a sentence *)

Lemma entry_le_rsum (l : list R) (i : nat) :
  Forall (fun x => 0 < x) l -> (i < length l)%nat -> nth i l 0 <= rsum l.
Proof.
  intros Hpos; revert i; induction Hpos as [|x l Hx Hl IH]; intros i Hi;
    [simpl in Hi; lia |].
  assert (H0 : 0 <= rsum l).
  { clear -Hl; unfold rsum.
    induction Hl as [|y l Hy _ IH]; simpl; lra. }
  destruct i as [|i]; unfold rsum in *; simpl.
  - lra.
  - specialize (IH i ltac:(simpl in Hi; lia)); lra.
Qed.

Lemma probability_le_1 (y : Vector) (i : nat) :
  (i < length y)%nat -> nth i (probabilities_spec y) 0 <= 1.
Proof.
  intros Hi.
  assert (Hne : y <> []) by (destruct y; [simpl in Hi; lia | discriminate]).
  rewrite <- (probabilities_sum Hne).
  apply entry_le_rsum; [apply probabilities_pos |].
  unfold probabilities_spec; rewrite length_map; exact Hi.
Qed.

(** ** One training step keeps the shapes *)

Lemma mshape_msub_mscale (r c : nat) (W G : Matrix) (rate : R) :
  mshape r c W -> mshape r c G -> mshape r c (msub W (mscale rate G)).
Proof.
  intros (HrW & HcW & HW) (_ & HcG & HG); unfold mcols in *.
  unfold msub, mscale, mshape, mcols; cbn [mrows mdata].
  split; [exact HrW |].
  assert (Hlen : length (mdata W) = length (mdata G)) by congruence.
  clear HcG; revert c HcW Hlen HW HG.
  generalize (mdata G) as b; induction (mdata W) as [|x a IH];
    intros [|y b] c Hc Hlen Ha Hb; simpl in *; try discriminate;
    [split; [exact Hc | constructor] |].
  inversion Ha as [|? ? Hx Ha']; inversion Hb as [|? ? Hy Hb']; subst.
  destruct (IH b (length a)) as [Hl Hf]; auto.
  split; [now rewrite Hl |].
  constructor; [| exact Hf].
  unfold vsub; rewrite vzip_length, vscale_length; lia.
Qed.

Lemma vsub_vscale_length (n : nat) (v g : Vector) (rate : R) :
  length v = n -> length g = n -> length (vsub v (vscale rate g)) = n.
Proof.
  intros Hv Hg; unfold vsub; rewrite vzip_length, vscale_length; lia.
Qed.

(** The embedding update keeps the shape of the table when the gradient
    columns have as many entries as the embeddings. *)
Lemma lookup_backward_loop_shape (r c : nat) (dX : Matrix)
  (learning_rate : R) (rest : list Input) :
  forall (t : nat) (E : Matrix),
    mshape r c E ->
    Forall (fun v => length v = r) (mdata dX) ->
    Forall (id_in_table E) rest ->
    (t + length rest <= mcols dX)%nat ->
    exists E',
      Lookup.backward_loop rest (Z.of_nat t) dX learning_rate E = Done E' /\
      mshape r c E'.
Proof.
  induction rest as [|inp rest IH]; intros t E HE HdX Hin Hlen.
  - exists E; split; [reflexivity | exact HE].
  - inversion Hin as [|? ? Hi Hin']; subst; simpl in Hlen.
    rewrite lookup_backward_step by (auto; lia).
    set (E1 := mkMatrix (mrows E) _).
    assert (HE1 : mshape r c E1).
    { destruct HE as (Hr & Hc & Hall); unfold E1, mshape, mcols in *;
        cbn [mrows mdata].
      split; [exact Hr |]; split; [rewrite replace_nth_length; exact Hc |].
      apply Forall_replace_nth; [exact Hall |].
      apply vsub_vscale_length.
      - unfold looked_up, id_in_table, mcols in *.
        rewrite Forall_forall in Hall; apply Hall, nth_In; lia.
      - rewrite Forall_forall in HdX; apply HdX, nth_In.
        unfold mcols in Hlen; lia. }
    apply IH; try assumption; [| lia].
    eapply Forall_impl; [| exact Hin'].
    intros a Ha; unfold id_in_table in *.
    destruct HE as (_ & Hc & _), HE1 as (_ & Hc1 & _); rewrite Hc1, <- Hc.
    exact Ha.
Qed.

Section TrainingStep.

Variable EvaluateActivation : Z -> Vector -> Vector.
Variable DerivateActivation : Z -> Vector -> Vector.

(** The two collaborators write a result of the size of their input. *)
Hypothesis Evaluate_length :
  forall kind v, length (EvaluateActivation kind v) = length v.
Hypothesis Derivate_length :
  forall kind v, length (DerivateActivation kind v) = length v.

Variable s : RNN.
Variable input_sequence : list Input.
Variable label : Z.

Hypothesis s_shaped : well_shaped s.
Hypothesis ids_valid : valid_ids (lookup_layer_ s) input_sequence.
Hypothesis nonempty : input_sequence <> [].
Hypothesis label_range : (0 <= label < Z.of_nat (output_size_ s))%Z.

Lemma sentence_positive : (0 < length input_sequence)%nat.
Proof. destruct input_sequence; [congruence | simpl; lia]. Qed.

Lemma forward_trace_done :
  RunForwardPass EvaluateActivation s input_sequence
  = Done (forward_trace EvaluateActivation s input_sequence).
Proof. apply forward_pass_returns; assumption. Qed.

Lemma hidden_spec_shaped (X : Matrix) (t : nat) :
  length (hidden_spec EvaluateActivation s X t) = hidden_size_ s.
Proof.
  destruct s_shaped as (_ & (HrWxh & _) & (HrWhh & _) & _ & Hbh & _).
  destruct t; cbn [hidden_spec]; rewrite Evaluate_length; unfold vadd;
    rewrite !vzip_length, !mat_vec_length; lia.
Qed.

Lemma trace_h_col (t : nat) :
  (t < length input_sequence)%nat ->
  length (h_col (forward_trace EvaluateActivation s input_sequence) t)
  = hidden_size_ s.
Proof.
  intros Ht; unfold h_col, forward_trace, hidden_matrix_spec;
    cbn [h_ set_trace mdata].
  rewrite nth_map_seq_col by exact Ht; apply hidden_spec_shaped.
Qed.

Lemma trace_x_col (t : nat) :
  (t < length input_sequence)%nat ->
  length (x_col (forward_trace EvaluateActivation s input_sequence) t)
  = GetInputSize s.
Proof.
  intros Ht; unfold x_col, forward_trace, embedded; cbn [x_ set_trace mdata].
  apply looked_up_length; [apply s_shaped | exact ids_valid | exact Ht].
Qed.

Lemma trace_h_columns :
  mcols (h_ (forward_trace EvaluateActivation s input_sequence))
  = length input_sequence.
Proof.
  unfold mcols, forward_trace, hidden_matrix_spec; cbn [h_ set_trace mdata].
  now rewrite length_map, length_seq.
Qed.

Lemma trace_x_columns :
  mcols (x_ (forward_trace EvaluateActivation s input_sequence))
  = length input_sequence.
Proof.
  unfold mcols, forward_trace, embedded; cbn [x_ set_trace mdata].
  apply length_map.
Qed.

Lemma trace_p_length :
  length (p_ (forward_trace EvaluateActivation s input_sequence))
  = output_size_ s.
Proof.
  unfold forward_trace; cbn [p_ set_trace]; unfold probabilities_spec.
  rewrite length_map; apply logits_length, s_shaped.
Qed.

Lemma trace_dy :
  length (dy_spec (forward_trace EvaluateActivation s input_sequence) label)
  = output_size_ s.
Proof.
  unfold dy_spec; rewrite replace_nth_length; apply trace_p_length.
Qed.

Lemma trace_dh_back (k : nat) :
  length (dh_back DerivateActivation
            (forward_trace EvaluateActivation s input_sequence)
            (length input_sequence) label k)
  = hidden_size_ s.
Proof.
  destruct s_shaped as (_ & _ & (_ & HcWhh & _) & (_ & HcWhy & _) & _).
  destruct k; cbn [dh_back]; rewrite mat_tvec_length; assumption.
Qed.

Lemma trace_draw (t : nat) :
  (t < length input_sequence)%nat ->
  length (draw_spec DerivateActivation
            (forward_trace EvaluateActivation s input_sequence)
            (length input_sequence) label t)
  = hidden_size_ s.
Proof.
  intros Ht; unfold draw_spec, vmul.
  rewrite vzip_length, Derivate_length, trace_h_col, trace_dh_back by exact Ht.
  apply Nat.min_id.
Qed.

Lemma trace_dWxh :
  mshape (hidden_size_ s) (GetInputSize s)
    (dWxh_spec DerivateActivation
       (forward_trace EvaluateActivation s input_sequence)
       (length input_sequence) label).
Proof.
  pose proof s_shaped as (_ & (Hr & Hc & _) & _).
  unfold dWxh_spec, steps_down.
  change (Wxh_ (forward_trace EvaluateActivation s input_sequence))
    with (Wxh_ s).
  rewrite Hr, Hc.
  apply mshape_fold; [apply mshape_mzero |].
  intros t Ht; apply in_rev, in_seq in Ht.
  rewrite <- (trace_draw (t := t)) at 1 by lia.
  rewrite <- (trace_x_col (t := t)) by lia.
  apply mshape_outer.
Qed.

Lemma trace_dWhh :
  mshape (hidden_size_ s) (hidden_size_ s)
    (dWhh_spec DerivateActivation
       (forward_trace EvaluateActivation s input_sequence)
       (length input_sequence) label).
Proof.
  pose proof s_shaped as (_ & _ & (Hr & Hc & _) & _).
  unfold dWhh_spec, steps_down.
  change (Whh_ (forward_trace EvaluateActivation s input_sequence))
    with (Whh_ s).
  rewrite Hr, Hc.
  apply mshape_fold; [apply mshape_mzero |].
  intros t Ht; apply filter_In in Ht; destruct Ht as [Ht Hpos].
  apply in_rev, in_seq in Ht; apply Nat.ltb_lt in Hpos.
  rewrite <- (trace_draw (t := t)) at 1 by lia.
  rewrite <- (trace_h_col (t := t - 1)) by lia.
  apply mshape_outer.
Qed.

Lemma trace_dWhy :
  mshape (output_size_ s) (hidden_size_ s)
    (dWhy_spec (forward_trace EvaluateActivation s input_sequence)
       (length input_sequence) label).
Proof.
  pose proof s_shaped as (_ & _ & _ & (Hr & Hc & _) & _).
  pose proof sentence_positive as HT.
  unfold dWhy_spec.
  change (Why_ (forward_trace EvaluateActivation s input_sequence))
    with (Why_ s).
  rewrite Hr, Hc.
  apply mshape_madd; [apply mshape_mzero |].
  rewrite <- trace_dy at 1.
  rewrite <- (trace_h_col (t := length input_sequence - 1)) by lia.
  apply mshape_outer.
Qed.

Lemma trace_dbh :
  length (dbh_spec DerivateActivation
            (forward_trace EvaluateActivation s input_sequence)
            (length input_sequence) label)
  = hidden_size_ s.
Proof.
  pose proof s_shaped as (_ & _ & (Hr & _) & _).
  unfold dbh_spec, steps_down.
  change (Whh_ (forward_trace EvaluateActivation s input_sequence))
    with (Whh_ s).
  apply length_fold; [rewrite Hr; apply vzero_length |].
  intros t Ht; apply in_rev, in_seq in Ht.
  apply trace_draw; lia.
Qed.

Lemma trace_dby :
  dby_spec (forward_trace EvaluateActivation s input_sequence) label
  = dy_spec (forward_trace EvaluateActivation s input_sequence) label.
Proof.
  pose proof s_shaped as (_ & _ & _ & (Hr & _) & _).
  unfold dby_spec.
  change (Why_ (forward_trace EvaluateActivation s input_sequence))
    with (Why_ s).
  rewrite Hr; apply vadd_vzero_l, trace_dy.
Qed.

Lemma trace_dh0 :
  length (dh0_spec DerivateActivation
            (forward_trace EvaluateActivation s input_sequence)
            (length input_sequence) label)
  = hidden_size_ s.
Proof.
  pose proof s_shaped as (_ & _ & (_ & Hc & _) & _).
  unfold dh0_spec; rewrite mat_tvec_length; exact Hc.
Qed.

Lemma trace_dX :
  Forall (fun v => length v = GetInputSize s)
    (mdata (dX_spec DerivateActivation
              (forward_trace EvaluateActivation s input_sequence)
              (length input_sequence) label)).
Proof.
  pose proof s_shaped as (_ & (_ & Hc & _) & _).
  unfold dX_spec; cbn [mdata].
  apply Forall_map, Forall_forall; intros t _.
  rewrite mat_tvec_length; exact Hc.
Qed.

(** A forward pass followed by the backward pass on the sentence
    completes and leaves a cell of the same configuration and shapes. *)
Lemma train_step_shaped (learning_rate : R) :
  exists s2,
    RunBackwardPass DerivateActivation
      (forward_trace EvaluateActivation s input_sequence)
      input_sequence label learning_rate = Done s2 /\
    well_shaped s2 /\
    configuration s2 = configuration s.
Proof.
  set (s1 := forward_trace EvaluateActivation s input_sequence).
  pose proof s_shaped as (HL & HWxh & HWhh & HWhy & Hbh & Hby & Hh0).
  pose proof (well_shaped_in_table s_shaped ids_valid) as Hin.
  destruct (@lookup_backward_loop_shape
              (embedding_dimension_ (lookup_layer_ s))
              (GetNumWords (dictionary_ (lookup_layer_ s)) + 1)
              (dX_spec DerivateActivation s1 (length input_sequence) label)
              learning_rate input_sequence 0 (E_ (lookup_layer_ s)))
    as (E' & HE' & HsE'); try assumption.
  { exact trace_dX. }
  { rewrite dX_spec_columns; lia. }
  destruct (@backward_pass_done DerivateActivation s1 input_sequence label
              learning_rate)
    as (L' & HL' & Hbwd); try assumption.
  { apply trace_h_columns. }
  { apply trace_x_columns. }
  { change (mcols (Why_ s) = mrows (Whh_ s)).
    destruct HWhh as (Hr & _), HWhy as (_ & Hc & _); congruence. }
  { unfold s1; rewrite trace_p_length; exact label_range. }
  unfold Lookup.RunBackwardLookupLayer in HL'.
  change (lookup_layer_ s1) with (lookup_layer_ s) in HL'.
  change 0%Z with (Z.of_nat 0) in HL'.
  rewrite HE' in HL'; cbn [bind] in HL'; injection HL' as <-.
  eexists; split; [exact Hbwd |].
  unfold sgd_spec, well_shaped, lookup_shaped, configuration, GetInputSize.
  cbn [lookup_layer_ set_params hidden_size_ output_size_ Wxh_ Whh_ Why_
       bh_ by_ h0_ use_hidden_start_ activation_function_
       embedding_dimension_ dictionary_ E_].
  change (hidden_size_ s1) with (hidden_size_ s).
  change (output_size_ s1) with (output_size_ s).
  change (use_hidden_start_ s1) with (use_hidden_start_ s).
  change (activation_function_ s1) with (activation_function_ s).
  change (Wxh_ s1) with (Wxh_ s); change (Whh_ s1) with (Whh_ s).
  change (Why_ s1) with (Why_ s); change (bh_ s1) with (bh_ s).
  change (by_ s1) with (by_ s); change (h0_ s1) with (h0_ s).
  split; [| reflexivity].
  split; [exact HsE' |].
  split; [apply mshape_msub_mscale; [exact HWxh | apply trace_dWxh] |].
  split; [apply mshape_msub_mscale; [exact HWhh | apply trace_dWhh] |].
  split; [apply mshape_msub_mscale; [exact HWhy | apply trace_dWhy] |].
  split; [apply vsub_vscale_length; [exact Hbh | apply trace_dbh] |].
  split.
  - apply vsub_vscale_length; [exact Hby |].
    unfold s1; rewrite trace_dby; apply trace_dy.
  - intros Hu; rewrite Hu.
    apply vsub_vscale_length; [apply Hh0; exact Hu | apply trace_dh0].
Qed.

End TrainingStep.

(** ** The training loops *)

Lemma same_cell_up_to_trace (r r' : RNN) :
  parameters r = parameters r' ->
  configuration r = configuration r' ->
  r' = set_trace r (x_ r') (h_ r') (y_ r') (p_ r').
Proof.
  destruct r as [af L H C u Wxh Whh Why bh by0 h0 x h y p].
  destruct r' as [af' L' H' C' u' Wxh' Whh' Why' bh' by0' h0' x' h' y' p'].
  unfold parameters, configuration, set_trace; cbn.
  intros Hp Hc; inversion Hp; inversion Hc; subst; reflexivity.
Qed.

Lemma set_trace_same_cell (s : RNN) (x h : Matrix) (y p : Vector) :
  parameters (set_trace s x h y p) = parameters s /\
  configuration (set_trace s x h y p) = configuration s.
Proof. split; reflexivity. Qed.

Lemma well_shaped_same_cell (r r' : RNN) :
  parameters r = parameters r' ->
  configuration r = configuration r' ->
  well_shaped r -> well_shaped r'.
Proof.
  intros Hp Hc Hr.
  rewrite (same_cell_up_to_trace Hp Hc); exact Hr.
Qed.

Lemma valid_ids_same_configuration (r r' : RNN) (l : list Input) :
  configuration r = configuration r' ->
  valid_ids (lookup_layer_ r) l -> valid_ids (lookup_layer_ r') l.
Proof.
  intros Hc.
  assert (Hd : dictionary_ (lookup_layer_ r) = dictionary_ (lookup_layer_ r'))
    by (unfold configuration in Hc; congruence).
  unfold valid_ids; now rewrite Hd.
Qed.

Lemma scorable_same_configuration (r r' : RNN)
  (input_sequences : list (list Input)) (output_labels : list Z) :
  configuration r = configuration r' ->
  scorable r input_sequences output_labels ->
  scorable r' input_sequences output_labels.
Proof.
  intros Hc [Hlen Hall]; split; [exact Hlen |].
  eapply Forall_impl; [| exact Hall].
  intros l [Hne Hv]; split; [exact Hne |].
  exact (valid_ids_same_configuration Hc Hv).
Qed.

Lemma label_at_done (output_labels : list Z) (i : nat) :
  (i < length output_labels)%nat ->
  label_at output_labels i = Done (nth i output_labels 0%Z).
Proof.
  intros Hi; unfold label_at.
  now rewrite (nth_error_nth' output_labels 0%Z Hi).
Qed.

Lemma run_same_cell (Ev : Z -> Vector -> Vector) (s s' : RNN)
  (input_sequence : list Input) (prediction : Z) :
  Run Ev s input_sequence = Done (s', prediction) ->
  parameters s' = parameters s /\ configuration s' = configuration s.
Proof.
  unfold Run; intros H.
  apply bind_Done in H as (s1 & Hfwd & H).
  apply bind_Done in H as (k & _ & H).
  injection H as <- _.
  destruct (forward_pass_frame _ _ _ Hfwd) as (x & h & y & p & ->).
  apply set_trace_same_cell.
Qed.

(** Scoring a set changes no parameter, whatever the set. *)
Lemma evaluate_loop_same_cell (Ev : Z -> Vector -> Vector)
  (rest : list (list Input)) (output_labels : list Z) :
  forall (i : nat) (s s' : RNN) (a a' : R),
    evaluate_loop Ev rest output_labels i s a = Done (s', a') ->
    parameters s' = parameters s /\ configuration s' = configuration s.
Proof.
  induction rest as [|l rest IH]; intros i s s' a a' H.
  - injection H as <- _; split; reflexivity.
  - cbn [evaluate_loop] in H.
    apply bind_Done in H as ([s1 k] & Hrun & H).
    apply bind_Done in H as (lab & _ & H).
    apply IH in H as [Hp Hc]; cbn [fst] in Hp, Hc.
    pose proof Hrun as Hsame; apply run_same_cell in Hsame.
    destruct Hsame as [Hp1 Hc1].
    split; congruence.
Qed.

Lemma evaluate_same_cell (Ev : Z -> Vector -> Vector) (s s' : RNN)
  (input_sequences : list (list Input)) (output_labels : list Z) (a : R) :
  evaluate Ev s input_sequences output_labels = Done (s', a) ->
  parameters s' = parameters s /\ configuration s' = configuration s.
Proof.
  unfold evaluate; intros H.
  apply bind_Done in H as ([s1 a1] & Hloop & H).
  injection H as <- _.
  apply evaluate_loop_same_cell in Hloop; exact Hloop.
Qed.

(** Scoring completes on a scorable set, with a count of correct answers
    between none and all. *)
Lemma evaluate_loop_done (Ev : Z -> Vector -> Vector)
  (rest : list (list Input)) (output_labels : list Z) :
  forall (i : nat) (s : RNN) (a : R),
    well_shaped s ->
    (0 < output_size_ s)%nat ->
    (i + length rest <= length output_labels)%nat ->
    Forall (fun l => l <> [] /\ valid_ids (lookup_layer_ s) l) rest ->
    exists s' a',
      evaluate_loop Ev rest output_labels i s a = Done (s', a') /\
      a <= a' <= a + INR (length rest).
Proof.
  induction rest as [|l rest IH]; intros i s a Hs Hc Hlen Hall.
  - exists s, a; split; [reflexivity |]; simpl; lra.
  - inversion Hall as [|? ? [Hne Hv] Hall']; subst.
    cbn [length] in Hlen.
    destruct (run_returns Ev Hs Hv Hne Hc) as (s1 & k & Hrun).
    pose proof Hrun as Hsame; apply run_same_cell in Hsame.
    destruct Hsame as [Hp1 Hc1].
    cbn [evaluate_loop]; rewrite Hrun; cbn [bind fst snd].
    rewrite label_at_done by lia; cbn [bind].
    set (a1 := if (nth i output_labels 0 =? k)%Z then a + 1 else a).
    assert (Ha1 : a <= a1 <= a + 1)
      by (unfold a1; destruct (_ =? _)%Z; lra).
    destruct (IH (S i) s1 a1) as (s' & a' & Hrest & Hb).
    + apply (well_shaped_same_cell (r := s)); [congruence .. | exact Hs].
    + assert (HC : output_size_ s1 = output_size_ s)
        by (unfold configuration in Hc1; congruence).
      rewrite HC; exact Hc.
    + lia.
    + eapply Forall_impl; [| exact Hall'].
      intros l' [Hne' Hv']; split; [exact Hne' |].
      apply (valid_ids_same_configuration (r := s)); [congruence | exact Hv'].
    + exists s', a'; split; [exact Hrest |].
      cbn [length]; rewrite S_INR; lra.
Qed.

Lemma maxCoeff_done (v : Vector) :
  v <> [] -> exists k, maxCoeff v = Done k.
Proof. destruct v as [|a l]; [congruence | intros _; cbn; eauto]. Qed.

Lemma cross_entropy_nonneg (y : Vector) (i : nat) :
  (i < length y)%nat -> 0 <= - ln (nth i (probabilities_spec y) 0).
Proof.
  intros Hi; pose proof (probability_le_1 _ Hi) as Hle.
  unfold probabilities_spec in *; rewrite nth_map_in in * by exact Hi.
  rewrite ln_exp.
  set (z := nth i y 0 - LogSumExp y) in *.
  destruct (Rle_dec z 0) as [Hz|Hz]; [lra |].
  exfalso; assert (Hexp : exp 0 < exp z) by (apply exp_increasing; lra).
  rewrite exp_0 in Hexp; lra.
Qed.

Lemma ratio_bounds (a : R) (n : nat) :
  (0 < n)%nat -> 0 <= a <= INR n -> 0 <= a / INR n <= 1.
Proof.
  intros Hn [H0 H1].
  assert (Hpos : 0 < INR n) by (apply lt_0_INR; exact Hn).
  split.
  - apply Rmult_le_pos; [exact H0 | left; apply Rinv_0_lt_compat, Hpos].
  - apply (Rmult_le_reg_r (INR n)); [exact Hpos |].
    unfold Rdiv; rewrite Rmult_assoc, Rinv_l by lra; lra.
Qed.

Lemma evaluate_done (Ev : Z -> Vector -> Vector) (s : RNN)
  (input_sequences : list (list Input)) (output_labels : list Z) :
  well_shaped s ->
  (0 < output_size_ s)%nat ->
  scorable s input_sequences output_labels ->
  exists s' a,
    evaluate Ev s input_sequences output_labels = Done (s', a) /\
    parameters s' = parameters s /\
    configuration s' = configuration s /\
    (input_sequences <> [] -> 0 <= a <= 1).
Proof.
  intros Hs Hc [Hlen Hall].
  destruct (@evaluate_loop_done Ev input_sequences output_labels 0 s 0
              Hs Hc Hlen Hall) as (s' & a' & Hloop & Ha').
  pose proof Hloop as Hsame; apply evaluate_loop_same_cell in Hsame.
  destruct Hsame as [Hp Hcf].
  exists s', (a' / INR (length input_sequences)).
  unfold evaluate; rewrite Hloop; cbn [bind fst snd].
  split; [reflexivity |]; split; [exact Hp |]; split; [exact Hcf |].
  intros Hne; apply ratio_bounds; [| lra].
  destruct input_sequences; [congruence | simpl; lia].
Qed.

Lemma trainable_labels (s : RNN) (input_sequences : list (list Input))
  (output_labels : list Z) (k : nat) :
  trainable s input_sequences output_labels ->
  (k < length input_sequences)%nat ->
  (0 <= nth k output_labels 0%Z < Z.of_nat (output_size_ s))%Z.
Proof.
  intros [[Hlen _] Hall] Hk.
  rewrite Forall_nth in Hall.
  specialize (Hall k 0%Z).
  rewrite nth_firstn, length_firstn in Hall.
  destruct (Nat.ltb_spec k (length input_sequences)); [| lia].
  apply Hall; lia.
Qed.

Lemma trainable_same_configuration (r r' : RNN)
  (input_sequences : list (list Input)) (output_labels : list Z) :
  configuration r = configuration r' ->
  trainable r input_sequences output_labels ->
  trainable r' input_sequences output_labels.
Proof.
  intros Hc [Hsc Hall]; split.
  - exact (scorable_same_configuration Hc Hsc).
  - assert (HC : output_size_ r = output_size_ r')
      by (unfold configuration in Hc; congruence).
    rewrite <- HC; exact Hall.
Qed.

Section Training.

Variable EvaluateActivation : Z -> Vector -> Vector.
Variable DerivateActivation : Z -> Vector -> Vector.

Hypothesis Evaluate_length :
  forall kind v, length (EvaluateActivation kind v) = length v.
Hypothesis Derivate_length :
  forall kind v, length (DerivateActivation kind v) = length v.

(** A property of the parameters that every training step keeps. *)
Variable P : RNN -> Prop.

Hypothesis P_step :
  forall (r r2 : RNN) (input_sequence : list Input) (label : Z)
         (learning_rate : R),
    well_shaped r ->
    valid_ids (lookup_layer_ r) input_sequence ->
    input_sequence <> [] ->
    (0 <= label < Z.of_nat (output_size_ r))%Z ->
    P r ->
    RunBackwardPass DerivateActivation
      (forward_trace EvaluateActivation r input_sequence)
      input_sequence label learning_rate = Done r2 ->
    P r2.

Hypothesis P_same_cell :
  forall r r' : RNN,
    parameters r = parameters r' -> configuration r = configuration r' ->
    P r -> P r'.

Variable learning_rate : R.

Lemma train_loop_done (rest : list (list Input)) (output_labels : list Z) :
  forall (i : nat) (s : RNN) (total_loss accuracy : R),
    well_shaped s ->
    P s ->
    (i + length rest <= length output_labels)%nat ->
    Forall (fun l => l <> [] /\ valid_ids (lookup_layer_ s) l) rest ->
    (forall k, (k < length rest)%nat ->
               (0 <= nth (i + k) output_labels 0%Z
                < Z.of_nat (output_size_ s))%Z) ->
    exists s' total_loss' accuracy',
      train_loop EvaluateActivation DerivateActivation rest output_labels i
        learning_rate s total_loss accuracy
      = Done (s', (total_loss', accuracy')) /\
      well_shaped s' /\
      configuration s' = configuration s /\
      P s' /\
      total_loss <= total_loss' /\
      accuracy <= accuracy' <= accuracy + INR (length rest).
Proof.
  induction rest as [|l rest IH];
    intros i s total_loss accuracy Hs HP Hlen Hall Hlab.
  - exists s, total_loss, accuracy.
    split; [reflexivity |]; split; [exact Hs |]; split; [reflexivity |].
    split; [exact HP |]; simpl; lra.
  - inversion Hall as [|? ? [Hne Hv] Hall']; subst.
    cbn [length] in Hlen.
    assert (Hl0 := Hlab 0%nat (Nat.lt_0_succ (length rest))).
    rewrite Nat.add_0_r in Hl0.
    set (lab := nth i output_labels 0%Z) in *.
    cbn [train_loop].
    rewrite (forward_trace_done EvaluateActivation Hs Hv Hne); cbn [bind].
    rewrite label_at_done by lia; cbn [bind]; fold lab.
    set (s1 := forward_trace EvaluateActivation s l).
    assert (Hp : length (p_ s1) = output_size_ s)
      by (apply trace_p_length; exact Hs).
    unfold vget; rewrite Hp, in_range_true by exact Hl0; cbn [bind].
    destruct (@maxCoeff_done (p_ s1)) as [k Hk].
    { destruct (p_ s1); [simpl in Hp; lia | discriminate]. }
    rewrite Hk; cbn [bind].
    destruct (@train_step_shaped EvaluateActivation DerivateActivation
                Evaluate_length Derivate_length s l lab Hs Hv Hne Hl0
                learning_rate)
      as (s2 & Hbwd & Hs2 & Hc2).
    fold s1 in Hbwd; rewrite Hbwd; cbn [bind].
    assert (HP2 : P s2)
      by (exact (@P_step s s2 l lab learning_rate Hs Hv Hne Hl0 HP Hbwd)).
    assert (HC : output_size_ s2 = output_size_ s)
      by (unfold configuration in Hc2; congruence).
    set (a1 := if (k =? lab)%Z then accuracy + 1 else accuracy).
    assert (Ha1 : accuracy <= a1 <= accuracy + 1)
      by (unfold a1; destruct (_ =? _)%Z; lra).
    assert (Hloss : 0 <= - ln (nth (Z.to_nat lab) (p_ s1) 0)).
    { unfold s1, forward_trace; cbn [p_ set_trace].
      apply cross_entropy_nonneg.
      rewrite logits_length by exact Hs; lia. }
    destruct (IH (S i) s2 (total_loss + - ln (nth (Z.to_nat lab) (p_ s1) 0))
                a1 Hs2 HP2)
      as (s' & tl' & a' & Hrest & Hs' & Hc' & HP' & Htl & Ha').
    + lia.
    + eapply Forall_impl; [| exact Hall'].
      intros l' [Hne' Hv']; split; [exact Hne' |].
      apply (valid_ids_same_configuration (r := s)); [congruence | exact Hv'].
    + intros k' Hk'; rewrite HC.
      replace (S i + k')%nat with (i + S k')%nat by lia.
      apply Hlab; simpl; lia.
    + exists s', tl', a'; split; [exact Hrest |].
      split; [exact Hs' |]; split; [congruence |]; split; [exact HP' |].
      cbn [length]; rewrite S_INR; split; lra.
Qed.

Lemma TrainEpoch_done (input_sequences : list (list Input))
  (output_labels : list Z)
  (input_sequences_dev : list (list Input)) (output_labels_dev : list Z)
  (input_sequences_test : list (list Input)) (output_labels_test : list Z)
  (epoch : Z) (s : RNN) :
  well_shaped s ->
  P s ->
  (0 < output_size_ s)%nat ->
  trainable s input_sequences output_labels ->
  scorable s input_sequences_dev output_labels_dev ->
  scorable s input_sequences_test output_labels_test ->
  exists s' line,
    TrainEpoch EvaluateActivation DerivateActivation
      input_sequences output_labels
      input_sequences_dev output_labels_dev
      input_sequences_test output_labels_test
      epoch learning_rate s = Done (s', line) /\
    well_shaped s' /\
    configuration s' = configuration s /\
    P s' /\
    line_epoch line = (epoch + 1)%Z /\
    0 <= line_total_loss line /\
    (input_sequences <> [] -> 0 <= line_accuracy line <= 1) /\
    (input_sequences_dev <> [] -> 0 <= line_accuracy_dev line <= 1) /\
    (input_sequences_test <> [] -> 0 <= line_accuracy_test line <= 1).
Proof.
  intros Hs HP Hc Htrain Hdev Htest.
  pose proof Htrain as [[Hlen Hall] _].
  destruct (@train_loop_done input_sequences output_labels 0 s 0 0
              Hs HP Hlen Hall)
    as (s1 & tl & a & Hloop & Hs1 & Hc1 & HP1 & Htl & Ha).
  { intros k Hk; apply (trainable_labels Htrain); exact Hk. }
  assert (HC1 : output_size_ s1 = output_size_ s)
    by (unfold configuration in Hc1; congruence).
  destruct (@evaluate_done EvaluateActivation s1 input_sequences_dev
              output_labels_dev Hs1)
    as (s2 & ad & Hev2 & Hp2 & Hc2 & Had).
  { rewrite HC1; exact Hc. }
  { apply (scorable_same_configuration (r := s)); [congruence | exact Hdev]. }
  assert (Hs2 : well_shaped s2)
    by (apply (well_shaped_same_cell (r := s1)); [congruence .. | exact Hs1]).
  destruct (@evaluate_done EvaluateActivation s2 input_sequences_test
              output_labels_test Hs2)
    as (s3 & at' & Hev3 & Hp3 & Hc3 & Hat).
  { assert (HC2 : output_size_ s2 = output_size_ s1)
      by (unfold configuration in Hc2; congruence).
    rewrite HC2, HC1; exact Hc. }
  { apply (scorable_same_configuration (r := s)); [congruence | exact Htest]. }
  eexists; eexists; unfold TrainEpoch.
  rewrite Hloop; cbn [bind fst snd]; rewrite Hev2; cbn [bind fst snd].
  rewrite Hev3; cbn [bind fst snd].
  split; [reflexivity |].
  cbn [line_epoch line_total_loss line_accuracy line_accuracy_dev
       line_accuracy_test].
  split; [apply (well_shaped_same_cell (r := s2));
          [congruence .. | exact Hs2] |].
  split; [congruence |].
  split; [apply (P_same_cell (r := s1)); [congruence .. | exact HP1] |].
  split; [reflexivity |].
  split; [exact Htl |].
  split; [| split; assumption].
  intros Hne; apply ratio_bounds; [| simpl in Ha; lra].
  destruct input_sequences; [congruence | simpl; lia].
Qed.

Lemma epochs_loop_done (input_sequences : list (list Input))
  (output_labels : list Z)
  (input_sequences_dev : list (list Input)) (output_labels_dev : list Z)
  (input_sequences_test : list (list Input)) (output_labels_test : list Z)
  (n : nat) :
  forall (epoch : Z) (s : RNN) (printed : list output_line),
    well_shaped s ->
    P s ->
    (0 < output_size_ s)%nat ->
    trainable s input_sequences output_labels ->
    scorable s input_sequences_dev output_labels_dev ->
    scorable s input_sequences_test output_labels_test ->
    exists s' out,
      epochs_loop EvaluateActivation DerivateActivation
        input_sequences output_labels
        input_sequences_dev output_labels_dev
        input_sequences_test output_labels_test
        learning_rate n epoch s printed = Done (s', out) /\
      well_shaped s' /\
      configuration s' = configuration s /\
      P s' /\
      length out = (length printed + n)%nat.
Proof.
  induction n as [|n IH];
    intros epoch s printed Hs HP Hc Htrain Hdev Htest.
  - exists s, printed; cbn [epochs_loop].
    repeat (split; [first [reflexivity | assumption] |]); lia.
  - destruct (@TrainEpoch_done input_sequences output_labels
                input_sequences_dev output_labels_dev
                input_sequences_test output_labels_test
                epoch s Hs HP Hc Htrain Hdev Htest)
      as (s1 & line & Hep & Hs1 & Hc1 & HP1 & _).
    assert (HC1 : output_size_ s1 = output_size_ s)
      by (unfold configuration in Hc1; congruence).
    destruct (IH (epoch + 1)%Z s1 (printed ++ [Epoch line]) Hs1 HP1)
      as (s' & out & Hrest & Hs' & Hc' & HP' & Hlen).
    + rewrite HC1; exact Hc.
    + apply (trainable_same_configuration (r := s));
        [congruence | exact Htrain].
    + apply (scorable_same_configuration (r := s));
        [congruence | exact Hdev].
    + apply (scorable_same_configuration (r := s));
        [congruence | exact Htest].
    + exists s', out; cbn [epochs_loop].
      rewrite Hep; cbn [bind fst snd].
      split; [exact Hrest |]; split; [exact Hs' |].
      split; [congruence |]; split; [exact HP' |].
      rewrite Hlen, length_app; simpl; lia.
Qed.

Lemma Train_done (input_sequences : list (list Input))
  (output_labels : list Z)
  (input_sequences_dev : list (list Input)) (output_labels_dev : list Z)
  (input_sequences_test : list (list Input)) (output_labels_test : list Z)
  (num_epochs : Z) (s : RNN) :
  well_shaped s ->
  P s ->
  (0 < output_size_ s)%nat ->
  trainable s input_sequences output_labels ->
  scorable s input_sequences_dev output_labels_dev ->
  scorable s input_sequences_test output_labels_test ->
  exists s' out,
    Train EvaluateActivation DerivateActivation
      input_sequences output_labels
      input_sequences_dev output_labels_dev
      input_sequences_test output_labels_test
      num_epochs learning_rate s = Done (s', out) /\
    well_shaped s' /\
    configuration s' = configuration s /\
    P s' /\
    length out = S (Z.to_nat num_epochs).
Proof.
  intros Hs HP Hc Htrain Hdev Htest.
  destruct (@evaluate_done EvaluateActivation s input_sequences_dev
              output_labels_dev Hs Hc Hdev)
    as (s0 & a & Hev & Hp0 & Hc0 & _).
  assert (Hs0 : well_shaped s0)
    by (apply (well_shaped_same_cell (r := s)); [congruence .. | exact Hs]).
  assert (HC0 : output_size_ s0 = output_size_ s)
    by (unfold configuration in Hc0; congruence).
  destruct (@epochs_loop_done input_sequences output_labels
              input_sequences_dev output_labels_dev
              input_sequences_test output_labels_test
              (Z.to_nat num_epochs) 0%Z s0 [InitialAccuracyDev a] Hs0)
    as (s' & out & Hloop & Hs' & Hc' & HP' & Hlen).
  - apply (P_same_cell (r := s)); [congruence .. | exact HP].
  - rewrite HC0; exact Hc.
  - apply (trainable_same_configuration (r := s));
      [congruence | exact Htrain].
  - apply (scorable_same_configuration (r := s)); [congruence | exact Hdev].
  - apply (scorable_same_configuration (r := s)); [congruence | exact Htest].
  - exists s', out; unfold Train.
    rewrite Hev; cbn [bind fst snd].
    split; [exact Hloop |]; split; [exact Hs' |].
    split; [congruence |]; split; [exact HP' |].
    rewrite Hlen; reflexivity.
Qed.

End Training.

Lemma Evaluate_logistic_length (kind : Z) (v : Vector) :
  length (Evaluate_logistic kind v) = length v.
Proof. apply length_map. Qed.

Lemma Derivate_logistic_length (kind : Z) (v : Vector) :
  length (Derivate_logistic kind v) = length v.
Proof. apply length_map. Qed.

Lemma example_trainable :
  trainable Example.cell [Example.sentence] [1%Z].
Proof.
  split; [split; [simpl; lia |] |].
  - constructor; [| constructor].
    split; [discriminate | exact example_sentence_valid].
  - repeat constructor; simpl; lia.
Qed.

Lemma example_scorable :
  scorable Example.cell [Example.sentence] [0%Z].
Proof.
  split; [simpl; lia |].
  constructor; [| constructor].
  split; [discriminate | exact example_sentence_valid].
Qed.

Lemma empty_scorable (s : RNN) : scorable s [] [].
Proof. split; [simpl; lia | constructor]. Qed.





(** ** Held-out data and the learned parameters *)

Section HeldOut.

Variable EvaluateActivation : Z -> Vector -> Vector.
Variable DerivateActivation : Z -> Vector -> Vector.

(** The training loop started on two cells with the same parameters
    does the same work. *)
Lemma train_loop_from_same_cell (rest : list (list Input))
  (output_labels : list Z) (i : nat) (learning_rate : R) (s s' r : RNN)
  (total_loss accuracy : R) (v : R * R) :
  parameters s = parameters s' ->
  configuration s = configuration s' ->
  train_loop EvaluateActivation DerivateActivation rest output_labels i
    learning_rate s total_loss accuracy = Done (r, v) ->
  exists r',
    train_loop EvaluateActivation DerivateActivation rest output_labels i
      learning_rate s' total_loss accuracy = Done (r', v) /\
    parameters r = parameters r' /\
    configuration r = configuration r'.
Proof.
  intros Hp Hc H.
  destruct rest as [|l rest].
  - injection H as <- <-; exists s'; repeat split; assumption.
  - exists r; split; [| split; reflexivity].
    rewrite (same_cell_up_to_trace Hp Hc).
    cbn [train_loop] in *.
    rewrite forward_pass_ignores_trace; exact H.
Qed.

Lemma TrainEpoch_from_same_cell (input_sequences : list (list Input))
  (output_labels : list Z)
  (dev dev' : list (list Input)) (dev_labels dev_labels' : list Z)
  (test test' : list (list Input)) (test_labels test_labels' : list Z)
  (epoch : Z) (learning_rate : R) (s s' r r' : RNN)
  (line line' : epoch_line) :
  parameters s = parameters s' ->
  configuration s = configuration s' ->
  TrainEpoch EvaluateActivation DerivateActivation
    input_sequences output_labels dev dev_labels test test_labels
    epoch learning_rate s = Done (r, line) ->
  TrainEpoch EvaluateActivation DerivateActivation
    input_sequences output_labels dev' dev_labels' test' test_labels'
    epoch learning_rate s' = Done (r', line') ->
  parameters r = parameters r' /\
  configuration r = configuration r' /\
  training_figures (Epoch line) = training_figures (Epoch line').
Proof.
  intros Hp Hc H H'; unfold TrainEpoch in H, H'.
  apply bind_Done in H as ([s1 v] & Hloop & H).
  apply bind_Done in H as ([s2 ad] & Hdev & H).
  apply bind_Done in H as ([s3 at3] & Htest & H).
  apply bind_Done in H' as ([s1' v'] & Hloop' & H').
  apply bind_Done in H' as ([s2' ad'] & Hdev' & H').
  apply bind_Done in H' as ([s3' at3'] & Htest' & H').
  cbn [fst snd] in *.
  injection H as <- <-; injection H' as <- <-.
  destruct (@train_loop_from_same_cell _ _ _ _ _ _ _ _ _ _ Hp Hc Hloop)
    as (r1 & Hloop1 & Hp1 & Hc1).
  rewrite Hloop1 in Hloop'; injection Hloop' as <- <-.
  apply evaluate_same_cell in Hdev, Hdev', Htest, Htest'.
  destruct Hdev as [Hpd Hcd], Hdev' as [Hpd' Hcd'].
  destruct Htest as [Hpt Hct], Htest' as [Hpt' Hct'].
  split; [congruence |]; split; [congruence |]; reflexivity.
Qed.

Lemma epochs_loop_from_same_cell (input_sequences : list (list Input))
  (output_labels : list Z)
  (dev dev' : list (list Input)) (dev_labels dev_labels' : list Z)
  (test test' : list (list Input)) (test_labels test_labels' : list Z)
  (learning_rate : R) (n : nat) :
  forall (epoch : Z) (s s' r r' : RNN)
         (printed printed' out out' : list output_line),
    parameters s = parameters s' ->
    configuration s = configuration s' ->
    map training_figures printed = map training_figures printed' ->
    epochs_loop EvaluateActivation DerivateActivation
      input_sequences output_labels dev dev_labels test test_labels
      learning_rate n epoch s printed = Done (r, out) ->
    epochs_loop EvaluateActivation DerivateActivation
      input_sequences output_labels dev' dev_labels' test' test_labels'
      learning_rate n epoch s' printed' = Done (r', out') ->
    parameters r = parameters r' /\
    configuration r = configuration r' /\
    map training_figures out = map training_figures out'.
Proof.
  induction n as [|n IH];
    intros epoch s s' r r' printed printed' out out' Hp Hc Hpr H H'.
  - injection H as <- <-; injection H' as <- <-; auto.
  - cbn [epochs_loop] in H, H'.
    apply bind_Done in H as ([s1 line] & Hep & H).
    apply bind_Done in H' as ([s1' line'] & Hep' & H').
    cbn [fst snd] in *.
    destruct (@TrainEpoch_from_same_cell _ _ _ _ _ _ _ _ _ _ _ _ _ _ _ _
                _ _ Hp Hc Hep Hep')
      as (Hp1 & Hc1 & Hfig).
    eapply IH; [exact Hp1 | exact Hc1 | | exact H | exact H'].
    rewrite !map_app; cbn [map]; congruence.
Qed.

(** X10.  The parameters that [Train] learns, and the loss and training
    accuracy it prints for each epoch, do not depend on the development
    and test sets: two completed runs that differ only in these sets end
    with the same parameters and print the same training figures. *)
Theorem train_ignores_held_out_data (input_sequences : list (list Input))
  (output_labels : list Z)
  (dev dev' : list (list Input)) (dev_labels dev_labels' : list Z)
  (test test' : list (list Input)) (test_labels test_labels' : list Z)
  (num_epochs : Z) (learning_rate : R) (s r r' : RNN)
  (out out' : list output_line) :
  Train EvaluateActivation DerivateActivation
    input_sequences output_labels dev dev_labels test test_labels
    num_epochs learning_rate s = Done (r, out) ->
  Train EvaluateActivation DerivateActivation
    input_sequences output_labels dev' dev_labels' test' test_labels'
    num_epochs learning_rate s = Done (r', out') ->
  parameters r = parameters r' /\
  map training_figures out = map training_figures out'.
Proof.
  unfold Train; intros H H'.
  apply bind_Done in H as ([s0 a] & Hev & H).
  apply bind_Done in H' as ([s0' a'] & Hev' & H').
  cbn [fst snd] in *.
  apply evaluate_same_cell in Hev, Hev'.
  destruct Hev as [Hp Hc], Hev' as [Hp' Hc'].
  assert (Hp0 : parameters s0 = parameters s0') by congruence.
  assert (Hc0 : configuration s0 = configuration s0') by congruence.
  assert (Hfig : map training_figures [InitialAccuracyDev a]
                 = map training_figures [InitialAccuracyDev a'])
    by reflexivity.
  destruct (@epochs_loop_from_same_cell _ _ _ _ _ _ _ _ _ _ _ _ _ _ _ _ _
              _ _ _ _ Hp0 Hc0 Hfig H H')
    as (Hpr & _ & Hout).
  split; assumption.
Qed.

(** X11.  With no epoch to run, [Train] only scores the development set: a
    completed run leaves every parameter as it was and prints the one
    initial line. *)
Theorem train_without_epochs (input_sequences : list (list Input))
  (output_labels : list Z)
  (dev : list (list Input)) (dev_labels : list Z)
  (test : list (list Input)) (test_labels : list Z)
  (num_epochs : Z) (learning_rate : R) (s r : RNN)
  (out : list output_line) :
  (num_epochs <= 0)%Z ->
  Train EvaluateActivation DerivateActivation
    input_sequences output_labels dev dev_labels test test_labels
    num_epochs learning_rate s = Done (r, out) ->
  parameters r = parameters s /\
  exists accuracy_dev, out = [InitialAccuracyDev accuracy_dev].
Proof.
  unfold Train; intros Hn H.
  apply bind_Done in H as ([s0 a] & Hev & H).
  replace (Z.to_nat num_epochs) with 0%nat in H by lia.
  cbn [epochs_loop fst snd] in H; injection H as <- <-.
  apply evaluate_same_cell in Hev; destruct Hev as [Hp _].
  split; [exact Hp | eauto].
Qed.

End HeldOut.

Lemma example_train (dev : list (list Input)) (dev_labels : list Z)
  (num_epochs : Z) :
  scorable Example.cell dev dev_labels ->
  exists r out,
    Train Evaluate_logistic Derivate_logistic
      [Example.sentence] [1%Z] dev dev_labels [] []
      num_epochs (1 / 10) Example.cell = Done (r, out).
Proof.
  intros Hdev.
  destruct (@Train_done Evaluate_logistic Derivate_logistic
              Evaluate_logistic_length Derivate_logistic_length
              (fun _ => True) (fun _ _ _ _ _ _ _ _ _ _ _ => I)
              (fun _ _ _ _ _ => I) (1 / 10)
              [Example.sentence] [1%Z] dev dev_labels [] [] num_epochs
              Example.cell example_cell_well_shaped I
              ltac:(simpl; lia) example_trainable Hdev
              (empty_scorable Example.cell))
    as (r & out & Hrun & _).
  eauto.
Qed.

Lemma train_ignores_held_out_data_witness :
  exists r r' out out',
    Train Evaluate_logistic Derivate_logistic
      [Example.sentence] [1%Z] [Example.sentence] [0%Z] [] []
      2 (1 / 10) Example.cell = Done (r, out) /\
    Train Evaluate_logistic Derivate_logistic
      [Example.sentence] [1%Z] [] [] [] []
      2 (1 / 10) Example.cell = Done (r', out') /\
    parameters r = parameters r'.
Proof.
  destruct (example_train 2 example_scorable) as (r & out & Hrun).
  destruct (example_train 2 (empty_scorable Example.cell))
    as (r' & out' & Hrun').
  exists r, r', out, out'; split; [exact Hrun |]; split; [exact Hrun' |].
  exact (proj1 (train_ignores_held_out_data _ _ _ _ _ _ _ _ _ _ _ _ _ _ _
                  Hrun Hrun')).
Defined.

Lemma train_without_epochs_witness :
  (0 <= 0)%Z /\
  exists r out,
    Train Evaluate_logistic Derivate_logistic
      [Example.sentence] [1%Z] [Example.sentence] [0%Z] [] []
      0 (1 / 10) Example.cell = Done (r, out) /\
    parameters r = parameters Example.cell.
Proof.
  split; [lia |].
  destruct (example_train 0 example_scorable) as (r & out & Hrun).
  exists r, out; split; [exact Hrun |].
  exact (proj1 (@train_without_epochs _ _ _ _ _ _ _ _ 0%Z _ _ _ _
                  (Z.le_refl 0) Hrun)).
Defined.

(** ** Words that the training set never shows *)

Section UnseenWords.

Variable EvaluateActivation : Z -> Vector -> Vector.
Variable DerivateActivation : Z -> Vector -> Vector.

(** No token of the sentences addresses column [c] of the table. *)
Lemma train_loop_embedding_frame (c : nat) (rest : list (list Input))
  (output_labels : list Z) (learning_rate : R) :
  (forall l inp, In l rest -> In inp l -> (wid inp + 1)%Z <> Z.of_nat c) ->
  forall (i : nat) (s r : RNN) (total_loss accuracy : R) (v : R * R),
    train_loop EvaluateActivation DerivateActivation rest output_labels i
      learning_rate s total_loss accuracy = Done (r, v) ->
    nth c (mdata (E_ (lookup_layer_ r))) []
    = nth c (mdata (E_ (lookup_layer_ s))) [].
Proof.
  induction rest as [|l rest IH]; intros Hfree i s r total_loss accuracy v H.
  - injection H as <- _; reflexivity.
  - cbn [train_loop] in H.
    apply bind_Done in H as (s1 & Hfwd & H).
    apply bind_Done in H as (lab & _ & H).
    apply bind_Done in H as (pl & _ & H).
    apply bind_Done in H as (k & _ & H).
    apply bind_Done in H as (s2 & Hbwd & H).
    apply IH in H; [| intros l' inp Hl'; apply Hfree; right; exact Hl'].
    apply backward_pass_frame in Hbwd as (_ & _ & Hcols).
    apply forward_pass_frame in Hfwd as (x & h & y & p & ->).
    rewrite H, Hcols; [reflexivity |].
    intros inp Hin; apply (Hfree l); [left; reflexivity | exact Hin].
Qed.

Lemma TrainEpoch_embedding_frame (c : nat)
  (input_sequences : list (list Input)) (output_labels : list Z)
  (dev : list (list Input)) (dev_labels : list Z)
  (test : list (list Input)) (test_labels : list Z)
  (epoch : Z) (learning_rate : R) (s r : RNN) (line : epoch_line) :
  (forall l inp, In l input_sequences -> In inp l ->
                 (wid inp + 1)%Z <> Z.of_nat c) ->
  TrainEpoch EvaluateActivation DerivateActivation
    input_sequences output_labels dev dev_labels test test_labels
    epoch learning_rate s = Done (r, line) ->
  nth c (mdata (E_ (lookup_layer_ r))) []
  = nth c (mdata (E_ (lookup_layer_ s))) [].
Proof.
  intros Hfree H; unfold TrainEpoch in H.
  apply bind_Done in H as ([s1 v] & Hloop & H).
  apply bind_Done in H as ([s2 ad] & Hdev & H).
  apply bind_Done in H as ([s3 at3] & Htest & H).
  cbn [fst snd] in *; injection H as <- _.
  apply evaluate_same_cell in Hdev, Htest.
  destruct Hdev as [Hpd _], Htest as [Hpt _].
  eapply train_loop_embedding_frame in Hloop; [| exact Hfree].
  assert (HL : lookup_layer_ s3 = lookup_layer_ s1)
    by (unfold parameters in Hpd, Hpt; congruence).
  rewrite HL; exact Hloop.
Qed.

Lemma epochs_loop_embedding_frame (c : nat)
  (input_sequences : list (list Input)) (output_labels : list Z)
  (dev : list (list Input)) (dev_labels : list Z)
  (test : list (list Input)) (test_labels : list Z)
  (learning_rate : R) (n : nat) :
  (forall l inp, In l input_sequences -> In inp l ->
                 (wid inp + 1)%Z <> Z.of_nat c) ->
  forall (epoch : Z) (s r : RNN) (printed out : list output_line),
    epochs_loop EvaluateActivation DerivateActivation
      input_sequences output_labels dev dev_labels test test_labels
      learning_rate n epoch s printed = Done (r, out) ->
    nth c (mdata (E_ (lookup_layer_ r))) []
    = nth c (mdata (E_ (lookup_layer_ s))) [].
Proof.
  intros Hfree; induction n as [|n IH]; intros epoch s r printed out H.
  - injection H as <- _; reflexivity.
  - cbn [epochs_loop] in H.
    apply bind_Done in H as ([s1 line] & Hep & H); cbn [fst snd] in H.
    apply IH in H.
    eapply TrainEpoch_embedding_frame in Hep; [| exact Hfree].
    congruence.
Qed.

(** X12.  The embedding of a word that occurs in no training sentence comes
    out of [Train] exactly as it went in, however many epochs are run
    and whatever the development and test sets contain. *)
Theorem train_leaves_unseen_embeddings (c : nat)
  (input_sequences : list (list Input)) (output_labels : list Z)
  (dev : list (list Input)) (dev_labels : list Z)
  (test : list (list Input)) (test_labels : list Z)
  (num_epochs : Z) (learning_rate : R) (s r : RNN)
  (out : list output_line) :
  (forall l inp, In l input_sequences -> In inp l ->
                 (wid inp + 1)%Z <> Z.of_nat c) ->
  Train EvaluateActivation DerivateActivation
    input_sequences output_labels dev dev_labels test test_labels
    num_epochs learning_rate s = Done (r, out) ->
  nth c (mdata (E_ (lookup_layer_ r))) []
  = nth c (mdata (E_ (lookup_layer_ s))) [].
Proof.
  intros Hfree H; unfold Train in H.
  apply bind_Done in H as ([s0 a] & Hev & H); cbn [fst snd] in H.
  apply evaluate_same_cell in Hev; destruct Hev as [Hp _].
  eapply epochs_loop_embedding_frame in H; [| exact Hfree].
  assert (HL : lookup_layer_ s0 = lookup_layer_ s)
    by (unfold parameters in Hp; congruence).
  rewrite H, HL; reflexivity.
Qed.

End UnseenWords.

Lemma train_leaves_unseen_embeddings_witness :
  exists r out,
    Train Evaluate_logistic Derivate_logistic
      [[mkInput 0]] [1%Z] [Example.sentence] [0%Z] [] []
      2 (1 / 10) Example.cell = Done (r, out) /\
    nth 2 (mdata (E_ (lookup_layer_ r))) [] = [3; 4].
Proof.
  destruct (@Train_done Evaluate_logistic Derivate_logistic
              Evaluate_logistic_length Derivate_logistic_length
              (fun _ => True) (fun _ _ _ _ _ _ _ _ _ _ _ => I)
              (fun _ _ _ _ _ => I) (1 / 10)
              [[mkInput 0]] [1%Z] [Example.sentence] [0%Z] [] [] 2%Z
              Example.cell example_cell_well_shaped I)
    as (r & out & Hrun & _).
  - simpl; lia.
  - split; [split; [simpl; lia |] |].
    + repeat constructor; try discriminate; simpl; lia.
    + repeat constructor; simpl; lia.
  - exact example_scorable.
  - apply empty_scorable.
  - exists r, out; split; [exact Hrun |].
    assert (Hfree : forall l inp, In l [[mkInput 0]] -> In inp l ->
                                  (wid inp + 1)%Z <> Z.of_nat 2)
      by (intros l inp [<-|[]] [<-|[]]; simpl; lia).
    rewrite (@train_leaves_unseen_embeddings Evaluate_logistic
               Derivate_logistic 2 _ _ _ _ _ _ _ _ _ _ _ Hfree Hrun).
    reflexivity.
Defined.

(** ** The recurrence reads no later token *)

Lemma hidden_spec_columns (Ev : Z -> Vector -> Vector) (s : RNN)
  (X X' : Matrix) (t : nat) :
  (forall k, (k <= t)%nat -> nth k (mdata X) [] = nth k (mdata X') []) ->
  hidden_spec Ev s X t = hidden_spec Ev s X' t.
Proof.
  induction t as [|t IH]; intros Hcols; cbn [hidden_spec].
  - now rewrite (Hcols 0%nat) by lia.
  - rewrite (Hcols (S t)) by lia.
    rewrite IH by (intros k Hk; apply Hcols; lia).
    reflexivity.
Qed.

Lemma firstn_map_seq {A : Type} (f g : nat -> A) (n m : nat) :
  (forall t, (t < n)%nat -> f t = g t) ->
  firstn n (map f (seq 0 (n + m))) = map g (seq 0 n).
Proof.
  intros Hfg.
  rewrite seq_app, map_app, firstn_app, length_map, length_seq.
  rewrite Nat.sub_diag; cbn [firstn]; rewrite app_nil_r.
  rewrite firstn_all2 by (rewrite length_map, length_seq; lia).
  apply map_ext_in; intros t Ht; apply in_seq in Ht; apply Hfg; lia.
Qed.

(** X13.  The hidden state of a step depends on the tokens up to that step
    only: the forward pass on a sentence and on any continuation of it
    build the same first columns of [x_] and [h_]. *)
Theorem forward_pass_prefix (Ev : Z -> Vector -> Vector) (s s1 s2 : RNN)
  (a b : list Input) :
  a <> [] ->
  RunForwardPass Ev s a = Done s1 ->
  RunForwardPass Ev s (a ++ b) = Done s2 ->
  firstn (length a) (mdata (x_ s2)) = mdata (x_ s1) /\
  firstn (length a) (mdata (h_ s2)) = mdata (h_ s1).
Proof.
  intros Hne H1 H2.
  assert (Hne2 : a ++ b <> []) by (destruct a; [congruence | discriminate]).
  pose proof H1 as H1'; pose proof H2 as H2'.
  unfold RunForwardPass in H1', H2'.
  apply bind_Done in H1' as (X1 & HX1 & _).
  apply bind_Done in H2' as (X2 & HX2 & _).
  rewrite (forward_pass_done Ev s Hne HX1) in H1.
  rewrite (forward_pass_done Ev s Hne2 HX2) in H2.
  injection H1 as <-; injection H2 as <-.
  cbn [x_ h_ set_trace].
  pose proof (lookup_forward_inv _ _ HX1) as Hin1.
  pose proof (lookup_forward_inv _ _ HX2) as Hin2.
  rewrite (lookup_forward_done _ Hin1) in HX1; injection HX1 as <-.
  rewrite (lookup_forward_done _ Hin2) in HX2; injection HX2 as <-.
  cbn [mdata]; unfold hidden_matrix_spec; cbn [mdata].
  assert (Hx : firstn (length a)
                 (map (looked_up (E_ (lookup_layer_ s))) (a ++ b))
               = map (looked_up (E_ (lookup_layer_ s))) a).
  { rewrite map_app, firstn_app, length_map, Nat.sub_diag.
    cbn [firstn]; rewrite app_nil_r.
    apply firstn_all2; rewrite length_map; lia. }
  split; [exact Hx |].
  rewrite length_app; apply firstn_map_seq.
  intros t Ht; apply hidden_spec_columns; cbn [mdata].
  intros k Hk; rewrite <- Hx.
  rewrite nth_firstn.
  destruct (Nat.ltb_spec k (length a)); [reflexivity | lia].
Qed.

Lemma forward_pass_prefix_witness :
  [mkInput 0; mkInput 1] <> [] /\
  exists s1 s2,
    RunForwardPass Evaluate_logistic Example.cell [mkInput 0; mkInput 1]
    = Done s1 /\
    RunForwardPass Evaluate_logistic Example.cell
      ([mkInput 0; mkInput 1] ++ [mkInput 0]) = Done s2 /\
    firstn 2 (mdata (h_ s2)) = mdata (h_ s1).
Proof.
  split; [discriminate |].
  assert (Hv : valid_ids (lookup_layer_ Example.cell)
                 [mkInput 0; mkInput 1])
    by (repeat constructor; simpl; lia).
  destruct (@forward_trace_shape Evaluate_logistic Example.cell
              [mkInput 0; mkInput 1] example_cell_well_shaped Hv
              ltac:(discriminate))
    as (s1 & H1 & _).
  destruct (@forward_trace_shape Evaluate_logistic Example.cell
              ([mkInput 0; mkInput 1] ++ [mkInput 0])
              example_cell_well_shaped example_sentence_valid
              ltac:(discriminate))
    as (s2 & H2 & _).
  exists s1, s2; split; [exact H1 |]; split; [exact H2 |].
  exact (proj2 (@forward_pass_prefix Evaluate_logistic Example.cell s1 s2
                  [mkInput 0; mkInput 1] [mkInput 0]
                  ltac:(discriminate) H1 H2)).
Defined.

(** ** A step with learning rate zero *)







(** ** A cell from its constructor *)

(** X15.  A cell that has only been constructed has an empty embedding table:
    the forward pass, and so [Run], stops on the assertion of the lookup
    at the first token of any sentence. *)
Theorem new_cell_needs_parameters (Ev : Z -> Vector -> Vector)
  (LOGISTIC : Z) (dictionary : Dictionary)
  (embedding_dimension hidden_size output_size : nat)
  (input_sequence : list Input) :
  input_sequence <> [] ->
  RunForwardPass Ev
    (new_RNN LOGISTIC dictionary embedding_dimension hidden_size
       output_size) input_sequence = Abort AssertionFailed /\
  Run Ev
    (new_RNN LOGISTIC dictionary embedding_dimension hidden_size
       output_size) input_sequence = Abort AssertionFailed.
Proof.
  intros Hne.
  assert (Hfwd : RunForwardPass Ev
                   (new_RNN LOGISTIC dictionary embedding_dimension
                      hidden_size output_size) input_sequence
                 = Abort AssertionFailed).
  { unfold RunForwardPass.
    rewrite lookup_forward_abort; [reflexivity |].
    destruct input_sequence as [|inp rest]; [congruence |].
    apply Exists_cons_hd; unfold id_in_table, mcols; simpl; lia. }
  split; [exact Hfwd |].
  unfold Run; rewrite Hfwd; reflexivity.
Qed.

Lemma new_cell_needs_parameters_witness :
  Example.sentence <> [] /\
  Run Evaluate_logistic (new_RNN 1 (mkDictionary 2) 2 2 2) Example.sentence
  = Abort AssertionFailed.
Proof.
  split; [discriminate |].
  exact (proj2 (@new_cell_needs_parameters Evaluate_logistic 1
                  (mkDictionary 2) 2 2 2 Example.sentence
                  ltac:(discriminate))).
Defined.

(** X16.  Construction followed by [InitializeParameters] gives a cell of the
    sizes handed to the constructor, with the logistic activation (so
    the weights are drawn with the coefficient [4]), the learned initial
    state switched on and zero, zero biases, and tensors of the shapes
    on which [Run] classifies every non-empty sentence of dictionary
    ids. *)
Theorem new_cell_initialized (Ev : Z -> Vector -> Vector)
  (LOGISTIC : Z)
  (LoadVectorParameter : string -> Vector -> Vector)
  (LoadMatrixParameter : string -> Matrix -> Matrix)
  (rand_state : Type) (srand : Z -> rand_state)
  (rand : rand_state -> Z * rand_state) (RAND_MAX : Z)
  (dictionary : Dictionary)
  (embedding_dimension hidden_size output_size : nat) (g : rand_state) :
  exists s' g',
    InitializeParameters LOGISTIC LoadVectorParameter LoadMatrixParameter
      srand rand RAND_MAX
      (new_RNN LOGISTIC dictionary embedding_dimension hidden_size
         output_size) g = Done (s', g') /\
    configuration s'
    = (LOGISTIC, (embedding_dimension, dictionary),
       (hidden_size, output_size), true) /\
    well_shaped s' /\
    init_coeff LOGISTIC s' = 4 /\
    bh_ s' = vzero hidden_size /\
    by_ s' = vzero output_size /\
    h0_ s' = vzero hidden_size /\
    forall input_sequence,
      input_sequence <> [] ->
      valid_ids (lookup_layer_ s') input_sequence ->
      (0 < output_size)%nat ->
      exists s1 prediction,
        Run Ev s' input_sequence = Done (s1, prediction).
Proof.
  set (s0 := new_RNN LOGISTIC dictionary embedding_dimension hidden_size
               output_size).
  destruct (initialize_parameters_done LOGISTIC LoadVectorParameter
              LoadMatrixParameter srand rand RAND_MAX s0 g)
    as (E & Wxh & Whh & Why & g' & Hrun & HE & HWxh & HWhh & HWhy & _).
  pose proof (initialized_well_shaped s0 HE HWxh HWhh HWhy) as Hs.
  exists (initialized s0 E Wxh Whh Why), g'.
  split; [exact Hrun |].
  split; [reflexivity |].
  split; [exact Hs |].
  split; [unfold init_coeff; cbn; now rewrite Z.eqb_refl |].
  split; [reflexivity |]; split; [reflexivity |]; split; [reflexivity |].
  intros input_sequence Hne Hv Hc.
  apply run_returns; assumption.
Qed.

(** ** The recurrent gradient from a zero initial state *)

(** X17.  Where the recurrence starts from the zero state -- the learned
    initial state switched off, or [h0] still zero as initialization
    leaves it -- the accumulated [dWhh] is the exact gradient: each of
    its entries is the partial derivative of the loss in the matching
    entry of [Whh]. *)
Theorem recurrent_gradient_at_zero_start (act dact : R -> R) (s : RNN)
  (input_sequence : list Input) (label : Z) :
  (forall x, derivable_pt_lim act x (dact (act x))) ->
  well_shaped s ->
  valid_ids (lookup_layer_ s) input_sequence ->
  input_sequence <> [] ->
  (0 <= label < Z.of_nat (output_size_ s))%Z ->
  h_start s = vzero (hidden_size_ s) ->
  exists s1 g,
    RunForwardPass (elementwise act) s input_sequence = Done s1 /\
    backward_gradients (elementwise dact) s1 input_sequence label = Done g /\
    forall i j, (i < hidden_size_ s)%nat -> (j < hidden_size_ s)%nat ->
      derivable_pt_lim
        (loss_along act s (along_Whh s i j) input_sequence label) 0
        (mget (dWhh (g_loop g)) i j).
Proof.
  intros Hact Hs Hv Hne Hl Hzero.
  exists (forward_state act s input_sequence).
  exists (gradients_spec (elementwise dact)
            (forward_state act s input_sequence)
            (length input_sequence) label).
  split; [apply forward_pass_entrywise; assumption |].
  split; [apply backward_gradients_entrywise; assumption |].
  intros i j Hi Hj.
  pose proof (@partial_Whh act dact Hact s input_sequence label
                Hs Hv Hne Hl i j Hi Hj) as Hd.
  rewrite Hzero in Hd; unfold vzero in Hd; rewrite nth_repeat in Hd.
  rewrite Rmult_0_r, Rplus_0_r in Hd; exact Hd.
Qed.

Lemma recurrent_gradient_at_zero_start_witness :
  h_start
    (mkRNN 1 Example.table 2 2 true
       (mkMatrix 2 [[1; 0]; [0; 1]]) (mkMatrix 2 [[1; 1]; [0; 1]])
       (mkMatrix 2 [[1; 0]; [1; 1]]) [0; 0] [0; 0] [0; 0]
       (mkMatrix 0 []) (mkMatrix 0 []) [] [])
  = vzero 2 /\
  exists s1 g,
    RunForwardPass (elementwise logistic)
      (mkRNN 1 Example.table 2 2 true
         (mkMatrix 2 [[1; 0]; [0; 1]]) (mkMatrix 2 [[1; 1]; [0; 1]])
         (mkMatrix 2 [[1; 0]; [1; 1]]) [0; 0] [0; 0] [0; 0]
         (mkMatrix 0 []) (mkMatrix 0 []) [] [])
      Example.sentence = Done s1 /\
    backward_gradients (elementwise logistic_derivative) s1
      Example.sentence 1 = Done g.
Proof.
  split; [reflexivity |].
  destruct (@recurrent_gradient_at_zero_start logistic logistic_derivative
              (mkRNN 1 Example.table 2 2 true
                 (mkMatrix 2 [[1; 0]; [0; 1]]) (mkMatrix 2 [[1; 1]; [0; 1]])
                 (mkMatrix 2 [[1; 0]; [1; 1]]) [0; 0] [0; 0] [0; 0]
                 (mkMatrix 0 []) (mkMatrix 0 []) [] [])
              Example.sentence 1%Z logistic_derivable)
    as (s1 & g & Hfwd & Hbwd & _).
  - unfold well_shaped, lookup_shaped, mshape; simpl.
    repeat split; repeat constructor.
  - repeat constructor; simpl; lia.
  - discriminate.
  - simpl; lia.
  - reflexivity.
  - exists s1, g; split; assumption.
Defined.

(** ** The order of the random draws *)

Section DrawOrder.

Variable LOGISTIC : Z.
Variable LoadVectorParameter : string -> Vector -> Vector.
Variable LoadMatrixParameter : string -> Matrix -> Matrix.
Variable rand_state : Type.
Variable srand : Z -> rand_state.
Variable rand : rand_state -> Z * rand_state.
Variable RAND_MAX : Z.

Lemma generator_after_add (g : rand_state) (m k : nat) :
  generator_after rand (generator_after rand g m) k
  = generator_after rand g (m + k).
Proof.
  revert g; induction m as [|m IH]; intros g; [reflexivity |].
  cbn [generator_after Nat.add]; apply IH.
Qed.

Lemma draw_number_add (g : rand_state) (m k : nat) :
  draw_number rand (generator_after rand g m) k
  = draw_number rand g (m + k).
Proof. unfold draw_number; now rewrite generator_after_add. Qed.

(** One row: entry [(i, b)] takes the draw of its column's turn. *)
Lemma fill_row_order (r c : nat) (max : R) (i : nat) (n : nat) :
  forall (j : nat) (W : Matrix) (g : rand_state),
    mshape r c W -> (i < r)%nat -> (j + n <= c)%nat ->
    exists W',
      fill_row rand RAND_MAX W max i n j g
      = Done (W', generator_after rand g n) /\
      mshape r c W' /\
      forall a b,
        (a = i /\ (j <= b < j + n)%nat ->
         mget W' a b
         = scaled_draw RAND_MAX max (draw_number rand g (b - j))) /\
        (~ (a = i /\ (j <= b < j + n)%nat) -> mget W' a b = mget W a b).
Proof.
  induction n as [|n IH]; intros j W g HW Hi Hj.
  - exists W; split; [reflexivity |]; split; [exact HW |].
    intros a b; split; [lia | reflexivity].
  - cbn [fill_row generator_after].
    destruct (rand g) as [z g1] eqn:Hrand; cbn [snd].
    destruct (@mset_done r c W i j (max * (2 * IZR z / IZR RAND_MAX - 1)) HW)
      as (W1 & HW1 & Hsh1 & Hget & Hother); [lia | lia |].
    rewrite HW1; cbn [bind].
    destruct (IH (S j) W1 g1 Hsh1 Hi) as (W' & Hrun & Hsh & Hent); [lia |].
    exists W'; split; [exact Hrun |]; split; [exact Hsh |].
    intros a b; split.
    + intros [-> Hb].
      destruct (Nat.eq_dec b j) as [->|Hbj].
      * destruct (Hent i j) as [_ Hsame].
        rewrite Hsame by lia; rewrite Hget, Nat.sub_diag.
        unfold scaled_draw, draw_number; cbn [generator_after].
        now rewrite Hrand.
      * destruct (Hent i b) as [Hd _]; rewrite Hd by lia.
        replace (b - j)%nat with (S (b - S j)) by lia.
        unfold draw_number; cbn [generator_after].
        now rewrite Hrand.
    + intros Hout.
      destruct (Hent a b) as [_ Hsame].
      rewrite Hsame by lia.
      apply Hother; intros Heq; injection Heq as -> ->; lia.
Qed.

(** The rows one after the other: entry [(a, b)] takes draw
    [(a - i) c + b] of the loop. *)
Lemma fill_rows_order (r c : nat) (max : R) (n : nat) :
  forall (i : nat) (W : Matrix) (g : rand_state),
    mshape r c W -> (i + n <= r)%nat ->
    exists W',
      fill_rows rand RAND_MAX W max n i g
      = Done (W', generator_after rand g (n * c)) /\
      mshape r c W' /\
      forall a b,
        ((i <= a < i + n)%nat /\ (b < c)%nat ->
         mget W' a b
         = scaled_draw RAND_MAX max
             (draw_number rand g ((a - i) * c + b))) /\
        (~ ((i <= a < i + n)%nat /\ (b < c)%nat) ->
         mget W' a b = mget W a b).
Proof.
  induction n as [|n IH]; intros i W g HW Hi.
  - exists W; split; [reflexivity |]; split; [exact HW |].
    intros a b; split; [lia | reflexivity].
  - cbn [fill_rows].
    pose proof HW as (_ & Hc & _).
    destruct (@fill_row_order r c max i (mcols W) 0 W g HW)
      as (W1 & HW1 & Hsh1 & Hent1); [lia | lia |].
    rewrite HW1; cbn [bind fst snd].
    destruct (IH (S i) W1 (generator_after rand g (mcols W)) Hsh1)
      as (W' & Hrun & Hsh & Hent); [lia |].
    exists W'; split.
    { rewrite Hrun, generator_after_add, Hc; reflexivity. }
    split; [exact Hsh |].
    intros a b; split.
    + intros [Ha Hb].
      destruct (Nat.eq_dec a i) as [->|Hai].
      * destruct (Hent i b) as [_ Hsame]; rewrite Hsame by lia.
        destruct (Hent1 i b) as [Hd _]; rewrite Hd by lia.
        rewrite Nat.sub_diag, Nat.sub_0_r; reflexivity.
      * destruct (Hent a b) as [Hd _]; rewrite Hd by lia.
        rewrite draw_number_add, Hc; f_equal; f_equal.
        replace (a - i)%nat with (S (a - S i)) by lia; simpl; lia.
    + intros Hout.
      destruct (Hent a b) as [_ Hsame]; rewrite Hsame by lia.
      destruct (Hent1 a b) as [_ Hsame1]; apply Hsame1; lia.
Qed.

Lemma fill_weight_order (r c : nat) (max : R) (g : rand_state) :
  exists W',
    fill_rows rand RAND_MAX (mzero r c) max (mrows (mzero r c)) 0 g
    = Done (W', generator_after rand g (r * c)) /\
    mshape r c W' /\
    forall a b, (a < r)%nat -> (b < c)%nat ->
                mget W' a b
                = scaled_draw RAND_MAX max (draw_number rand g (a * c + b)).
Proof.
  destruct (@fill_rows_order r c max r 0 (mzero r c) g (mshape_mzero r c))
    as (W' & Hrun & Hsh & Hent); [lia |].
  exists W'; split; [exact Hrun |]; split; [exact Hsh |].
  intros a b Ha Hb; destruct (Hent a b) as [Hd _].
  rewrite Hd by lia; now rewrite Nat.sub_0_r.
Qed.

(** X18.  [InitializeParameters] spends one call of [rand()] per weight, from
    the generator as [srand(1234)] leaves it: first the embedding table,
    then [Wxh], [Whh] and [Why], each matrix row after row, so that entry
    [(i, j)] of a matrix of [c] columns takes the draw of rank
    [i * c + j] after the draws of the matrices before it.  The
    generator is handed back after exactly these calls. *)
Theorem initialize_draw_order (s : RNN) (g : rand_state) :
  let D := GetInputSize s in
  let V1 := (GetNumWords (dictionary_ (lookup_layer_ s)) + 1)%nat in
  let H := hidden_size_ s in
  let C := output_size_ s in
  let g0 := srand 1234 in
  exists s',
    InitializeParameters LOGISTIC LoadVectorParameter LoadMatrixParameter
      srand rand RAND_MAX s g
    = Done (s', generator_after rand g0 (D * V1 + H * D + H * H + C * H)) /\
    (forall i j, (i < D)%nat -> (j < V1)%nat ->
       mget (E_ (lookup_layer_ s')) i j
       = scaled_draw RAND_MAX (init_max LOGISTIC s (E_ (lookup_layer_ s')))
           (draw_number rand g0 (i * V1 + j))) /\
    (forall i j, (i < H)%nat -> (j < D)%nat ->
       mget (Wxh_ s') i j
       = scaled_draw RAND_MAX (init_max LOGISTIC s (Wxh_ s'))
           (draw_number rand g0 (D * V1 + (i * D + j)))) /\
    (forall i j, (i < H)%nat -> (j < H)%nat ->
       mget (Whh_ s') i j
       = scaled_draw RAND_MAX (init_max LOGISTIC s (Whh_ s'))
           (draw_number rand g0 (D * V1 + H * D + (i * H + j)))) /\
    (forall i j, (i < C)%nat -> (j < H)%nat ->
       mget (Why_ s') i j
       = scaled_draw RAND_MAX (init_max LOGISTIC s (Why_ s'))
           (draw_number rand g0 (D * V1 + H * D + H * H + (i * H + j)))).
Proof.
  intros D V1 H C g0.
  set (s1 := fst (CollectAllParameters s)).
  destruct (fill_weight_order D V1 (init_max LOGISTIC s1 (mzero D V1)) g0)
    as (E & HE & HsE & HdE).
  destruct (fill_weight_order H D (init_max LOGISTIC s1 (mzero H D))
              (generator_after rand g0 (D * V1)))
    as (Wxh & HWxh & HsWxh & HdWxh).
  rewrite generator_after_add in HWxh.
  destruct (fill_weight_order H H (init_max LOGISTIC s1 (mzero H H))
              (generator_after rand g0 (D * V1 + H * D)))
    as (Whh & HWhh & HsWhh & HdWhh).
  rewrite generator_after_add in HWhh.
  destruct (fill_weight_order C H (init_max LOGISTIC s1 (mzero C H))
              (generator_after rand g0 (D * V1 + H * D + H * H)))
    as (Why & HWhy & HsWhy & HdWhy).
  rewrite generator_after_add in HWhy.
  exists (initialized s E Wxh Whh Why).
  split.
  - unfold InitializeParameters.
    rewrite (surjective_pairing (CollectAllParameters s)).
    cbv iota beta.
    rewrite zero_biases_collected; fold s1.
    change (weights (snd (CollectAllParameters s)))
      with [Ref_E; Ref_Wxh; Ref_Whh; Ref_Why].
    erewrite init_weights_step; [| reflexivity | exact HE].
    erewrite init_weights_step; [| reflexivity | exact HWxh].
    erewrite init_weights_step; [| reflexivity | exact HWhh].
    erewrite init_weights_step; [| reflexivity | exact HWhy].
    reflexivity.
  - assert (Hmax : forall rr cc W, mshape rr cc W ->
              init_max LOGISTIC s W = init_max LOGISTIC s1 (mzero rr cc)).
    { intros rr cc W (Hr & Hc & _); unfold init_max.
      cbn [mrows]; rewrite mcols_mzero, Hr, Hc; reflexivity. }
    unfold initialized;
      cbn [lookup_layer_ set_params E_ Wxh_ Whh_ Why_].
    split; [intros i j Hi Hj; rewrite (Hmax _ _ _ HsE); apply HdE;
            assumption |].
    split; [intros i j Hi Hj; rewrite (Hmax _ _ _ HsWxh), HdWxh by assumption;
            now rewrite draw_number_add |].
    split; [intros i j Hi Hj; rewrite (Hmax _ _ _ HsWhh), HdWhh by assumption;
            now rewrite draw_number_add |].
    intros i j Hi Hj; rewrite (Hmax _ _ _ HsWhy), HdWhy by assumption.
    now rewrite draw_number_add.
Qed.

End DrawOrder.

(** ** Training in two runs *)

Section Resume.

Variable EvaluateActivation : Z -> Vector -> Vector.
Variable DerivateActivation : Z -> Vector -> Vector.

Lemma evaluate_from_same_cell (s s' r : RNN)
  (input_sequences : list (list Input)) (output_labels : list Z) (a : R) :
  parameters s = parameters s' ->
  configuration s = configuration s' ->
  evaluate EvaluateActivation s input_sequences output_labels = Done (r, a) ->
  exists r',
    evaluate EvaluateActivation s' input_sequences output_labels
    = Done (r', a) /\
    parameters r = parameters r' /\
    configuration r = configuration r'.
Proof.
  intros Hp Hc H; unfold evaluate in *.
  destruct input_sequences as [|l rest].
  - cbn [evaluate_loop bind fst snd] in *; injection H as <- <-.
    exists s'; repeat split; assumption.
  - exists r; split; [| split; reflexivity].
    rewrite (same_cell_up_to_trace Hp Hc).
    cbn [evaluate_loop] in *; unfold Run in *.
    rewrite forward_pass_ignores_trace; exact H.
Qed.

(** An epoch run from a cell of the same parameters, under another epoch
    number, does the same work and prints the same figures. *)
Lemma TrainEpoch_renumbered (input_sequences : list (list Input))
  (output_labels : list Z)
  (dev : list (list Input)) (dev_labels : list Z)
  (test : list (list Input)) (test_labels : list Z)
  (epoch epoch' : Z) (learning_rate : R) (s s' r : RNN)
  (line : epoch_line) :
  parameters s = parameters s' ->
  configuration s = configuration s' ->
  TrainEpoch EvaluateActivation DerivateActivation
    input_sequences output_labels dev dev_labels test test_labels
    epoch learning_rate s = Done (r, line) ->
  exists r' line',
    TrainEpoch EvaluateActivation DerivateActivation
      input_sequences output_labels dev dev_labels test test_labels
      epoch' learning_rate s' = Done (r', line') /\
    parameters r = parameters r' /\
    configuration r = configuration r'.
Proof.
  intros Hp Hc H; unfold TrainEpoch in *.
  apply bind_Done in H as ([s1 v] & Hloop & H).
  apply bind_Done in H as ([s2 ad] & Hdev & H).
  apply bind_Done in H as ([s3 at3] & Htest & H).
  cbn [fst snd] in *; injection H as <- _.
  destruct (@train_loop_from_same_cell EvaluateActivation
              DerivateActivation _ _ _ _ _ _ _ _ _ _ Hp Hc Hloop)
    as (r1 & Hloop1 & Hp1 & Hc1).
  destruct (evaluate_from_same_cell _ _ Hp1 Hc1 Hdev)
    as (r2 & Hdev2 & Hp2 & Hc2).
  destruct (evaluate_from_same_cell _ _ Hp2 Hc2 Htest)
    as (r3 & Htest3 & Hp3 & Hc3).
  rewrite Hloop1; cbn [bind fst snd].
  rewrite Hdev2; cbn [bind fst snd].
  rewrite Htest3; cbn [bind fst snd].
  eexists; eexists; split; [reflexivity |]; split; assumption.
Qed.

Lemma epochs_loop_renumbered (input_sequences : list (list Input))
  (output_labels : list Z)
  (dev : list (list Input)) (dev_labels : list Z)
  (test : list (list Input)) (test_labels : list Z)
  (learning_rate : R) (n : nat) :
  forall (epoch epoch' : Z) (s s' r : RNN)
         (printed printed' out : list output_line),
    parameters s = parameters s' ->
    configuration s = configuration s' ->
    epochs_loop EvaluateActivation DerivateActivation
      input_sequences output_labels dev dev_labels test test_labels
      learning_rate n epoch s printed = Done (r, out) ->
    exists r' out',
      epochs_loop EvaluateActivation DerivateActivation
        input_sequences output_labels dev dev_labels test test_labels
        learning_rate n epoch' s' printed' = Done (r', out') /\
      parameters r = parameters r' /\
      configuration r = configuration r'.
Proof.
  induction n as [|n IH];
    intros epoch epoch' s s' r printed printed' out Hp Hc H.
  - injection H as <- _; exists s', printed'; repeat split; assumption.
  - cbn [epochs_loop] in *.
    apply bind_Done in H as ([s1 line] & Hep & H); cbn [fst snd] in H.
    destruct (@TrainEpoch_renumbered _ _ _ _ _ _ epoch epoch' _ _ _ _ _
                Hp Hc Hep)
      as (r1 & line' & Hep' & Hp1 & Hc1).
    rewrite Hep'; cbn [bind fst snd].
    eapply IH; [exact Hp1 | exact Hc1 | exact H].
Qed.

Lemma epochs_loop_app (input_sequences : list (list Input))
  (output_labels : list Z)
  (dev : list (list Input)) (dev_labels : list Z)
  (test : list (list Input)) (test_labels : list Z)
  (learning_rate : R) (n m : nat) :
  forall (epoch : Z) (s : RNN) (printed : list output_line),
    epochs_loop EvaluateActivation DerivateActivation
      input_sequences output_labels dev dev_labels test test_labels
      learning_rate (n + m) epoch s printed
    = (sl <- epochs_loop EvaluateActivation DerivateActivation
               input_sequences output_labels dev dev_labels
               test test_labels learning_rate n epoch s printed ;;
       epochs_loop EvaluateActivation DerivateActivation
         input_sequences output_labels dev dev_labels test test_labels
         learning_rate m (epoch + Z.of_nat n)%Z (fst sl) (snd sl)).
Proof.
  induction n as [|n IH]; intros epoch s printed.
  - cbn [Nat.add epochs_loop bind fst snd Z.of_nat].
    now rewrite Z.add_0_r.
  - cbn [Nat.add epochs_loop].
    destruct (TrainEpoch _ _ _ _ _ _ _ _ _ _ _) as [[s1 line]|f];
      cbn [bind fst snd]; [| reflexivity].
    rewrite IH; replace (epoch + 1 + Z.of_nat n)%Z
      with (epoch + Z.of_nat (S n))%Z by lia.
    reflexivity.
Qed.

(** X19.  Training can be split: [n] epochs, then [m] more epochs started
    from the cell that the first run left, end with the parameters of a
    single run of [n + m] epochs, which completes when the two runs
    do. *)
Theorem train_in_two_runs (input_sequences : list (list Input))
  (output_labels : list Z)
  (dev : list (list Input)) (dev_labels : list Z)
  (test : list (list Input)) (test_labels : list Z)
  (n m : Z) (learning_rate : R) (s r1 r2 : RNN)
  (out1 out2 : list output_line) :
  (0 <= n)%Z -> (0 <= m)%Z ->
  Train EvaluateActivation DerivateActivation
    input_sequences output_labels dev dev_labels test test_labels
    n learning_rate s = Done (r1, out1) ->
  Train EvaluateActivation DerivateActivation
    input_sequences output_labels dev dev_labels test test_labels
    m learning_rate r1 = Done (r2, out2) ->
  exists r out,
    Train EvaluateActivation DerivateActivation
      input_sequences output_labels dev dev_labels test test_labels
      (n + m) learning_rate s = Done (r, out) /\
    parameters r = parameters r2.
Proof.
  intros Hn Hm H1 H2; unfold Train in *.
  apply bind_Done in H1 as ([s0 a] & Hev & H1); cbn [fst snd] in H1.
  apply bind_Done in H2 as ([s0' a'] & Hev' & H2); cbn [fst snd] in H2.
  rewrite Hev; cbn [bind fst snd].
  replace (Z.to_nat (n + m)) with (Z.to_nat n + Z.to_nat m)%nat by lia.
  rewrite epochs_loop_app, H1; cbn [bind fst snd].
  apply evaluate_same_cell in Hev'; destruct Hev' as [Hp Hc].
  destruct (@epochs_loop_renumbered _ _ _ _ _ _ _ _ 0%Z
              (0 + Z.of_nat (Z.to_nat n))%Z _ r1 _ _ out1 _ Hp Hc H2)
    as (r & out & Hrun & Hpr & _).
  exists r, out; split; [exact Hrun | congruence].
Qed.

End Resume.

Lemma train_in_two_runs_witness :
  (0 <= 1)%Z /\
  exists r1 out1 r2 out2 r out,
    Train Evaluate_logistic Derivate_logistic
      [Example.sentence] [1%Z] [Example.sentence] [0%Z] [] []
      1 (1 / 10) Example.cell = Done (r1, out1) /\
    Train Evaluate_logistic Derivate_logistic
      [Example.sentence] [1%Z] [Example.sentence] [0%Z] [] []
      1 (1 / 10) r1 = Done (r2, out2) /\
    Train Evaluate_logistic Derivate_logistic
      [Example.sentence] [1%Z] [Example.sentence] [0%Z] [] []
      (1 + 1) (1 / 10) Example.cell = Done (r, out) /\
    parameters r = parameters r2.
Proof.
  split; [lia |].
  destruct (@Train_done Evaluate_logistic Derivate_logistic
              Evaluate_logistic_length Derivate_logistic_length
              (fun _ => True) (fun _ _ _ _ _ _ _ _ _ _ _ => I)
              (fun _ _ _ _ _ => I) (1 / 10)
              [Example.sentence] [1%Z] [Example.sentence] [0%Z] [] [] 1%Z
              Example.cell example_cell_well_shaped I
              ltac:(simpl; lia) example_trainable example_scorable
              (empty_scorable Example.cell))
    as (r1 & out1 & Hrun1 & Hs1 & Hc1 & _).
  assert (HC1 : output_size_ r1 = output_size_ Example.cell)
    by (unfold configuration in Hc1; congruence).
  destruct (@Train_done Evaluate_logistic Derivate_logistic
              Evaluate_logistic_length Derivate_logistic_length
              (fun _ => True) (fun _ _ _ _ _ _ _ _ _ _ _ => I)
              (fun _ _ _ _ _ => I) (1 / 10)
              [Example.sentence] [1%Z] [Example.sentence] [0%Z] [] [] 1%Z
              r1 Hs1 I)
    as (r2 & out2 & Hrun2 & _).
  - rewrite HC1; simpl; lia.
  - apply (trainable_same_configuration (r := Example.cell));
      [congruence | exact example_trainable].
  - apply (scorable_same_configuration (r := Example.cell));
      [congruence | exact example_scorable].
  - apply empty_scorable.
  - destruct (@train_in_two_runs Evaluate_logistic Derivate_logistic
                _ _ _ _ _ _ 1%Z 1%Z _ _ _ _ _ _
                ltac:(lia) ltac:(lia) Hrun1 Hrun2)
      as (r & out & Hrun & Hp).
    exists r1, out1, r2, out2, r, out.
    split; [exact Hrun1 |]; split; [exact Hrun2 |];
      split; [exact Hrun | exact Hp].
Defined.

(** ** A cell whose parameters were only collected *)

Lemma mat_vec_mzero (r c : nat) (v : Vector) :
  mat_vec (mzero r c) v = vzero r.
Proof.
  unfold mat_vec, mzero, vzero; cbn [mrows].
  rewrite (map_ext_in _ (fun _ => 0)).
  - induction r as [|r IH]; [reflexivity |].
    rewrite seq_S, map_app, IH; cbn [map].
    change [0] with (repeat 0 1); rewrite <- repeat_app.
    now rewrite Nat.add_1_r.
  - intros i _; unfold mrow; cbn [mdata].
    rewrite map_repeat, nth_repeat.
    fold (vzero c); rewrite dot_comm; apply dot_vzero_r.
Qed.

Lemma collected_cell (s : RNN) :
  fst (CollectAllParameters s)
  = initialized s
      (mzero (GetInputSize s)
         (GetNumWords (dictionary_ (lookup_layer_ s)) + 1))
      (mzero (hidden_size_ s) (GetInputSize s))
      (mzero (hidden_size_ s) (hidden_size_ s))
      (mzero (output_size_ s) (hidden_size_ s)).
Proof.
  destruct s as [af L H C uhs Wxh Whh Why bh by0 h0 x h y p].
  destruct uhs; reflexivity.
Qed.

Lemma argmax_from_constant (e : R) (n : nat) (i bi : Z) :
  argmax_from (repeat e n) i e bi = bi.
Proof.
  revert i; induction n as [|n IH]; intros i; [reflexivity |].
  cbn [repeat argmax_from].
  destruct (Rlt_dec e e) as [H|_]; [lra | apply IH].
Qed.

(** X20.  [CollectAllParameters] is no mere listing: it allocates every tensor
    anew, so whatever the cell had learned is gone.  On the cell it
    returns, every non-empty sentence of dictionary ids gets logits that
    are all zero and [C] probabilities that are all the one number
    [exp (0 - LogSumExp (0, ..., 0))], and [Run] predicts label [0]. *)
Theorem collected_cell_is_undecided (Ev : Z -> Vector -> Vector)
  (s : RNN) (input_sequence : list Input) :
  input_sequence <> [] ->
  valid_ids (lookup_layer_ s) input_sequence ->
  (0 < output_size_ s)%nat ->
  exists s',
    Run Ev (fst (CollectAllParameters s)) input_sequence = Done (s', 0%Z) /\
    y_ s' = vzero (output_size_ s) /\
    p_ s' = repeat (exp (0 - LogSumExp (vzero (output_size_ s))))
              (output_size_ s).
Proof.
  intros Hne Hv Hc.
  rewrite collected_cell.
  set (s1 := initialized s _ _ _ _).
  assert (Hs1 : well_shaped s1)
    by (apply initialized_well_shaped; apply mshape_mzero).
  assert (Hv1 : valid_ids (lookup_layer_ s1) input_sequence) by exact Hv.
  unfold Run; rewrite forward_pass_returns by assumption.
  cbn [bind p_ y_ set_trace].
  set (X := mkMatrix _ _).
  assert (Hy : logits_spec Ev s1 X (length input_sequence)
               = vzero (output_size_ s)).
  { unfold logits_spec, s1, initialized; cbn [Why_ by_ set_params].
    rewrite mat_vec_mzero; apply vadd_vzero_l, vzero_length. }
  rewrite Hy.
  assert (Hp : probabilities_spec (vzero (output_size_ s))
               = repeat (exp (0 - LogSumExp (vzero (output_size_ s))))
                   (output_size_ s)).
  { unfold probabilities_spec.
    generalize (LogSumExp (vzero (output_size_ s))); intros l.
    unfold vzero; rewrite map_repeat; reflexivity. }
  rewrite Hp.
  generalize (exp (0 - LogSumExp (vzero (output_size_ s)))); intros e.
  destruct (output_size_ s) as [|n] eqn:HC; [lia |].
  cbn [repeat maxCoeff bind].
  rewrite argmax_from_constant.
  eexists; split; [reflexivity |]; split; reflexivity.
Qed.

Lemma collected_cell_is_undecided_witness :
  Example.sentence <> [] /\
  exists s',
    Run Evaluate_logistic (fst (CollectAllParameters Example.cell))
      Example.sentence = Done (s', 0%Z) /\
    y_ s' = [0; 0] /\
    nth 0 (p_ s') 0 = nth 1 (p_ s') 0.
Proof.
  split; [discriminate |].
  destruct (@collected_cell_is_undecided Evaluate_logistic Example.cell
              Example.sentence ltac:(discriminate) example_sentence_valid
              ltac:(simpl; lia))
    as (s' & Hrun & Hy & Hp).
  exists s'; split; [exact Hrun |]; split; [exact Hy |].
  rewrite Hp; reflexivity.
Defined.

(** ** The columns of the table that a sentence reads *)

Lemma hidden_spec_other_table (Ev : Z -> Vector -> Vector) (s : RNN)
  (E' X : Matrix) (t : nat) :
  hidden_spec Ev (set_weight s Ref_E E') X t = hidden_spec Ev s X t.
Proof.
  induction t as [|t IH]; cbn [hidden_spec]; [reflexivity |].
  rewrite IH; reflexivity.
Qed.

(** X21.  The forward pass reads the embedding table at the columns of the
    sentence's tokens and nowhere else: with a table of as many columns
    that agrees on these columns, it completes with the same buffers
    [x_], [h_], [y_] and [p_]. *)
Theorem forward_pass_reads_sentence_columns (Ev : Z -> Vector -> Vector)
  (s s1 : RNN) (E' : Matrix) (input_sequence : list Input) :
  input_sequence <> [] ->
  mcols E' = mcols (E_ (lookup_layer_ s)) ->
  (forall inp, In inp input_sequence ->
     looked_up E' inp = looked_up (E_ (lookup_layer_ s)) inp) ->
  RunForwardPass Ev s input_sequence = Done s1 ->
  RunForwardPass Ev (set_weight s Ref_E E') input_sequence
  = Done (set_weight s1 Ref_E E').
Proof.
  intros Hne Hc Hcols H.
  pose proof H as H'; unfold RunForwardPass in H'.
  apply bind_Done in H' as (X & HX & _).
  rewrite (forward_pass_done Ev s Hne HX) in H; injection H as <-.
  pose proof (lookup_forward_inv _ _ HX) as Hin.
  rewrite (lookup_forward_done _ Hin) in HX; injection HX as <-.
  assert (HX' : Lookup.RunForwardLookupLayer
                  (lookup_layer_ (set_weight s Ref_E E')) input_sequence
                = Done (mkMatrix (embedding_dimension_ (lookup_layer_ s))
                          (map (looked_up (E_ (lookup_layer_ s)))
                               input_sequence))).
  { rewrite lookup_forward_done.
    - cbn [set_weight lookup_layer_ set_params embedding_dimension_ E_].
      f_equal; f_equal; apply map_ext_in; exact Hcols.
    - cbn [set_weight lookup_layer_ set_params E_].
      eapply Forall_impl; [| exact Hin].
      intros inp Hi; unfold id_in_table in *; rewrite Hc; exact Hi. }
  rewrite (forward_pass_done Ev (set_weight s Ref_E E') Hne HX').
  f_equal; unfold hidden_matrix_spec, logits_spec.
  rewrite (map_ext _ _ (hidden_spec_other_table Ev s E' _)).
  rewrite hidden_spec_other_table.
  reflexivity.
Qed.

Lemma forward_pass_reads_sentence_columns_witness :
  [mkInput 0] <> [] /\
  exists s1,
    RunForwardPass Evaluate_logistic Example.cell [mkInput 0] = Done s1 /\
    RunForwardPass Evaluate_logistic
      (set_weight Example.cell Ref_E (mkMatrix 2 [[5; 5]; [1; 2]; [7; 7]]))
      [mkInput 0]
    = Done (set_weight s1 Ref_E (mkMatrix 2 [[5; 5]; [1; 2]; [7; 7]])).
Proof.
  split; [discriminate |].
  assert (Hv : valid_ids (lookup_layer_ Example.cell) [mkInput 0])
    by (repeat constructor; simpl; lia).
  destruct (@forward_trace_shape Evaluate_logistic Example.cell
              [mkInput 0] example_cell_well_shaped Hv ltac:(discriminate))
    as (s1 & H1 & _).
  exists s1; split; [exact H1 |].
  apply (@forward_pass_reads_sentence_columns Evaluate_logistic
           Example.cell s1 (mkMatrix 2 [[5; 5]; [1; 2]; [7; 7]])
           [mkInput 0] ltac:(discriminate) eq_refl);
    [| exact H1].
  intros inp [<-|[]]; reflexivity.
Defined.
